(** * nt8_status_complete.py: status extraction and reconciliation

    A shallow embedding of the log-line matcher ([parse_with_patterns]),
    the field completer ([fill_missing_fields]), the instrument
    validator, the snapshot serialisation ([statuses_to_json]) and the
    reconciliation loop of [run_strategy_status_monitor].

    Text is modelled as a list of 8-bit characters read as the code
    points U+0000..U+00FF; [str.lower], [str.strip] and the classes
    [\w], [\s], [\d] of Python's [re] are written out on that range.
    Wall-clock values (the snapshot's [updated_at], the change notice's
    time stamp) and the optional e-mail notification, which is gated by
    [email_on_change] (default [False]) and a wall-clock cooldown, are
    left out. *)

From Stdlib Require Import List String Ascii Bool Arith Lia Permutation Sorted.
Import ListNotations.

Set Implicit Arguments.

(** ** Characters and text *)

Definition text := list ascii.

Definition T (s : string) : text := list_ascii_of_string s.

Definition code (c : ascii) : nat := nat_of_ascii c.

Definition between (lo hi n : nat) : bool := (lo <=? n) && (n <=? hi).

Definition ascii_eqb (a b : ascii) : bool := Ascii.eqb a b.

Fixpoint text_eqb (a b : text) : bool :=
  match a, b with
  | [], [] => true
  | x :: a', y :: b' => ascii_eqb x y && text_eqb a' b'
  | _, _ => false
  end.

(** [str.lower] on one code point below U+0100: A-Z, and the Latin-1
    capitals U+00C0..U+00DE except the multiplication sign U+00D7. *)
Definition py_lower_char (c : ascii) : ascii :=
  let n := code c in
  if between 65 90 n || between 192 214 n || between 216 222 n
  then ascii_of_nat (n + 32) else c.

(** Simple upper-case mapping, used by case-insensitive matching.  The
    upper-case forms of U+00B5 and U+00FF lie above U+00FF, outside the
    modelled range, so these two are left alone. *)
Definition py_upper_char (c : ascii) : ascii :=
  let n := code c in
  if between 97 122 n || between 224 246 n || between 248 254 n
  then ascii_of_nat (n - 32) else c.

Definition lower (s : text) : text := map py_lower_char s.

(** [\s] and the characters removed by [str.strip()]. *)
Definition is_space (c : ascii) : bool :=
  let n := code c in
  between 9 13 n || between 28 32 n || (n =? 133) || (n =? 160).

(** [\d] *)
Definition is_digit (c : ascii) : bool := between 48 57 (code c).

(** [\w]: alphanumeric in the sense of [str.isalnum], or underscore. *)
Definition is_word (c : ascii) : bool :=
  let n := code c in
  between 48 57 n || between 65 90 n || between 97 122 n || (n =? 95)
  || (n =? 170) || (n =? 178) || (n =? 179) || (n =? 181)
  || (n =? 185) || (n =? 186) || between 188 190 n
  || between 192 214 n || between 216 246 n || between 248 255 n.

Fixpoint lstrip (p : ascii -> bool) (s : text) : text :=
  match s with
  | c :: s' => if p c then lstrip p s' else s
  | [] => []
  end.

Definition strip_by (p : ascii -> bool) (s : text) : text :=
  rev (lstrip p (rev (lstrip p s))).

(** [s.strip()] *)
Definition strip (s : text) : text := strip_by is_space s.

Definition mem_char (cs : text) (c : ascii) : bool := existsb (ascii_eqb c) cs.

(** [s.strip(chars)] *)
Definition strip_chars (chars : text) (s : text) : text :=
  strip_by (mem_char chars) s.

(** [s.split(sep, 1)[0]] for a one-character separator: the part before
    its first occurrence, or all of [s]. *)
Fixpoint before_first (sep : ascii) (s : text) : text :=
  match s with
  | [] => []
  | c :: s' => if ascii_eqb c sep then [] else c :: before_first sep s'
  end.

(** [s[a:b]] *)
Definition slice (s : text) (a b : nat) : text := firstn (b - a) (skipn a s).

(** [sub in s] *)
Fixpoint is_prefix (p s : text) : bool :=
  match p, s with
  | [], _ => true
  | x :: p', y :: s' => ascii_eqb x y && is_prefix p' s'
  | _ :: _, [] => false
  end.

Fixpoint contains (s sub : text) : bool :=
  is_prefix sub s || match s with [] => false | _ :: s' => contains s' sub end.

(** ** Regular expressions

    The fragment of Python's [re] syntax that the source's patterns are
    written in.  Every repetition in the source ([+], [*?], [{m,n}],
    [\s?]) ranges over a single character set; [?] on a group is
    [Opt]. *)

Inductive citem : Type :=
| One (c : ascii)            (* a literal character *)
| Range (lo hi : ascii)      (* lo-hi *)
| CWord                      (* \w *)
| CSpace                     (* \s *)
| CDigit.                    (* \d *)

Inductive cset : Type :=
| Dot                                    (* . *)
| Cls (negated : bool) (items : list citem).  (* [...], [^...], or one literal *)

Inductive regex : Type :=
| Eps
| Chr (cs : cset)
| Seq (a b : regex)
| Alt (a b : regex)
| Rep (cs : cset) (lo : nat) (hi : option nat) (greedy : bool)
| Opt (a : regex)                        (* (?:a)? *)
| Grp (name : string) (a : regex)        (* (?P<name>a) *)
| WordB                                  (* \b *)
| Bol                                    (* ^ *)
| Eol.                                   (* $ *)

Definition item_match (it : citem) (c : ascii) : bool :=
  match it with
  | One x => ascii_eqb c x
  | Range lo hi => between (code lo) (code hi) (code c)
  | CWord => is_word c
  | CSpace => is_space c
  | CDigit => is_digit c
  end.

(** With [re.IGNORECASE] a set item accepts [c] when it holds a
    character with the same lower-case form as [c]. *)
Definition item_match_flags (ic : bool) (it : citem) (c : ascii) : bool :=
  if ic then item_match it (py_lower_char c) || item_match it (py_upper_char c)
  else item_match it c.

Definition cset_match (ic : bool) (cs : cset) (c : ascii) : bool :=
  match cs with
  | Dot => negb (code c =? 10)
  | Cls neg items => xorb neg (existsb (fun it => item_match_flags ic it c) items)
  end.

(** Group spans, latest first. *)
Definition marks := list (string * (nat * nat)).

Fixpoint get_mark (name : string) (ms : marks) : option (nat * nat) :=
  match ms with
  | [] => None
  | (n, sp) :: ms' => if String.eqb n name then Some sp else get_mark name ms'
  end.

Section Backtracking.

Variable ic : bool.
Variable R : Type.

Definition room (hi : option nat) : bool :=
  match hi with Some 0 => false | _ => true end.

Definition less (hi : option nat) : option nat := option_map pred hi.

(** Greedy repetition of one character set: take one more character
    when allowed, give back on failure. *)
Fixpoint rep_max (p : ascii -> bool) (lo : nat) (hi : option nat)
    (prev : option ascii) (pos : nat) (rest : text)
    (k : option ascii -> nat -> text -> option R) {struct rest} : option R :=
  match rest with
  | c :: rest' =>
      if p c && room hi then
        match rep_max p (pred lo) (less hi) (Some c) (S pos) rest' k with
        | Some r => Some r
        | None => if lo =? 0 then k prev pos rest else None
        end
      else if lo =? 0 then k prev pos rest else None
  | [] => if lo =? 0 then k prev pos rest else None
  end.

(** Lazy repetition: stop as soon as the rest of the pattern matches. *)
Fixpoint rep_min (p : ascii -> bool) (lo : nat) (hi : option nat)
    (prev : option ascii) (pos : nat) (rest : text)
    (k : option ascii -> nat -> text -> option R) {struct rest} : option R :=
  match (if lo =? 0 then k prev pos rest else None) with
  | Some r => Some r
  | None =>
      match rest with
      | c :: rest' =>
          if p c && room hi
          then rep_min p (pred lo) (less hi) (Some c) (S pos) rest' k
          else None
      | [] => None
      end
  end.

Definition at_boundary (prev : option ascii) (rest : text) : bool :=
  xorb (match prev with Some c => is_word c | None => false end)
       (match rest with c :: _ => is_word c | [] => false end).

Definition at_end (rest : text) : bool :=
  match rest with
  | [] => true
  | [c] => code c =? 10
  | _ => false
  end.

(** The matcher proper, in continuation-passing style; alternatives
    are tried in Python's priority order. *)
Fixpoint run (r : regex) (prev : option ascii) (pos : nat) (rest : text)
    (ms : marks) (k : option ascii -> nat -> text -> marks -> option R)
    {struct r} : option R :=
  match r with
  | Eps => k prev pos rest ms
  | Chr cs =>
      match rest with
      | c :: rest' => if cset_match ic cs c then k (Some c) (S pos) rest' ms else None
      | [] => None
      end
  | Seq a b => run a prev pos rest ms (fun prev' pos' rest' ms' => run b prev' pos' rest' ms' k)
  | Alt a b =>
      match run a prev pos rest ms k with
      | Some x => Some x
      | None => run b prev pos rest ms k
      end
  | Rep cs lo hi greedy =>
      (if greedy then rep_max else rep_min) (cset_match ic cs) lo hi prev pos rest
        (fun prev' pos' rest' => k prev' pos' rest' ms)
  | Opt a =>
      match run a prev pos rest ms k with
      | Some x => Some x
      | None => k prev pos rest ms
      end
  | Grp name a =>
      run a prev pos rest ms
        (fun prev' pos' rest' ms' => k prev' pos' rest' ((name, (pos, pos')) :: ms'))
  | WordB => if at_boundary prev rest then k prev pos rest ms else None
  | Bol => if pos =? 0 then k prev pos rest ms else None
  | Eol => if at_end rest then k prev pos rest ms else None
  end.

End Backtracking.

(** A match at one start position: the end position and the marks. *)
Definition match_here (ic : bool) (r : regex) (prev : option ascii) (pos : nat)
    (rest : text) : option (nat * marks) :=
  run ic r prev pos rest [] (fun _ pos' _ ms => Some (pos', ms)).

(** [re.search]'s scan: leftmost start position first. *)
Fixpoint scan (ic : bool) (r : regex) (prev : option ascii) (pos : nat)
    (rest : text) {struct rest} : option (nat * nat * marks) :=
  match match_here ic r prev pos rest with
  | Some (e, ms) => Some (pos, e, ms)
  | None =>
      match rest with
      | c :: rest' => scan ic r (Some c) (S pos) rest'
      | [] => None
      end
  end.

(** ** Exceptions and the [re] interface *)

Inductive exn : Type :=
| ReError        (* re.error: the pattern does not compile *)
| IndexError.    (* m.group(k) for a group the pattern does not have *)

Inductive result (A : Type) : Type :=
| Ok (a : A)
| Raise (e : exn).

Arguments Ok {A} a.
Arguments Raise {A} e.

Definition bind {A B : Type} (x : result A) (f : A -> result B) : result B :=
  match x with
  | Ok a => f a
  | Raise e => Raise e
  end.

Notation "x <- e ;; k" := (bind e (fun x => k))
  (at level 61, e at next level, right associativity).

Fixpoint group_names (r : regex) : list string :=
  match r with
  | Seq a b | Alt a b => group_names a ++ group_names b
  | Opt a => group_names a
  | Grp name a => name :: group_names a
  | _ => []
  end.

Definition has_name (name : string) (names : list string) : bool :=
  existsb (String.eqb name) names.

Fixpoint distinct (names : list string) : bool :=
  match names with
  | [] => true
  | n :: names' => negb (has_name n names') && distinct names'
  end.

Definition item_ok (it : citem) : bool :=
  match it with
  | Range lo hi => code lo <=? code hi
  | _ => true
  end.

Definition cset_ok (cs : cset) : bool :=
  match cs with
  | Dot => true
  | Cls _ items => forallb item_ok items
  end.

Fixpoint bounds_ok (r : regex) : bool :=
  match r with
  | Chr cs => cset_ok cs
  | Seq a b | Alt a b => bounds_ok a && bounds_ok b
  | Rep cs lo hi _ =>
      cset_ok cs && match hi with Some h => lo <=? h | None => true end
  | Opt a | Grp _ a => bounds_ok a
  | _ => true
  end.

(** [re.compile] refuses a pattern that names a group twice, a
    repetition [{m,n}] with [m > n] and a character range [b-a]. *)
Definition compiles (r : regex) : bool :=
  distinct (group_names r) && bounds_ok r.

Definition re_compile (r : regex) : result regex :=
  if compiles r then Ok r else Raise ReError.

Record match_obj : Type := Match {
  m_string : text;
  m_names : list string;
  m_start : nat;
  m_end : nat;
  m_marks : marks
}.

Definition mk_match (r : regex) (s : text) (x : nat * nat * marks) : match_obj :=
  let '(a, b, ms) := x in Match s (group_names r) a b ms.

(** [pattern.search(s)] and [pattern.match(s)] of a compiled pattern. *)
Definition pattern_search (ic : bool) (r : regex) (s : text) : option match_obj :=
  option_map (mk_match r s) (scan ic r None 0 s).

Definition pattern_match (ic : bool) (r : regex) (s : text) : option match_obj :=
  option_map (fun x => mk_match r s (0, fst x, snd x)) (match_here ic r None 0 s).

(** [re.search(pat, s, flags)] *)
Definition re_search (pat : regex) (s : text) (ic : bool) : result (option match_obj) :=
  r <- re_compile pat ;; Ok (pattern_search ic r s).

(** [k in m.groupdict()] *)
Definition in_groupdict (m : match_obj) (k : string) : bool := has_name k (m_names m).

(** [m.group(k)]: [None] for a group that took no part in the match. *)
Definition m_group (m : match_obj) (k : string) : result (option text) :=
  if has_name k (m_names m)
  then Ok (option_map (fun sp => slice (m_string m) (fst sp) (snd sp)) (get_mark k (m_marks m)))
  else Raise IndexError.

(** [x or ''] *)
Definition or_empty (x : option text) : text :=
  match x with Some s => s | None => [] end.

(** ** Pattern tables *)

Definition seqs (rs : list regex) : regex := fold_right Seq Eps rs.

Definition ch (c : ascii) : cset := Cls false [One c].

Definition lit (s : string) : regex := seqs (map (fun c => Chr (ch c)) (T s)).

Fixpoint alts (ws : list string) : regex :=
  match ws with
  | [] => Eps
  | w :: ws' =>
      match ws' with
      | [] => lit w
      | _ :: _ => Alt (lit w) (alts ws')
      end
  end.

Definition plus_ (cs : cset) : regex := Rep cs 1 None true.
Definition exactly (n : nat) (cs : cset) : regex := Rep cs n (Some n) true.
Definition upto (lo hi : nat) (cs : cset) : regex := Rep cs lo (Some hi) true.
Definition lazy_any : regex := Rep Dot 0 None false.            (* .*? *)

Definition sp : cset := Cls false [CSpace].                     (* \s *)
Definition dg : cset := Cls false [CDigit].                     (* \d *)
Definition AZ : cset := Cls false [Range "A" "Z"].              (* [A-Z] *)
Definition AZ09 : cset := Cls false [Range "A" "Z"; Range "0" "9"].  (* [A-Z0-9] *)
Definition not_quote : cset := Cls true [One "'"].              (* [^'] *)
(* [\w\s\-\.\#] *)
Definition label_chars : cset := Cls false [CWord; CSpace; One "-"; One "."; One "#"].
(* [A-Za-z0-9_\-\.] *)
Definition bare_name_chars : cset :=
  Cls false [Range "A" "Z"; Range "a" "z"; Range "0" "9"; One "_"; One "-"; One "."].

(* '(?P<name>[^']+)' *)
Definition quoted_name : regex := seqs [lit "'"; Grp "name" (plus_ not_quote); lit "'"].

(* (?P<instrument>[A-Z0-9]{1,6}(?:\s+[A-Z]{3}\d{2})?) *)
Definition instrument_group : regex :=
  Grp "instrument" (seqs [upto 1 6 AZ09; Opt (seqs [plus_ sp; exactly 3 AZ; exactly 2 dg])]).

(* (?P<connection>[\w\s\-\.\#]+) *)
Definition connection_group : regex := Grp "connection" (plus_ label_chars).

Definition months : list string :=
  ["JAN"; "FEB"; "MAR"; "APR"; "MAY"; "JUN"; "JUL"; "AUG"; "SEP"; "OCT"; "NOV"; "DEC"]%string.

Record extractor_set : Type := Extractors {
  x_name : list regex;
  x_instrument : list regex;
  x_connection : list regex;
  x_account : list regex
}.

Record pattern_set : Type := Patterns {
  p_enabled : list regex;
  p_disabled : list regex;
  p_extractors : extractor_set
}.

(* strategy\s+'(?P<name>[^']+)'.*?\bon\b\s+(?P<instrument>...)\b.*?\b<word>\b.*?(?:connection|account)\s+(?P<connection>...) *)
Definition pat_on (word : string) : regex :=
  seqs [lit "strategy"; plus_ sp; quoted_name; lazy_any; WordB; lit "on"; WordB; plus_ sp;
        instrument_group; WordB; lazy_any; WordB; lit word; WordB; lazy_any;
        alts ["connection"; "account"]%string; plus_ sp; connection_group].

(* \b<word>\b.*?strategy\s+'(?P<name>[^']+)'.*?\bfor\b\s+(?P<instrument>...)\b.*?(?:via|on|connection)\s+(?P<connection>...) *)
Definition pat_for (word : string) : regex :=
  seqs [WordB; lit word; WordB; lazy_any; lit "strategy"; plus_ sp; quoted_name; lazy_any;
        WordB; lit "for"; WordB; plus_ sp; instrument_group; WordB; lazy_any;
        alts ["via"; "on"; "connection"]%string; plus_ sp; connection_group].

(* strategy\s+(?P<name>[A-Za-z0-9_\-\.]+).*?\b<word>\b(?:.*?(?P<instrument>...))?(?:.*?(?:connection|via)\s+(?P<connection>...))? *)
Definition pat_bare (word : string) : regex :=
  seqs [lit "strategy"; plus_ sp; Grp "name" (plus_ bare_name_chars); lazy_any;
        WordB; lit word; WordB;
        Opt (seqs [lazy_any; instrument_group]);
        Opt (seqs [lazy_any; alts ["connection"; "via"]%string; plus_ sp; connection_group])].

(* \b<word>\s+ninjascript\s+strategy\s+'(?P<name>[^']+)' *)
Definition pat_ninjascript (word : string) : regex :=
  seqs [WordB; lit word; plus_ sp; lit "ninjascript"; plus_ sp; lit "strategy"; plus_ sp;
        quoted_name].

(* \bdisabled\b.*?strategy\s+'(?P<name>[^']+)'(?:.*?(?P<instrument>...))?(?:.*?(?:connection|via|on)\s+(?P<connection>...))? *)
Definition pat_disabled_quoted : regex :=
  seqs [WordB; lit "disabled"; WordB; lazy_any; lit "strategy"; plus_ sp; quoted_name;
        Opt (seqs [lazy_any; instrument_group]);
        Opt (seqs [lazy_any; alts ["connection"; "via"; "on"]%string; plus_ sp; connection_group])].

(* \b<prep>\s+(?P<instrument>[A-Z]{1,6}\s+(?:JAN|...|DEC)\s?\d{2})\b *)
Definition ext_mmmyy (prep : string) : regex :=
  seqs [WordB; lit prep; plus_ sp;
        Grp "instrument" (seqs [upto 1 6 AZ; plus_ sp; alts months; upto 0 1 sp; exactly 2 dg]);
        WordB].

(* \b<prep>\s+(?P<instrument>[A-Z]{1,6}\s+\d{2}-\d{2})\b *)
Definition ext_mmyy (prep : string) : regex :=
  seqs [WordB; lit prep; plus_ sp;
        Grp "instrument" (seqs [upto 1 6 AZ; plus_ sp; exactly 2 dg; lit "-"; exactly 2 dg]);
        WordB].

(* \b<prep>\s+(?P<instrument>[A-Z]{1,6})\b *)
Definition ext_symbol (prep : string) : regex :=
  seqs [WordB; lit prep; plus_ sp; Grp "instrument" (upto 1 6 AZ); WordB].

Definition DEFAULT_PATTERNS : pattern_set := {|
  p_enabled :=
    [ pat_ninjascript "enabling";
      pat_on "enabled";
      pat_for "enabled";
      pat_bare "enabled" ];
  p_disabled :=
    [ pat_ninjascript "disabling";
      pat_on "disabled";
      pat_for "disabled";
      pat_disabled_quoted;
      pat_bare "disabled" ];
  p_extractors := {|
    x_name :=
      [ seqs [lit "strategy"; plus_ sp; quoted_name];
        seqs [lit "strategy"; plus_ sp; Grp "name" (plus_ bare_name_chars)] ];
    x_instrument :=
      [ ext_mmmyy "on"; ext_mmyy "on"; ext_mmmyy "for"; ext_mmyy "for";
        ext_symbol "on"; ext_symbol "for" ];
    x_connection :=
      [ seqs [alts ["connection"; "via"]%string; plus_ sp; connection_group] ];
    x_account :=
      [ seqs [lit "account"; plus_ sp; Grp "account" (plus_ label_chars)] ]
  |}
|}.

(** The module-level validators, compiled without flags. *)
(* ^[A-Z]{1,6}\s+(?:JAN|...|DEC)\s?\d{2}$ *)
Definition _RE_FUT_MMMYY : regex :=
  seqs [Bol; upto 1 6 AZ; plus_ sp; alts months; upto 0 1 sp; exactly 2 dg; Eol].
(* ^[A-Z]{1,6}\s+\d{2}-\d{2}$ *)
Definition _RE_FUT_MMYY : regex :=
  seqs [Bol; upto 1 6 AZ; plus_ sp; exactly 2 dg; lit "-"; exactly 2 dg; Eol].
(* ^[A-Z]{1,6}$ *)
Definition _RE_SYMBOL : regex := seqs [Bol; upto 1 6 AZ; Eol].


(** ** Pattern syntax

    A reader for the part of Python's pattern syntax that the source's
    patterns use, so that the tables above can be compared with the
    pattern text of the source.  Concatenation is read as one flat
    sequence; [atoms] brings a pattern written with nested sequences
    to the same form. *)

Fixpoint drop_prefix (p s : text) : option text :=
  match p, s with
  | [], _ => Some s
  | x :: p', y :: s' => if ascii_eqb x y then drop_prefix p' s' else None
  | _ :: _, [] => None
  end.

Fixpoint read_digits (s : text) (acc : nat) : nat * text :=
  match s with
  | c :: s' => if is_digit c then read_digits s' (10 * acc + (code c - 48)) else (acc, s)
  | [] => (acc, s)
  end.

Fixpoint read_until (stop : ascii) (s : text) : option (text * text) :=
  match s with
  | [] => None
  | c :: s' =>
      if ascii_eqb c stop then Some ([], s')
      else option_map (fun r => (c :: fst r, snd r)) (read_until stop s')
  end.

(** [\w], [\s], [\d], or an escaped literal, inside a set. *)
Definition escape_item (e : ascii) : citem :=
  if ascii_eqb e "w" then CWord
  else if ascii_eqb e "s" then CSpace
  else if ascii_eqb e "d" then CDigit
  else One e.

(** The items of a set, up to its closing bracket. *)
Fixpoint parse_items (s : text) : option (list citem * text) :=
  match s with
  | [] => None
  | c :: s1 =>
      if ascii_eqb c "]" then Some ([], s1)
      else if ascii_eqb c "\" then
        match s1 with
        | e :: s2 => option_map (fun r => (escape_item e :: fst r, snd r)) (parse_items s2)
        | [] => None
        end
      else
        match s1 with
        | d :: hi :: s3 =>
            if ascii_eqb d "-" && negb (ascii_eqb hi "]")
            then option_map (fun r => (Range c hi :: fst r, snd r)) (parse_items s3)
            else option_map (fun r => (One c :: fst r, snd r)) (parse_items s1)
        | _ => option_map (fun r => (One c :: fst r, snd r)) (parse_items s1)
        end
  end.

(** An atom that is not a group: a set, an escape, [.], [^], [$] or a
    literal character [c]; [s1] is the text after [c]. *)
Definition simple_atom (c : ascii) (s1 : text) : option (regex * text) :=
  if ascii_eqb c "[" then
    match s1 with
    | n :: s2 =>
        if ascii_eqb n "^"
        then option_map (fun r => (Chr (Cls true (fst r)), snd r)) (parse_items s2)
        else option_map (fun r => (Chr (Cls false (fst r)), snd r)) (parse_items s1)
    | [] => None
    end
  else if ascii_eqb c "\" then
    match s1 with
    | e :: s2 =>
        if ascii_eqb e "b" then Some (WordB, s2)
        else if ascii_eqb e "w" then Some (Chr (Cls false [CWord]), s2)
        else if ascii_eqb e "s" then Some (Chr (Cls false [CSpace]), s2)
        else if ascii_eqb e "d" then Some (Chr (Cls false [CDigit]), s2)
        else Some (Chr (ch e), s2)
    | [] => None
    end
  else if ascii_eqb c "." then Some (Chr Dot, s1)
  else if ascii_eqb c "^" then Some (Bol, s1)
  else if ascii_eqb c "$" then Some (Eol, s1)
  else Some (Chr (ch c), s1).

(** A repetition of a single set, greedy unless followed by [?]. *)
Definition repeated (a : regex) (lo : nat) (hi : option nat) (s : text)
    : option (regex * text) :=
  match a with
  | Chr cs =>
      match s with
      | q :: s' => if ascii_eqb q "?" then Some (Rep cs lo hi false, s')
                   else Some (Rep cs lo hi true, s)
      | [] => Some (Rep cs lo hi true, s)
      end
  | _ => None
  end.

(** The quantifier after an atom, if any. *)
Definition quantified (a : regex) (s : text) : option (regex * text) :=
  match s with
  | [] => Some (a, s)
  | q :: s1 =>
      if ascii_eqb q "+" then repeated a 1 None s1
      else if ascii_eqb q "*" then repeated a 0 None s1
      else if ascii_eqb q "?" then
        match a with
        | Chr _ => repeated a 0 (Some 1) s1
        | _ => Some (Opt a, s1)
        end
      else if ascii_eqb q "{" then
        let '(lo, s2) := read_digits s1 0 in
        match s2 with
        | d :: s3 =>
            if ascii_eqb d "}" then repeated a lo (Some lo) s3
            else if ascii_eqb d "," then
              let '(hi, s4) := read_digits s3 0 in
              match s4 with
              | e :: s5 => if ascii_eqb e "}" then repeated a lo (Some hi) s5 else None
              | [] => None
              end
            else None
        | [] => None
        end
      else Some (a, s)
  end.

(** One alternation, up to a closing parenthesis or the end; [acc]
    holds the atoms of the current branch, last first. *)
Fixpoint parse_re (fuel : nat) (s : text) (acc : list regex) : option (regex * text) :=
  match fuel with
  | 0 => None
  | S fuel' =>
      match s with
      | [] => Some (seqs (rev acc), [])
      | c :: s1 =>
          if ascii_eqb c ")" then Some (seqs (rev acc), s)
          else if ascii_eqb c "|" then
            match parse_re fuel' s1 [] with
            | Some (r2, s2) => Some (Alt (seqs (rev acc)) r2, s2)
            | None => None
            end
          else if ascii_eqb c "(" then
            match drop_prefix (T "?:") s1 with
            | Some s2 =>
                match parse_re fuel' s2 [] with
                | Some (inner, _ :: s4) =>
                    match quantified inner s4 with
                    | Some (a, s5) => parse_re fuel' s5 (a :: acc)
                    | None => None
                    end
                | _ => None
                end
            | None =>
                match drop_prefix (T "?P<") s1 with
                | Some s2 =>
                    match read_until ">" s2 with
                    | Some (nm, s3) =>
                        match parse_re fuel' s3 [] with
                        | Some (inner, _ :: s4) =>
                            match quantified (Grp (string_of_list_ascii nm) inner) s4 with
                            | Some (a, s5) => parse_re fuel' s5 (a :: acc)
                            | None => None
                            end
                        | _ => None
                        end
                    | None => None
                    end
                | None => None
                end
            end
          else
            match simple_atom c s1 with
            | Some (a0, s2) =>
                match quantified a0 s2 with
                | Some (a, s3) => parse_re fuel' s3 (a :: acc)
                | None => None
                end
            | None => None
            end
      end
  end.

Definition re_parse (pattern : string) : option regex :=
  match parse_re (S (String.length pattern)) (T pattern) [] with
  | Some (r, []) => Some r
  | _ => None
  end.

(** The atoms of a pattern in order, nested sequences opened up. *)
Fixpoint atoms (r : regex) : list regex :=
  match r with
  | Eps => []
  | Seq a b => atoms a ++ atoms b
  | Alt a b => [Alt (seqs (atoms a)) (seqs (atoms b))]
  | Opt a => [Opt (seqs (atoms a))]
  | Grp n a => [Grp n (seqs (atoms a))]
  | _ => [r]
  end.

Definition flat (r : regex) : regex := seqs (atoms r).

(** The pattern text of the source. *)
Definition enabled_source : list string :=
  [ "\benabling\s+ninjascript\s+strategy\s+'(?P<name>[^']+)'";
    "strategy\s+'(?P<name>[^']+)'.*?\bon\b\s+(?P<instrument>[A-Z0-9]{1,6}(?:\s+[A-Z]{3}\d{2})?)\b.*?\benabled\b.*?(?:connection|account)\s+(?P<connection>[\w\s\-\.\#]+)";
    "\benabled\b.*?strategy\s+'(?P<name>[^']+)'.*?\bfor\b\s+(?P<instrument>[A-Z0-9]{1,6}(?:\s+[A-Z]{3}\d{2})?)\b.*?(?:via|on|connection)\s+(?P<connection>[\w\s\-\.\#]+)";
    "strategy\s+(?P<name>[A-Za-z0-9_\-\.]+).*?\benabled\b(?:.*?(?P<instrument>[A-Z0-9]{1,6}(?:\s+[A-Z]{3}\d{2})?))?(?:.*?(?:connection|via)\s+(?P<connection>[\w\s\-\.\#]+))?"
  ]%string.

Definition disabled_source : list string :=
  [ "\bdisabling\s+ninjascript\s+strategy\s+'(?P<name>[^']+)'";
    "strategy\s+'(?P<name>[^']+)'.*?\bon\b\s+(?P<instrument>[A-Z0-9]{1,6}(?:\s+[A-Z]{3}\d{2})?)\b.*?\bdisabled\b.*?(?:connection|account)\s+(?P<connection>[\w\s\-\.\#]+)";
    "\bdisabled\b.*?strategy\s+'(?P<name>[^']+)'.*?\bfor\b\s+(?P<instrument>[A-Z0-9]{1,6}(?:\s+[A-Z]{3}\d{2})?)\b.*?(?:via|on|connection)\s+(?P<connection>[\w\s\-\.\#]+)";
    "\bdisabled\b.*?strategy\s+'(?P<name>[^']+)'(?:.*?(?P<instrument>[A-Z0-9]{1,6}(?:\s+[A-Z]{3}\d{2})?))?(?:.*?(?:connection|via|on)\s+(?P<connection>[\w\s\-\.\#]+))?";
    "strategy\s+(?P<name>[A-Za-z0-9_\-\.]+).*?\bdisabled\b(?:.*?(?P<instrument>[A-Z0-9]{1,6}(?:\s+[A-Z]{3}\d{2})?))?(?:.*?(?:connection|via)\s+(?P<connection>[\w\s\-\.\#]+))?"
  ]%string.

Definition name_extractors_source : list string :=
  [ "strategy\s+'(?P<name>[^']+)'";
    "strategy\s+(?P<name>[A-Za-z0-9_\-\.]+)" ]%string.

Definition instrument_extractors_source : list string :=
  [ "\bon\s+(?P<instrument>[A-Z]{1,6}\s+(?:JAN|FEB|MAR|APR|MAY|JUN|JUL|AUG|SEP|OCT|NOV|DEC)\s?\d{2})\b";
    "\bon\s+(?P<instrument>[A-Z]{1,6}\s+\d{2}-\d{2})\b";
    "\bfor\s+(?P<instrument>[A-Z]{1,6}\s+(?:JAN|FEB|MAR|APR|MAY|JUN|JUL|AUG|SEP|OCT|NOV|DEC)\s?\d{2})\b";
    "\bfor\s+(?P<instrument>[A-Z]{1,6}\s+\d{2}-\d{2})\b";
    "\bon\s+(?P<instrument>[A-Z]{1,6})\b";
    "\bfor\s+(?P<instrument>[A-Z]{1,6})\b" ]%string.

Definition connection_extractors_source : list string :=
  [ "(?:connection|via)\s+(?P<connection>[\w\s\-\.\#]+)" ]%string.

Definition account_extractors_source : list string :=
  [ "(?:account)\s+(?P<account>[\w\s\-\.\#]+)" ]%string.

(** The validators' text, with [_MONTHS] filled in. *)
Definition validators_source : list string :=
  [ "^[A-Z]{1,6}\s+(?:JAN|FEB|MAR|APR|MAY|JUN|JUL|AUG|SEP|OCT|NOV|DEC)\s?\d{2}$";
    "^[A-Z]{1,6}\s+\d{2}-\d{2}$";
    "^[A-Z]{1,6}$" ]%string.

Definition read_all (sources : list string) : list (option regex) :=
  map (fun s => option_map flat (re_parse s)) sources.

Definition flat_all (rs : list regex) : list (option regex) :=
  map (fun r => Some (flat r)) rs.

(** ** The status dictionary *)

Inductive field : Type := FName | FInstrument | FConnection | FAccount.

Definition key_of (f : field) : string :=
  match f with
  | FName => "name"
  | FInstrument => "instrument"
  | FConnection => "connection"
  | FAccount => "account"
  end.

(** The dict built by [parse_with_patterns] and completed in place by
    [fill_missing_fields]; [None] is an absent key. *)
Record status : Type := Status {
  s_enabled : option bool;
  s_name : option text;
  s_instrument : option text;
  s_connection : option text;
  s_account : option text
}.

Definition empty_status : status := Status None None None None None.

Definition get_field (f : field) (st : status) : option text :=
  match f with
  | FName => s_name st
  | FInstrument => s_instrument st
  | FConnection => s_connection st
  | FAccount => s_account st
  end.

Definition set_field (f : field) (v : text) (st : status) : status :=
  match f with
  | FName => Status (s_enabled st) (Some v) (s_instrument st) (s_connection st) (s_account st)
  | FInstrument => Status (s_enabled st) (s_name st) (Some v) (s_connection st) (s_account st)
  | FConnection => Status (s_enabled st) (s_name st) (s_instrument st) (Some v) (s_account st)
  | FAccount => Status (s_enabled st) (s_name st) (s_instrument st) (s_connection st) (Some v)
  end.

Definition set_enabled (b : bool) (st : status) : status :=
  Status (Some b) (s_name st) (s_instrument st) (s_connection st) (s_account st).

(** [status.get(k, '')] *)
Definition get_or_empty (f : field) (st : status) : text := or_empty (get_field f st).

(** Truth value of [status.get(k)]: present and not empty. *)
Definition truthy (x : option text) : bool :=
  match x with
  | Some (_ :: _) => true
  | _ => false
  end.

(** ** parse_with_patterns *)

(** [{k: (m.group(k) or '').strip() for k in ks if k in m.groupdict()}] *)
Fixpoint collect_groups (m : match_obj) (ks : list field) (gd : status) : result status :=
  match ks with
  | [] => Ok gd
  | k :: ks' =>
      if in_groupdict m (key_of k)
      then g <- m_group m (key_of k) ;;
           collect_groups m ks' (set_field k (strip (or_empty g)) gd)
      else collect_groups m ks' gd
  end.

(** [if "name" in gd and "/" in gd["name"]: gd["name"] = gd["name"].split("/", 1)[0]] *)
Definition normalize_name (gd : status) : status :=
  match s_name gd with
  | Some n => if mem_char n "/" then set_field FName (before_first "/" n) gd else gd
  | None => gd
  end.

(** One of the two pattern loops: the first pattern that matches
    decides, and its polarity is the loop's. *)
Fixpoint try_patterns (polarity : bool) (pats : list regex) (low : text)
    : result (option status) :=
  match pats with
  | [] => Ok None
  | pat :: pats' =>
      m <- re_search pat low true ;;
      match m with
      | Some m =>
          gd <- collect_groups m [FName; FInstrument; FConnection] empty_status ;;
          Ok (Some (set_enabled polarity (normalize_name gd)))
      | None => try_patterns polarity pats' low
      end
  end.

Definition parse_with_patterns (line : text) (patterns : pattern_set)
    : result (bool * status) :=
  let low := lower line in
  r <- try_patterns true (p_enabled patterns) low ;;
  match r with
  | Some st => Ok (true, st)
  | None =>
      r' <- try_patterns false (p_disabled patterns) low ;;
      match r' with
      | Some st => Ok (true, st)
      | None => Ok (false, empty_status)
      end
  end.

(** ** fill_missing_fields *)

Definition extractors_get (x : extractor_set) (f : field) : list regex :=
  match f with
  | FName => x_name x
  | FInstrument => x_instrument x
  | FConnection => x_connection x
  | FAccount => x_account x
  end.

(** The inner loop: the first extractor that matches and has the
    field's group supplies the value. *)
Fixpoint first_extract (f : field) (pats : list regex) (low : text)
    : result (option text) :=
  match pats with
  | [] => Ok None
  | pat :: pats' =>
      m <- re_search pat low true ;;
      match m with
      | Some m =>
          if in_groupdict m (key_of f)
          then g <- m_group m (key_of f) ;; Ok (Some (strip (or_empty g)))
          else first_extract f pats' low
      | None => first_extract f pats' low
      end
  end.

Fixpoint fill_fields (fs : list field) (x : extractor_set) (low : text) (st : status)
    : result status :=
  match fs with
  | [] => Ok st
  | f :: fs' =>
      if truthy (get_field f st) then fill_fields fs' x low st
      else
        v <- first_extract f (extractors_get x f) low ;;
        fill_fields fs' x low
          (match v with Some s => set_field f s st | None => st end)
  end.

Definition all_fields : list field := [FName; FInstrument; FConnection; FAccount].

Definition trim_chars : text := T " :;,-[]()".

(** [if k in status: status[k] = status[k].strip(" :;,-[]()")] for the
    four fields. *)
Definition sanity_trims (st : status) : status :=
  fold_left
    (fun st k =>
       match get_field k st with
       | Some v => set_field k (strip_chars trim_chars v) st
       | None => st
       end)
    all_fields st.

Definition is_some {A : Type} (x : option A) : bool :=
  match x with Some _ => true | None => false end.

Definition matches_validators (instrument : text) : bool :=
  is_some (pattern_match false _RE_FUT_MMMYY instrument)
  || is_some (pattern_match false _RE_FUT_MMYY instrument)
  || is_some (pattern_match false _RE_SYMBOL instrument).

(** The instrument validator, written inline in [fill_missing_fields]
    and once more in the live loop:
    [if instrument and not (... .match(instrument) ...): instrument = '']. *)
Definition validate_instrument (instrument : text) : text :=
  match instrument with
  | [] => instrument
  | _ :: _ => if matches_validators instrument then instrument else []
  end.

Definition validate_status (st : status) : status :=
  match s_instrument st with
  | Some v => set_field FInstrument (validate_instrument v) st
  | None => st
  end.

Definition fill_missing_fields (line : text) (st : status) (patterns : pattern_set)
    : result status :=
  let low := lower line in
  st1 <- fill_fields all_fields (p_extractors patterns) low st ;;
  Ok (validate_status (sanity_trims st1)).

(** ** The status table and its snapshot *)

Record StrategyStatus : Type := mkStrategyStatus {
  name : text;
  instrument : text;
  enabled : bool;
  connection : text;
  account : text
}.

(** [statuses]: a dict keyed by [(name, instrument)], kept in insertion
    order as Python dicts are. *)
Definition table_key := (text * text)%type.
Definition table := list (table_key * StrategyStatus).

Definition key_eqb (a b : table_key) : bool :=
  text_eqb (fst a) (fst b) && text_eqb (snd a) (snd b).

(** [statuses.get(key)] *)
Fixpoint lookup (k : table_key) (t : table) : option StrategyStatus :=
  match t with
  | [] => None
  | (k', v) :: t' => if key_eqb k' k then Some v else lookup k t'
  end.

(** [statuses[key] = v]: an existing key keeps its place. *)
Fixpoint store (k : table_key) (v : StrategyStatus) (t : table) : table :=
  match t with
  | [] => [(k, v)]
  | (k', v') :: t' => if key_eqb k' k then (k, v) :: t' else (k', v') :: store k v t'
  end.

(** [statuses.update(initial)] *)
Definition update (t initial : table) : table :=
  fold_left (fun acc kv => store (fst kv) (snd kv) acc) initial t.

(** Python's [<] on strings: by code point, a proper prefix first. *)
Fixpoint text_cmp (a b : text) : comparison :=
  match a, b with
  | [], [] => Eq
  | [], _ :: _ => Lt
  | _ :: _, [] => Gt
  | x :: a', y :: b' =>
      match Nat.compare (code x) (code y) with
      | Eq => text_cmp a' b'
      | c => c
      end
  end.

(** [key=lambda s: (s.name.lower(), s.instrument.lower())] *)
Definition sort_key (s : StrategyStatus) : text * text :=
  (lower (name s), lower (instrument s)).

(** Tuple comparison: the first components decide unless they are equal. *)
Definition key_cmp (a b : text * text) : comparison :=
  match text_cmp (fst a) (fst b) with
  | Eq => text_cmp (snd a) (snd b)
  | c => c
  end.

Definition key_le (a b : text * text) : bool :=
  match key_cmp a b with Gt => false | _ => true end.

(** [sorted(xs, key=sort_key)]: a stable sort, here by insertion. *)
Fixpoint insert_sorted (x : StrategyStatus) (l : list StrategyStatus) : list StrategyStatus :=
  match l with
  | [] => [x]
  | y :: l' =>
      if key_le (sort_key x) (sort_key y) then x :: l else y :: insert_sorted x l'
  end.

Fixpoint sorted (l : list StrategyStatus) : list StrategyStatus :=
  match l with
  | [] => []
  | x :: l' => insert_sorted x (sorted l')
  end.

(** The ["strategies"] list of [statuses_to_json]; [asdict] copies the
    five fields. *)
Definition statuses_to_json (statuses : table) : list StrategyStatus :=
  sorted (map snd statuses).

(** ** The reconciliation loop *)

Record config : Type := Config {
  match_strategies : list text;
  patterns : pattern_set
}.

(** [requires_any(text, subs)] *)
Definition requires_any (txt : text) (subs : list text) : bool :=
  match subs with
  | [] => true
  | _ :: _ => existsb (fun s => contains (lower txt) (lower s)) subs
  end.

(** What the loop sends out, in order. *)
Inductive event : Type :=
| ChangeNotice (nm ins : text) (en : bool) (conn : text)   (* print "... Strategy change: ..." *)
| SnapshotWrite (strategies : list StrategyStatus)         (* atomic_write_json(path, statuses_to_json(statuses)) *)
| Publish (nm ins : text) (en : bool) (conn : text)        (* publisher.upsert_status(...) *)
| NoNameWarning (line : text)                              (* print "[warn] Could not determine strategy name ..." *)
| LineError (e : exn) (line : text)                        (* print "[error] Exception while processing line ..." *)
| InitError (e : exn).                                     (* print "[error] Failed to build initial snapshot ..." *)

Record monitor : Type := Monitor {
  statuses : table;
  output : list event
}.

(** State and exceptions of the loop body: an exception leaves the
    state as it was when raised. *)
Definition M (A : Type) : Type := monitor -> result A * monitor.

Definition ret {A : Type} (a : A) : M A := fun s => (Ok a, s).

Definition mbind {A B : Type} (x : M A) (f : A -> M B) : M B :=
  fun s =>
    match x s with
    | (Ok a, s') => f a s'
    | (Raise e, s') => (Raise e, s')
    end.

Notation "x <~ e ;; k" := (mbind e (fun x => k))
  (at level 61, e at next level, right associativity).

Definition lift {A : Type} (r : result A) : M A := fun s => (r, s).

Definition emit (e : event) : M unit :=
  fun s => (Ok tt, Monitor (statuses s) (output s ++ [e])).

Definition get_statuses : M table := fun s => (Ok (statuses s), s).

Definition put_status (k : table_key) (v : StrategyStatus) : M unit :=
  fun s => (Ok tt, Monitor (store k v (statuses s)) (output s)).

(** [bool(status.get("enabled"))] *)
Definition enabled_of (st : status) : bool :=
  match s_enabled st with Some b => b | None => false end.

(** [prev is None or prev.enabled != enabled or prev.connection != connection
     or prev.instrument != instrument] *)
Definition changed (prev : option StrategyStatus) (en : bool) (conn ins : text) : bool :=
  match prev with
  | None => true
  | Some p =>
      negb (Bool.eqb (enabled p) en)
      || negb (text_eqb (connection p) conn)
      || negb (text_eqb (instrument p) ins)
  end.

(** The body of the [for raw_line in tailer.lines()] loop, inside its
    [try]. *)
Definition process_line (cfg : config) (raw_line : text) : M unit :=
  match raw_line with
  | [] => ret tt
  | _ :: _ =>
      if negb (requires_any raw_line (match_strategies cfg)) then ret tt
      else
        r <~ lift (parse_with_patterns raw_line (patterns cfg)) ;;
        let '(matched, st0) := r in
        if negb matched then ret tt
        else
          st <~ lift (fill_missing_fields raw_line st0 (patterns cfg)) ;;
          if negb (truthy (s_name st)) then emit (NoNameWarning raw_line)
          else
            let nm := get_or_empty FName st in
            let ins := validate_instrument (get_or_empty FInstrument st) in
            let conn := get_or_empty FConnection st in
            let en := enabled_of st in
            let acct := get_or_empty FAccount st in
            let key := (nm, ins) in
            tbl <~ get_statuses ;;
            if changed (lookup key tbl) en conn ins then
              _ <~ put_status key (mkStrategyStatus nm ins en conn acct) ;;
              _ <~ emit (ChangeNotice nm ins en conn) ;;
              tbl' <~ get_statuses ;;
              _ <~ emit (SnapshotWrite (statuses_to_json tbl')) ;;
              emit (Publish nm ins en conn)
            else ret tt
  end.

(** One iteration with its [except Exception]: the error is printed
    and the loop goes on. *)
Definition monitor_step (cfg : config) (s : monitor) (raw_line : text) : monitor :=
  match process_line cfg raw_line s with
  | (Ok _, s') => s'
  | (Raise e, s') => Monitor (statuses s') (output s' ++ [LineError e raw_line])
  end.

(** [build_initial_statuses], given the lines of the newest log's tail. *)
Fixpoint build_initial_statuses (lines : list text) (pats : pattern_set)
    (subs : list text) (acc : table) : result table :=
  match lines with
  | [] => Ok acc
  | raw_line :: lines' =>
      match raw_line with
      | [] => build_initial_statuses lines' pats subs acc
      | _ :: _ =>
          if negb (requires_any raw_line subs) then build_initial_statuses lines' pats subs acc
          else
            r <- parse_with_patterns raw_line pats ;;
            let '(matched, st0) := r in
            if negb matched then build_initial_statuses lines' pats subs acc
            else
              st <- fill_missing_fields raw_line st0 pats ;;
              if negb (truthy (s_name st)) then build_initial_statuses lines' pats subs acc
              else
                let nm := get_or_empty FName st in
                let ins := get_or_empty FInstrument st in
                build_initial_statuses lines' pats subs
                  (store (nm, ins)
                     (mkStrategyStatus nm ins (enabled_of st)
                        (get_or_empty FConnection st) (get_or_empty FAccount st))
                     acc)
      end
  end.

(** The start-up block: backfill, merge, first snapshot; a failure is
    printed and the table stays empty. *)
Definition initial_snapshot (cfg : config) (tail : list text) : monitor :=
  match build_initial_statuses tail (patterns cfg) (match_strategies cfg) [] with
  | Ok initial =>
      let t := update [] initial in
      Monitor t [SnapshotWrite (statuses_to_json t)]
  | Raise e => Monitor [] [InitError e]
  end.

(** [run_strategy_status_monitor] on the tail read at start-up and a
    finite prefix of the lines the tailer yields afterwards. *)
Definition run_strategy_status_monitor (cfg : config) (tail live : list text) : monitor :=
  fold_left (monitor_step cfg) live (initial_snapshot cfg tail).

(** ** The loop body, seen as extraction followed by reconciliation *)

(** What one line amounts to before the table is consulted. *)
Inductive outcome : Type :=
| Skipped                          (* empty, filtered out, or not a status line *)
| Failed (e : exn)                 (* matching or completion raised *)
| Nameless                         (* matched, but no name could be found *)
| Extracted (r : StrategyStatus).  (* the record the line describes *)

Definition record_of (st : status) : StrategyStatus :=
  mkStrategyStatus (get_or_empty FName st)
    (validate_instrument (get_or_empty FInstrument st))
    (enabled_of st) (get_or_empty FConnection st) (get_or_empty FAccount st).

Definition extract (cfg : config) (raw_line : text) : outcome :=
  match raw_line with
  | [] => Skipped
  | _ :: _ =>
      if negb (requires_any raw_line (match_strategies cfg)) then Skipped
      else
        match parse_with_patterns raw_line (patterns cfg) with
        | Raise e => Failed e
        | Ok (false, _) => Skipped
        | Ok (true, st0) =>
            match fill_missing_fields raw_line st0 (patterns cfg) with
            | Raise e => Failed e
            | Ok st => if truthy (s_name st) then Extracted (record_of st) else Nameless
            end
        end
  end.

Definition key_of_record (r : StrategyStatus) : table_key := (name r, instrument r).

Definition change_events (r : StrategyStatus) (t : table) : list event :=
  [ ChangeNotice (name r) (instrument r) (enabled r) (connection r);
    SnapshotWrite (statuses_to_json t);
    Publish (name r) (instrument r) (enabled r) (connection r) ].

Definition apply_change (s : monitor) (r : StrategyStatus) : monitor :=
  let t := store (key_of_record r) r (statuses s) in
  Monitor t (output s ++ change_events r t).

(** The table-dependent rest of the loop body, with the handler's
    printout for a raised exception. *)
Definition reconcile (s : monitor) (raw_line : text) (o : outcome) : monitor :=
  match o with
  | Skipped => s
  | Failed e => Monitor (statuses s) (output s ++ [LineError e raw_line])
  | Nameless => Monitor (statuses s) (output s ++ [NoNameWarning raw_line])
  | Extracted r =>
      if changed (lookup (key_of_record r) (statuses s)) (enabled r) (connection r) (instrument r)
      then apply_change s r else s
  end.

(** The change test of the spec, in words: nothing stored under the
    key, or a stored record that differs in one of three fields. *)
Definition differs (prev : option StrategyStatus) (r : StrategyStatus) : Prop :=
  prev = None \/
  exists p, prev = Some p /\
    (enabled p <> enabled r \/ connection p <> connection r \/ instrument p <> instrument r).

Definition is_change (e : event) : bool :=
  match e with ChangeNotice _ _ _ _ => true | _ => false end.

Definition is_snapshot (e : event) : bool :=
  match e with SnapshotWrite _ => true | _ => false end.

Definition count_changes (es : list event) : nat := List.length (filter is_change es).

Definition count_snapshots (es : list event) : nat := List.length (filter is_snapshot es).

Definition patterns_compile (p : pattern_set) : Prop :=
  Forall (fun r => compiles r = true)
    (p_enabled p ++ p_disabled p
     ++ x_name (p_extractors p) ++ x_instrument (p_extractors p)
     ++ x_connection (p_extractors p) ++ x_account (p_extractors p)).

Definition default_config : config := Config [] DEFAULT_PATTERNS.

Definition empty_monitor : monitor := Monitor [] [].

(** Sample inputs. *)
Definition line_alpha : text :=
  T "Strategy 'Alpha' on MGC DEC25 enabled on connection Sim101".

Definition record_alpha : StrategyStatus :=
  mkStrategyStatus (T "alpha") [] true (T "sim101") [].

Definition record_alpha_other_account : StrategyStatus :=
  mkStrategyStatus (T "alpha") [] true (T "sim101") (T "acct-7").

Definition monitor_alpha_other_account : monitor :=
  Monitor [((T "alpha", []), record_alpha_other_account)] [].

(** The snapshot order in words: by lower-cased name, and for equal
    lower-cased names by lower-cased instrument. *)
Definition by_name_then_instrument (x y : StrategyStatus) : Prop :=
  text_cmp (lower (name x)) (lower (name y)) = Lt \/
  (lower (name x) = lower (name y) /\
   text_cmp (lower (instrument x)) (lower (instrument y)) <> Gt).

Definition status_beta : StrategyStatus :=
  mkStrategyStatus (T "Beta") (T "MNQ DEC25") true (T "Sim101") [].

Definition status_alpha : StrategyStatus :=
  mkStrategyStatus (T "alpha") (T "AAPL") false (T "Sim101") [].

Definition status_alpha_es : StrategyStatus :=
  mkStrategyStatus (T "Alpha") (T "ES 03-26") true [] [].

Definition entry (v : StrategyStatus) : table_key * StrategyStatus :=
  ((name v, instrument v), v).

(** ** Views used in the statements below *)

(** The stripped text of group [k] of a match, [''] for a group that
    took no part. *)
Definition group_text (m : match_obj) (k : string) : text :=
  strip (or_empty (option_map (fun sp => slice (m_string m) (fst sp) (snd sp))
                              (get_mark k (m_marks m)))).

(** The dict comprehension of [parse_with_patterns], once it is known
    not to raise. *)
Fixpoint collected (m : match_obj) (ks : list field) (gd : status) : status :=
  match ks with
  | [] => gd
  | k :: ks' =>
      if in_groupdict m (key_of k)
      then collected m ks' (set_field k (group_text m (key_of k)) gd)
      else collected m ks' gd
  end.

(** The status a match is turned into by the loop of the given polarity. *)
Definition status_of_match (polarity : bool) (m : match_obj) : status :=
  set_enabled polarity
    (normalize_name (collected m [FName; FInstrument; FConnection] empty_status)).

(** A line matches a pattern when [re.search] finds it in the
    lower-cased line, as [parse_with_patterns] searches. *)
Definition line_matches (pat : regex) (line : text) : Prop :=
  pattern_search true pat (lower line) <> None.

(** The patterns in the order in which [parse_with_patterns] tries
    them, each with the polarity of its list. *)
Definition declared_order (ps : pattern_set) : list (bool * regex) :=
  map (pair true) (p_enabled ps) ++ map (pair false) (p_disabled ps).

(** The first entry of an ordered pattern list that is found in [low],
    with its polarity. *)
Fixpoint first_in_order (order : list (bool * regex)) (low : text)
    : option (bool * match_obj) :=
  match order with
  | [] => None
  | (polarity, pat) :: order' =>
      match pattern_search true pat low with
      | Some m => Some (polarity, m)
      | None => first_in_order order' low
      end
  end.

Definition line_mixed : text := T "Strategy Foo disabled, previously enabled".

Definition line_strict_and_loose : text :=
  T "Strategy 'Alpha' on MGC DEC25 enabled on connection Sim101; strategy beta enabled".

(** Two lines that the strict pattern "disabling ninjascript strategy
    'NAME'" matches, and the loose "strategy NAME ... enabled" too; the
    second is also matched by the loose "strategy NAME ... disabled",
    which is declared after the strict pattern. *)
Definition line_disabling_was_enabled : text :=
  T "Disabling NinjaScript strategy 'Alpha/77' (strategy was enabled before)".

Definition line_disabling_both_loose : text :=
  T "Disabling NinjaScript strategy 'Alpha/77' (strategy was enabled, strategy x disabled)".

(** Every text field of a status is made of characters of [low]. *)
Definition drawn_from (low : text) (st : status) : Prop :=
  forall f v, get_field f st = Some v -> incl v low.

Definition is_capital (c : ascii) : bool := between 65 90 (code c).

(** Every record of the table, and everything sent out, has an empty
    instrument. *)
Definition event_instruments_empty (e : event) : Prop :=
  match e with
  | ChangeNotice _ ins _ _ => ins = []
  | Publish _ ins _ _ => ins = []
  | SnapshotWrite l => forall v, In v l -> instrument v = []
  | _ => True
  end.

Definition table_instruments_empty (t : table) : Prop :=
  forall k v, In (k, v) t -> snd k = [] /\ instrument v = [].

Definition instruments_empty (s : monitor) : Prop :=
  table_instruments_empty (statuses s) /\
  forall e, In e (output s) -> event_instruments_empty e.

(** A configuration whose second enable-pattern, [.{2,1}], does not
    compile, and two lines: the first reaches the bad pattern, the
    second is matched by the pattern before it. *)
Definition config_bad_pattern : config :=
  Config [] (Patterns [pat_ninjascript "enabling"; Rep Dot 2 (Some 1) true] []
                      (Extractors [] [] [] [])).

Definition line_plain : text := T "Connection lost".

Definition line_foo : text := T "Enabling NinjaScript strategy 'Foo/12345'".

Definition record_foo : StrategyStatus := mkStrategyStatus (T "foo") [] true [] [].

(** A table in which the strategy of [line_foo] is stored as disabled. *)
Definition record_foo_disabled : StrategyStatus := mkStrategyStatus (T "foo") [] false [] [].

Definition monitor_foo_disabled : monitor :=
  Monitor [(key_of_record record_foo_disabled, record_foo_disabled)] [].

(** The record the spec's end-to-end scenario expects for [line_alpha]. *)
Definition record_alpha_expected : StrategyStatus :=
  mkStrategyStatus (T "Alpha") (T "MGC DEC25") true (T "Sim101") [].

Definition line_slash_first : text := T "Enabling NinjaScript strategy '/12345'".

(** ** A declarative reading of the matcher *)

(** Where a match stands in the subject: the character before, the
    index, and the text ahead. *)
Record cursor : Type := Cursor {
  c_prev : option ascii;
  c_pos : nat;
  c_rest : text
}.

Definition last_char (w : text) (before : option ascii) : option ascii :=
  fold_left (fun _ x => Some x) w before.

(** The cursor after reading [w], with [rest'] ahead. *)
Definition moved (c : cursor) (w rest' : text) : cursor :=
  Cursor (last_char w (c_prev c)) (c_pos c + List.length w) rest'.

Definition fits (hi : option nat) (n : nat) : Prop :=
  match hi with
  | Some h => n <= h
  | None => True
  end.

(** [reads ic r c ms c' ms']: some way of matching [r] at [c] with
    marks [ms] ends at [c'] with marks [ms'], whatever its priority. *)
Fixpoint reads (ic : bool) (r : regex) (c : cursor) (ms : marks)
    (c' : cursor) (ms' : marks) : Prop :=
  match r with
  | Eps => c' = c /\ ms' = ms
  | Chr cs =>
      exists x rest', c_rest c = x :: rest' /\ cset_match ic cs x = true /\
                      c' = moved c [x] rest' /\ ms' = ms
  | Seq a b => exists c1 m1, reads ic a c ms c1 m1 /\ reads ic b c1 m1 c' ms'
  | Alt a b => reads ic a c ms c' ms' \/ reads ic b c ms c' ms'
  | Rep cs lo hi _ =>
      exists w rest', c_rest c = w ++ rest' /\
                      Forall (fun x => cset_match ic cs x = true) w /\
                      lo <= List.length w /\ fits hi (List.length w) /\
                      c' = moved c w rest' /\ ms' = ms
  | Opt a => reads ic a c ms c' ms' \/ (c' = c /\ ms' = ms)
  | Grp n a => exists m1, reads ic a c ms c' m1 /\ ms' = (n, (c_pos c, c_pos c')) :: m1
  | WordB => at_boundary (c_prev c) (c_rest c) = true /\ c' = c /\ ms' = ms
  | Bol => c_pos c = 0 /\ c' = c /\ ms' = ms
  | Eol => at_end (c_rest c) = true /\ c' = c /\ ms' = ms
  end.

(** What a repetition of the set [p] from bound [lo] to [hi] may hand
    to the rest [k] of the pattern: a run [w] of the right length. *)
Definition rep_reading (R : Type) (p : ascii -> bool)
    (k : option ascii -> nat -> text -> option R)
    (lo : nat) (hi : option nat) (prev : option ascii) (pos : nat) (rest : text) : Prop :=
  exists w rest',
    rest = w ++ rest' /\ Forall (fun x => p x = true) w /\
    lo <= List.length w /\ fits hi (List.length w) /\
    k (last_char w prev) (pos + List.length w) rest' <> None.

(** ** The accepted instrument shapes *)

Definition newline : ascii := ascii_of_nat 10.

Definition capitals_1_6 (s : text) : Prop :=
  Forall (fun c => is_capital c = true) s /\ 1 <= List.length s <= 6.

Definition whitespace (s : text) : Prop := Forall (fun c => is_space c = true) s.

Definition two_digits (s : text) : Prop :=
  Forall (fun c => is_digit c = true) s /\ List.length s = 2.

Definition month_abbrev (s : text) : Prop := In s (map T months).

Definition optional_newline (s : text) : Prop := s = [] \/ s = [newline].

(** SYMBOL, whitespace, month, at most one whitespace character, two digits. *)
Definition shape_mmmyy (s : text) : Prop :=
  exists sym ws mon ws' yy nl,
    s = sym ++ ws ++ mon ++ ws' ++ yy ++ nl /\
    capitals_1_6 sym /\ whitespace ws /\ ws <> [] /\ month_abbrev mon /\
    whitespace ws' /\ List.length ws' <= 1 /\ two_digits yy /\ optional_newline nl.

(** SYMBOL, whitespace, two digits, a dash, two digits. *)
Definition shape_mmyy (s : text) : Prop :=
  exists sym ws mm yy nl,
    s = sym ++ ws ++ mm ++ T "-" ++ yy ++ nl /\
    capitals_1_6 sym /\ whitespace ws /\ ws <> [] /\
    two_digits mm /\ two_digits yy /\ optional_newline nl.

(** SYMBOL alone. *)
Definition shape_symbol (s : text) : Prop :=
  exists sym nl, s = sym ++ nl /\ capitals_1_6 sym /\ optional_newline nl.

Definition accepted_shape (s : text) : Prop :=
  shape_mmmyy s \/ shape_mmyy s \/ shape_symbol s.

(** The third shape as the spec words it: "1-6 letters alone". *)
Definition is_letter (c : ascii) : bool :=
  between 65 90 (code c) || between 97 122 (code c).

Definition spec_shape_symbol (s : text) : Prop :=
  Forall (fun c => is_letter c = true) s /\ 1 <= List.length s <= 6.

(** ** Further views of the table and of the output *)

Definition keys (t : table) : list table_key := map fst t.

(** Each key occurs once and is the [(name, instrument)] of its
    record, whose name is not empty. *)
Definition table_consistent (t : table) : Prop :=
  NoDup (keys t) /\
  forall k v, In (k, v) t -> k = (name v, instrument v) /\ name v <> [].

(** The snapshot written last, if any. *)
Fixpoint last_snapshot (es : list event) : option (list StrategyStatus) :=
  match es with
  | [] => None
  | e :: es' =>
      match last_snapshot es' with
      | Some l => Some l
      | None => match e with SnapshotWrite l => Some l | _ => None end
      end
  end.

Definition is_publish (e : event) : bool :=
  match e with Publish _ _ _ _ => true | _ => false end.

Definition count_publishes (es : list event) : nat := List.length (filter is_publish es).

(** Two records that agree on everything the change test looks at,
    and on the name. *)
Definition same_state (a b : StrategyStatus) : Prop :=
  name a = name b /\ instrument a = instrument b /\
  enabled a = enabled b /\ connection a = connection b.

Definition same_entry (x y : table_key * StrategyStatus) : Prop :=
  fst x = fst y /\ same_state (snd x) (snd y).

(** The two guards at the head of the loop body: the line is not
    empty and passes the allow-list. *)
Definition passes (subs : list text) (raw_line : text) : bool :=
  match raw_line with
  | [] => false
  | _ :: _ => requires_any raw_line subs
  end.

(** [v] is a contiguous piece of [low]. *)
Definition part_of (v low : text) : Prop :=
  exists before after, low = before ++ v ++ after.

(** Neither the first nor the last character of [v] is one of those
    the sanity trims remove. *)
Definition trimmed (v : text) : Prop :=
  forall c, hd_error v = Some c \/ hd_error (rev v) = Some c ->
            mem_char trim_chars c = false.

(** Every text field a status holds satisfies [P]. *)
Definition fields_all (P : text -> Prop) (st : status) : Prop :=
  forall f v, get_field f st = Some v -> P v.

(** The pattern is a sequence one of whose parts is the literal [w]. *)
Definition spells (r : regex) (w : string) : Prop :=
  exists before after, r = seqs (before ++ lit w :: after).

From Stdlib Require Import ZArith.

(** ** Configuration values

    What [json.load] returns and [DEFAULT_CONFIG] is made of.  A dict
    is kept in insertion order; numbers are kept as written, nothing
    here computes with them. *)

#[warnings="-register-all"] Inductive json : Type :=
| JNull
| JBool (b : bool)
| JNum (literal : text)
| JStr (s : text)
| JArr (items : list json)
| JObj (fields : list (text * json)).

(** [isinstance(v, dict)] *)
Definition is_dict (v : json) : bool :=
  match v with JObj _ => true | _ => false end.

(** [d.get(k)] *)
Fixpoint dict_get (k : text) (fields : list (text * json)) : option json :=
  match fields with
  | [] => None
  | (k', v) :: rest => if text_eqb k' k then Some v else dict_get k rest
  end.

(** [d[k] = v]: an existing key keeps its place. *)
Fixpoint dict_set (k : text) (v : json) (fields : list (text * json))
    : list (text * json) :=
  match fields with
  | [] => [(k, v)]
  | (k', v') :: rest =>
      if text_eqb k' k then (k', v) :: rest else (k', v') :: dict_set k v rest
  end.

(** [d.setdefault(k, v)] *)
Definition dict_setdefault (k : text) (v : json) (fields : list (text * json))
    : list (text * json) :=
  match dict_get k fields with
  | Some _ => fields
  | None => fields ++ [(k, v)]
  end.

(** The merged value, or the [AttributeError] of calling [.get],
    [.setdefault] or [.items] on something that is not a dict. *)
Inductive merged : Type :=
| Merged (d : json)
| AttributeError.

(** [deep_merge(d, default)], the local function of [load_config]. *)
Fixpoint deep_merge (d default : json) {struct default} : merged :=
  match default with
  | JObj items =>
      (fix each (items : list (text * json)) (d : json) {struct items} : merged :=
         match items with
         | [] => Merged d
         | (k, v) :: rest =>
             match d with
             | JObj fields =>
                 if is_dict v then
                   match deep_merge
                           (match dict_get k fields with Some c => c | None => JObj [] end) v
                   with
                   | Merged c => each rest (JObj (dict_set k c fields))
                   | AttributeError => AttributeError
                   end
                 else each rest (JObj (dict_setdefault k v fields))
             | _ => AttributeError
             end
         end) items d
  | _ => AttributeError
  end.

(** The loop of [deep_merge] over the items of [default] that are
    still to come. *)
Fixpoint merge_each (items : list (text * json)) (d : json) : merged :=
  match items with
  | [] => Merged d
  | (k, v) :: rest =>
      match d with
      | JObj fields =>
          if is_dict v then
            match deep_merge
                    (match dict_get k fields with Some c => c | None => JObj [] end) v
            with
            | Merged c => merge_each rest (JObj (dict_set k c fields))
            | AttributeError => AttributeError
            end
          else merge_each rest (JObj (dict_setdefault k v fields))
      | _ => AttributeError
      end
  end.

(** The keys of every dict reached through dicts are distinct, as in
    any Python dict. *)
Fixpoint dict_wf (j : json) : Prop :=
  match j with
  | JObj fields =>
      NoDup (map fst fields) /\
      (fix all (l : list (text * json)) : Prop :=
         match l with
         | [] => True
         | kv :: l' => dict_wf (snd kv) /\ all l'
         end) fields
  | _ => True
  end.

(** ** Settings from the environment or the configuration *)

(** [s.split(sep)] for a one-character separator. *)
Fixpoint split_on (sep : ascii) (s : text) : list text :=
  match s with
  | [] => [[]]
  | c :: s' =>
      if ascii_eqb c sep then [] :: split_on sep s'
      else match split_on sep s' with
           | h :: t => (c :: h) :: t
           | [] => [[c]]
           end
  end.

(** [sep.join(parts)] *)
Fixpoint join_with (sep : ascii) (parts : list text) : text :=
  match parts with
  | [] => []
  | [p] => p
  | p :: rest => p ++ sep :: join_with sep rest
  end.

(** [path_in_cfg]: a list of keys or a dotted string. *)
Inductive cfg_path : Type :=
| PathList (keys : list text)
| PathDots (dotted : text).

Definition path_keys (p : cfg_path) : list text :=
  match p with
  | PathList keys => keys
  | PathDots dotted => split_on "." dotted
  end.

(** [for k in path: cur = cur[k]]; [None] stands for the exception
    that a missing key, or a string index into something that is not a
    dict, raises. *)
Fixpoint walk (path : list text) (cur : json) : option json :=
  match path with
  | [] => Some cur
  | k :: path' =>
      match cur with
      | JObj fields =>
          match dict_get k fields with
          | Some v => walk path' v
          | None => None
          end
      | _ => None
      end
  end.

(** [get_env_or_config(cfg, env_name, path_in_cfg, default)], with
    [os.environ.get] as [environ]. *)
Definition get_env_or_config (environ : text -> option text) (cfg : json)
    (env_name : text) (path_in_cfg : cfg_path) (default : json) : json :=
  match environ env_name with
  | Some (c :: val) => JStr (c :: val)
  | _ =>
      match walk (path_keys path_in_cfg) cfg with
      | Some JNull => default
      | Some (JStr []) => default
      | Some cur => cur
      | None => default
      end
  end.

(** ** The publisher *)

(** The settings of [SupabaseStrategyPublisher] once [__init__] has
    looked them up, for settings that are strings. *)
Record publisher : Type := Publisher {
  pub_url : text;
  pub_service_key : text;
  pub_table : text
}.

(** [self.url.rstrip("/")] *)
Definition rstrip_by (p : ascii -> bool) (s : text) : text := rev (lstrip p (rev s)).

(** [_build_table_endpoint] *)
Definition build_table_endpoint (p : publisher) (table_name : text) : text :=
  rstrip_by (mem_char (T "/")) (pub_url p)
  ++ T "/rest/v1/" ++ table_name ++ T "?on_conflict=strategy_name,instrument".

(** [is_configured] *)
Definition is_configured (p : publisher) : bool :=
  match pub_url p, pub_service_key p with
  | _ :: _, _ :: _ => true
  | _, _ => false
  end.

(** The payload of [upsert_status] without its time stamp. *)
Record payload : Type := Payload {
  pl_strategy_name : text;
  pl_instrument : text;
  pl_enabled : bool;
  pl_connection : text
}.

(** [x if x else "EMPTY"] *)
Definition or_sentinel (x : text) : text :=
  match x with [] => T "EMPTY" | _ :: _ => x end.

(** [upsert_status]: the request it posts, if any, as endpoint and
    payload. *)
Definition upsert_status (p : publisher) (strategy_name instrument : text)
    (enabled : bool) (connection : text) : option (text * payload) :=
  if negb (is_configured p) then None
  else Some (build_table_endpoint p (pub_table p),
             Payload strategy_name (or_sentinel instrument) enabled (or_sentinel connection)).

(** What the events of a run make the publisher post. *)
Fixpoint published (p : publisher) (es : list event) : list (text * payload) :=
  match es with
  | [] => []
  | Publish nm ins en conn :: es' =>
      match upsert_status p nm ins en conn with
      | Some rq => rq :: published p es'
      | None => published p es'
      end
  | _ :: es' => published p es'
  end.

(** ** The newest log file *)

(** A directory entry that a glob returned, with its [st_mtime]. *)
Record log_file : Type := LogFile {
  lf_path : text;
  lf_mtime : Z
}.

(** [sorted(cands, key=lambda p: p.stat().st_mtime, reverse=True)]:
    stable, so files of equal time keep their order. *)
Fixpoint insert_newer (x : log_file) (l : list log_file) : list log_file :=
  match l with
  | [] => [x]
  | y :: l' => if (lf_mtime y <=? lf_mtime x)%Z then x :: l else y :: insert_newer x l'
  end.

Fixpoint newest_first (l : list log_file) : list log_file :=
  match l with
  | [] => []
  | x :: l' => insert_newer x (newest_first l')
  end.

(** [newest_log_file], given what the two globs return. *)
Definition newest_log_file (txt_logs all_logs : list log_file) : option log_file :=
  match newest_first txt_logs with
  | c :: _ => Some c
  | [] =>
      match newest_first all_logs with
      | c :: _ => Some c
      | [] => None
      end
  end.

(** Part of [DEFAULT_CONFIG], in its shape. *)
Definition defaults_excerpt : json :=
  JObj [ (T "supabase",
          JObj [ (T "service_role_key", JStr []);
                 (T "strategy_status_table", JStr (T "strategy_status")) ]);
         (T "strategy_status_watch",
          JObj [ (T "poll_interval_sec", JNum (T "1.0"));
                 (T "cooldown_min", JNum (T "1"));
                 (T "match_strategies", JArr []);
                 (T "email_on_change", JBool false) ]) ].

(** A configuration file that sets two things. *)
Definition config_file_sample : json :=
  JObj [ (T "strategy_status_watch",
          JObj [ (T "match_strategies", JArr [JStr (T "Alpha")]);
                 (T "note", JNull) ]) ].

(** [d.get(k, {})] *)
Definition dict_get_or_empty (k : text) (fields : list (text * json)) : json :=
  match dict_get k fields with Some c => c | None => JObj [] end.

(** What merging [defaults_excerpt] into [config_file_sample] gives. *)
Definition merged_sample : json :=
  JObj [ (T "strategy_status_watch",
          JObj [ (T "match_strategies", JArr [JStr (T "Alpha")]);
                 (T "note", JNull);
                 (T "poll_interval_sec", JNum (T "1.0"));
                 (T "cooldown_min", JNum (T "1"));
                 (T "email_on_change", JBool false) ]);
         (T "supabase",
          JObj [ (T "service_role_key", JStr []);
                 (T "strategy_status_table", JStr (T "strategy_status")) ]) ].

Definition fields_of (j : json) : list (text * json) :=
  match j with JObj fields => fields | _ => [] end.

(** * Properties *)

Unset Implicit Arguments.

(** ** Text *)

Lemma ascii_eqb_eq (a b : ascii) : ascii_eqb a b = true <-> a = b.
Proof. unfold ascii_eqb. apply Ascii.eqb_eq. Qed.

Lemma text_eqb_eq (a b : text) : text_eqb a b = true <-> a = b.
Proof.
  revert b; induction a as [|x a IH]; intros [|y b]; simpl; split; intro H;
    try reflexivity; try discriminate.
  - apply andb_true_iff in H as [Hx Ha].
    apply ascii_eqb_eq in Hx. apply IH in Ha. congruence.
  - inversion H; subst. apply andb_true_iff. split.
    + now apply ascii_eqb_eq.
    + now apply IH.
Qed.

Lemma text_eqb_refl (a : text) : text_eqb a a = true.
Proof. now apply text_eqb_eq. Qed.

Lemma text_eqb_neq (a b : text) : text_eqb a b = false <-> a <> b.
Proof.
  split.
  - intros H E. apply text_eqb_eq in E. congruence.
  - intro H. destruct (text_eqb a b) eqn:E; [|reflexivity].
    apply text_eqb_eq in E. contradiction.
Qed.

Lemma key_eqb_eq (a b : table_key) : key_eqb a b = true <-> a = b.
Proof.
  destruct a as [a1 a2], b as [b1 b2]. unfold key_eqb; simpl.
  rewrite andb_true_iff, !text_eqb_eq. split.
  - intros [-> ->]. reflexivity.
  - intro H. inversion H. auto.
Qed.

Lemma key_eqb_refl (a : table_key) : key_eqb a a = true.
Proof. now apply key_eqb_eq. Qed.

(** ** The table *)

Lemma lookup_store_same (k : table_key) (v : StrategyStatus) (t : table) :
  lookup k (store k v t) = Some v.
Proof.
  induction t as [|[k' v'] t IH]; simpl.
  - now rewrite key_eqb_refl.
  - destruct (key_eqb k' k) eqn:E; simpl.
    + now rewrite key_eqb_refl.
    + now rewrite E.
Qed.

Lemma store_In (k : table_key) (v : StrategyStatus) (t : table) (kv : table_key * StrategyStatus) :
  In kv (store k v t) -> kv = (k, v) \/ In kv t.
Proof.
  induction t as [|[k' v'] t IH]; simpl.
  - intros [H|[]]. now left.
  - destruct (key_eqb k' k); simpl.
    + intros [H|H]; auto.
    + intros [H|H]; auto. destruct (IH H); auto.
Qed.

Lemma key_eqb_neq (a b : table_key) : key_eqb a b = false <-> a <> b.
Proof.
  split.
  - intros H E. apply key_eqb_eq in E. congruence.
  - intro H. destruct (key_eqb a b) eqn:E; [|reflexivity].
    apply key_eqb_eq in E. contradiction.
Qed.

Lemma lookup_store_other (k k' : table_key) (v : StrategyStatus) (t : table) :
  k' <> k -> lookup k' (store k v t) = lookup k' t.
Proof.
  intro Hk. induction t as [|[k0 v0] t IH]; simpl.
  - destruct (key_eqb k k') eqn:E; [|reflexivity].
    apply key_eqb_eq in E. congruence.
  - destruct (key_eqb k0 k) eqn:E; simpl.
    + apply key_eqb_eq in E. subst k0.
      destruct (key_eqb k k') eqn:E'; [|reflexivity].
      apply key_eqb_eq in E'. congruence.
    + now rewrite IH.
Qed.

Lemma store_length (k : table_key) (v : StrategyStatus) (t : table) :
  List.length (store k v t) =
  if is_some (lookup k t) then List.length t else S (List.length t).
Proof.
  induction t as [|[k0 v0] t IH]; simpl; [reflexivity|].
  destruct (key_eqb k0 k); simpl; [reflexivity|].
  rewrite IH. now destruct (lookup k t).
Qed.

Lemma store_In_same (k : table_key) (v : StrategyStatus) (t : table) :
  In (k, v) (store k v t).
Proof.
  induction t as [|[k' v'] t IH]; simpl; [now left|].
  destruct (key_eqb k' k); simpl; [now left|now right].
Qed.

(** ** The loop body *)

(** The loop body with its handler is extraction followed by
    reconciliation: nothing before the table lookup depends on the
    table. *)
Lemma monitor_step_extract (cfg : config) (s : monitor) (raw_line : text) :
  monitor_step cfg s raw_line = reconcile s raw_line (extract cfg raw_line).
Proof.
  unfold monitor_step, process_line, extract.
  destruct raw_line as [|c l]; [reflexivity|].
  destruct (negb (requires_any (c :: l) (match_strategies cfg))); [reflexivity|].
  unfold mbind at 1, lift at 1.
  destruct (parse_with_patterns (c :: l) (patterns cfg)) as [[matched st0]|e]; [|reflexivity].
  destruct matched; simpl; [|reflexivity].
  unfold mbind at 1, lift at 1.
  destruct (fill_missing_fields (c :: l) st0 (patterns cfg)) as [st|e]; [|reflexivity].
  destruct (truthy (s_name st)); simpl; [|reflexivity].
  unfold mbind at 1, get_statuses at 1.
  unfold record_of, key_of_record; simpl.
  destruct (changed _ _ _ _); [|reflexivity].
  unfold apply_change, change_events, key_of_record; simpl.
  now rewrite <- !app_assoc.
Qed.

Lemma changed_true_iff (prev : option StrategyStatus) (r : StrategyStatus) :
  changed prev (enabled r) (connection r) (instrument r) = true <-> differs prev r.
Proof.
  unfold changed, differs. destruct prev as [p|].
  - rewrite !orb_true_iff, !negb_true_iff, !text_eqb_neq. split.
    + intros H. right. exists p. split; [reflexivity|].
      destruct H as [[H|H]|H]; auto.
      left. intro E. rewrite E in H. now rewrite Bool.eqb_reflx in H.
    + intros [H|(q & E & H)]; [discriminate|]. inversion E; subst q.
      destruct H as [H|[H|H]]; auto.
      left; left. destruct (Bool.eqb (enabled p) (enabled r)) eqn:Eb; [|reflexivity].
      apply Bool.eqb_prop in Eb. contradiction.
  - split; auto.
Qed.

Lemma apply_change_neq (s : monitor) (r : StrategyStatus) : apply_change s r <> s.
Proof.
  unfold apply_change. intro H. apply (f_equal output) in H. simpl in H.
  apply (f_equal (@List.length event)) in H. rewrite length_app in H. simpl in H. lia.
Qed.

(** A record is only extracted with a name. *)
Lemma extracted_name_nonempty (cfg : config) (raw_line : text) (r : StrategyStatus) :
  extract cfg raw_line = Extracted r -> name r <> [].
Proof.
  unfold extract. intro Hx.
  destruct raw_line; [discriminate|].
  destruct (negb _); [discriminate|].
  destruct (parse_with_patterns _ _) as [[[|] st0]|]; try discriminate.
  destruct (fill_missing_fields _ _ _) as [st|]; try discriminate.
  destruct (truthy (s_name st)) eqn:Et; [|discriminate].
  inversion Hx; subst r; simpl. unfold get_or_empty; simpl.
  destruct (s_name st) as [[|]|]; simpl in *; congruence.
Qed.

(** C3. For a line from which a record [r] with a non-empty name is
    extracted, the update takes place exactly when nothing is stored
    under [(name, instrument)] or the stored record differs from [r] in
    [enabled], [connection] or [instrument].  The update replaces the
    record: afterwards the key holds [r], every other key holds what it
    held, the table has grown by one record exactly when the key was
    new, and the output has grown by the change notice, the snapshot
    write of the new table and the publish call, in this order.  A
    stored record that differs from [r] in [account] alone leaves table
    and output as they were. *)
Theorem change_test_decides_update (cfg : config) (s : monitor) (raw_line : text)
    (r : StrategyStatus) :
  extract cfg raw_line = Extracted r ->
  let prev := lookup (key_of_record r) (statuses s) in
  let s' := monitor_step cfg s raw_line in
  name r <> [] /\
  (differs prev r ->
   s' = apply_change s r /\
   lookup (key_of_record r) (statuses s') = Some r /\
   In (key_of_record r, r) (statuses s') /\
   (forall k, k <> key_of_record r -> lookup k (statuses s') = lookup k (statuses s)) /\
   List.length (statuses s') =
     match prev with
     | None => S (List.length (statuses s))
     | Some _ => List.length (statuses s)
     end /\
   output s' =
     output s ++ [ ChangeNotice (name r) (instrument r) (enabled r) (connection r);
                   SnapshotWrite (statuses_to_json (statuses s'));
                   Publish (name r) (instrument r) (enabled r) (connection r) ]) /\
  (~ differs prev r -> s' = s) /\
  (s' <> s <-> differs prev r) /\
  (forall p, prev = Some p -> account p <> account r ->
     enabled p = enabled r -> connection p = connection r -> instrument p = instrument r ->
     s' = s).
Proof.
  intros Hx prev s'.
  assert (Hstep : s' = if changed prev (enabled r) (connection r) (instrument r)
                       then apply_change s r else s).
  { unfold s'. rewrite monitor_step_extract, Hx. reflexivity. }
  assert (Hdec : forall b, changed prev (enabled r) (connection r) (instrument r) = b ->
                 (b = true <-> differs prev r)).
  { intros b <-. apply changed_true_iff. }
  assert (Hupd : s' = apply_change s r ->
     s' = apply_change s r /\
     lookup (key_of_record r) (statuses s') = Some r /\
     In (key_of_record r, r) (statuses s') /\
     (forall k, k <> key_of_record r -> lookup k (statuses s') = lookup k (statuses s)) /\
     List.length (statuses s') =
       match prev with
       | None => S (List.length (statuses s))
       | Some _ => List.length (statuses s)
       end /\
     output s' =
       output s ++ [ ChangeNotice (name r) (instrument r) (enabled r) (connection r);
                     SnapshotWrite (statuses_to_json (statuses s'));
                     Publish (name r) (instrument r) (enabled r) (connection r) ]).
  { intro E. split; [exact E|]. rewrite E. unfold apply_change; cbn [statuses output].
    split; [apply lookup_store_same|]. split; [apply store_In_same|].
    split; [intros k Hk; now apply lookup_store_other|].
    split; [|reflexivity].
    rewrite store_length. fold prev. now destruct prev. }
  split; [exact (extracted_name_nonempty _ _ _ Hx)|].
  destruct (changed prev (enabled r) (connection r) (instrument r)) eqn:Ec;
    specialize (Hdec _ eq_refl).
  - assert (Hd : differs prev r) by now apply Hdec.
    split; [|split; [|split; [split|]]].
    + intros _. exact (Hupd Hstep).
    + intros Hn. contradiction.
    + intros _. exact Hd.
    + intros _. rewrite Hstep. apply apply_change_neq.
    + intros p Hp _ He Hc Hi. exfalso.
      destruct Hd as [Hd|(q & Hq & Hd)]; [congruence|].
      assert (q = p) by congruence. subst q.
      destruct Hd as [Hd|[Hd|Hd]]; contradiction.
  - assert (Hnd : ~ differs prev r).
    { intro Hd. apply Hdec in Hd. discriminate. }
    split; [|split; [|split; [split|]]].
    + intros Hd. contradiction.
    + intros _. exact Hstep.
    + intros Hne. contradiction.
    + intros Hd. contradiction.
    + intros. exact Hstep.
Qed.

Lemma change_test_decides_update_witness :
  extract default_config line_alpha = Extracted record_alpha /\
  (lookup (key_of_record record_alpha)
     (statuses (monitor_step default_config empty_monitor line_alpha)) = Some record_alpha /\
   List.length (statuses (monitor_step default_config empty_monitor line_alpha)) = 1) /\
  (lookup (key_of_record record_foo)
     (statuses (monitor_step default_config monitor_foo_disabled line_foo)) = Some record_foo /\
   List.length (statuses (monitor_step default_config monitor_foo_disabled line_foo)) = 1) /\
  monitor_step default_config monitor_alpha_other_account line_alpha
  = monitor_alpha_other_account.
Proof.
  assert (Hx : extract default_config line_alpha = Extracted record_alpha)
    by (vm_compute; reflexivity).
  assert (Hf : extract default_config line_foo = Extracted record_foo)
    by (vm_compute; reflexivity).
  split; [exact Hx|]. split; [|split].
  - destruct (change_test_decides_update default_config empty_monitor
                line_alpha record_alpha Hx) as (_ & Hupd & _).
    destruct (Hupd (or_introl eq_refl)) as (_ & Hl & _ & _ & Hn & _).
    split; [exact Hl|exact Hn].
  - destruct (change_test_decides_update default_config monitor_foo_disabled
                line_foo record_foo Hf) as (_ & Hupd & _).
    assert (Hd : differs (lookup (key_of_record record_foo) (statuses monitor_foo_disabled))
                   record_foo).
    { right. exists record_foo_disabled. split; [reflexivity|]. left. discriminate. }
    destruct (Hupd Hd) as (_ & Hl & _ & _ & Hn & _).
    split; [exact Hl|exact Hn].
  - destruct (change_test_decides_update default_config monitor_alpha_other_account
                line_alpha record_alpha Hx) as (_ & _ & _ & _ & Hacct).
    apply (Hacct record_alpha_other_account); try reflexivity.
    discriminate.
Defined.

(** ** Processing a line twice *)

Lemma changed_after_store (s : monitor) (r : StrategyStatus) :
  changed (lookup (key_of_record r) (statuses (apply_change s r)))
    (enabled r) (connection r) (instrument r) = false.
Proof.
  unfold apply_change; simpl. rewrite lookup_store_same. simpl.
  now rewrite Bool.eqb_reflx, !text_eqb_refl.
Qed.

(** C4, as amended.  Processing one line twice in succession emits at
    most one change notice and one snapshot write: the second pass
    leaves the table as the first left it and emits neither, and the
    first emits one of each exactly when it extracts a record that
    passes the change test (none for a line that is skipped or that is
    already reflected in the table). *)
Theorem reprocessing_emits_nothing (cfg : config) (s : monitor) (raw_line : text) :
  let s1 := monitor_step cfg s raw_line in
  let s2 := monitor_step cfg s1 raw_line in
  statuses s2 = statuses s1 /\
  count_changes (output s2) = count_changes (output s1) /\
  count_snapshots (output s2) = count_snapshots (output s1) /\
  count_changes (output s1) <= count_changes (output s) + 1 /\
  count_snapshots (output s1) <= count_snapshots (output s) + 1 /\
  (count_changes (output s2) = count_changes (output s) + 1 <->
   exists r, extract cfg raw_line = Extracted r /\
             differs (lookup (key_of_record r) (statuses s)) r) /\
  (count_snapshots (output s2) = count_snapshots (output s) + 1 <->
   exists r, extract cfg raw_line = Extracted r /\
             differs (lookup (key_of_record r) (statuses s)) r).
Proof.
  cbv zeta. rewrite !monitor_step_extract.
  destruct (extract cfg raw_line) as [|e| |r] eqn:Hx; simpl.
  - repeat split; try lia; try (intros; lia); try (intros (r & Hr & _); discriminate).
  - unfold count_changes, count_snapshots; rewrite !filter_app, !length_app; simpl.
    repeat split; try lia; try (intros; lia); try (intros (r & Hr & _); discriminate).
  - unfold count_changes, count_snapshots; rewrite !filter_app, !length_app; simpl.
    repeat split; try lia; try (intros; lia); try (intros (r & Hr & _); discriminate).
  - destruct (changed (lookup (key_of_record r) (statuses s)) _ _ _) eqn:Ec.
    + rewrite changed_after_store.
      unfold apply_change; simpl.
      unfold count_changes, count_snapshots; rewrite !filter_app, !length_app; simpl.
      apply changed_true_iff in Ec.
      repeat split; try lia; try (intros _; exists r; split; [reflexivity|exact Ec]).
    + rewrite Ec.
      assert (Hnd : ~ differs (lookup (key_of_record r) (statuses s)) r).
      { intro Hd. apply changed_true_iff in Hd. congruence. }
      repeat split; try lia; try (intros; lia);
        intros (r' & Hr & Hd); inversion Hr; subst r'; contradiction.
Qed.

(** C4, as stated, fails: on a table that already reflects the line,
    two further passes over it emit no change notice and no snapshot
    write. *)
Lemma reprocessing_known_line_emits_none :
  let s := monitor_step default_config empty_monitor line_alpha in
  let s2 := monitor_step default_config (monitor_step default_config s line_alpha) line_alpha in
  count_changes (output s2) - count_changes (output s) = 0 /\
  count_snapshots (output s2) - count_snapshots (output s) = 0 /\
  count_changes (output s2) - count_changes (output s) <> 1.
Proof. vm_compute. repeat split. discriminate. Qed.

(** ** Snapshot order *)

Lemma code_inj (x y : ascii) : code x = code y -> x = y.
Proof.
  unfold code. intro H.
  rewrite <- (ascii_nat_embedding x), <- (ascii_nat_embedding y). now rewrite H.
Qed.

Lemma text_cmp_refl (a : text) : text_cmp a a = Eq.
Proof. induction a as [|x a IH]; simpl; [reflexivity|]. now rewrite Nat.compare_refl. Qed.

Lemma text_cmp_eq (a b : text) : text_cmp a b = Eq -> a = b.
Proof.
  revert b; induction a as [|x a IH]; intros [|y b]; simpl; try discriminate; auto.
  destruct (Nat.compare (code x) (code y)) eqn:E; try discriminate.
  intro H. apply Nat.compare_eq in E. apply code_inj in E. apply IH in H. congruence.
Qed.

Lemma text_cmp_antisym (a b : text) : text_cmp b a = CompOpp (text_cmp a b).
Proof.
  revert b; induction a as [|x a IH]; intros [|y b]; simpl; auto.
  rewrite (Nat.compare_antisym (code x) (code y)).
  destruct (Nat.compare (code x) (code y)); simpl; auto.
Qed.

Lemma text_cmp_lt_trans (a b c : text) :
  text_cmp a b = Lt -> text_cmp b c = Lt -> text_cmp a c = Lt.
Proof.
  revert b c; induction a as [|x a IH]; intros [|y b] [|z c]; simpl;
    try discriminate; auto.
  destruct (Nat.compare (code x) (code y)) eqn:Exy; try discriminate;
  destruct (Nat.compare (code y) (code z)) eqn:Eyz; try discriminate; intros H1 H2.
  - apply Nat.compare_eq in Exy, Eyz. rewrite Exy, Eyz, Nat.compare_refl. eauto.
  - apply Nat.compare_eq in Exy. now rewrite Exy, Eyz.
  - apply Nat.compare_eq in Eyz. now rewrite <- Eyz, Exy.
  - apply Nat.compare_lt_iff in Exy, Eyz.
    assert (E : Nat.compare (code x) (code z) = Lt) by (apply Nat.compare_lt_iff; lia).
    now rewrite E.
Qed.

Lemma text_cmp_le_trans (a b c : text) :
  text_cmp a b <> Gt -> text_cmp b c <> Gt -> text_cmp a c <> Gt.
Proof.
  intros H1 H2.
  destruct (text_cmp a b) eqn:E1; [| |contradiction].
  - apply text_cmp_eq in E1. now subst b.
  - destruct (text_cmp b c) eqn:E2; [| |contradiction].
    + apply text_cmp_eq in E2. subst c. now rewrite E1.
    + now rewrite (text_cmp_lt_trans _ _ _ E1 E2).
Qed.

Lemma key_le_iff (x y : StrategyStatus) :
  key_le (sort_key x) (sort_key y) = true <-> by_name_then_instrument x y.
Proof.
  unfold key_le, key_cmp, sort_key, by_name_then_instrument; simpl.
  destruct (text_cmp (lower (name x)) (lower (name y))) eqn:E1.
  - apply text_cmp_eq in E1. split.
    + intro H. right. split; [exact E1|]. intro G. now rewrite G in H.
    + intros [H|[_ H]]; [discriminate|].
      destruct (text_cmp (lower (instrument x)) (lower (instrument y))); congruence.
  - split; auto.
  - split; [discriminate|]. intros [H|[H _]]; [discriminate|].
    rewrite H, text_cmp_refl in E1. discriminate.
Qed.

Lemma by_name_then_instrument_total (x y : StrategyStatus) :
  key_le (sort_key x) (sort_key y) = false -> by_name_then_instrument y x.
Proof.
  intro H. apply key_le_iff. revert H.
  unfold key_le, key_cmp, sort_key; simpl.
  rewrite (text_cmp_antisym (lower (name x)) (lower (name y))).
  rewrite (text_cmp_antisym (lower (instrument x)) (lower (instrument y))).
  destruct (text_cmp (lower (name x)) (lower (name y))); simpl; try discriminate; auto.
  destruct (text_cmp (lower (instrument x)) (lower (instrument y))); simpl;
    try discriminate; auto.
Qed.

Lemma by_name_then_instrument_trans (x y z : StrategyStatus) :
  by_name_then_instrument x y -> by_name_then_instrument y z ->
  by_name_then_instrument x z.
Proof.
  unfold by_name_then_instrument.
  intros [H1|[E1 H1]] [H2|[E2 H2]].
  - left. eapply text_cmp_lt_trans; eauto.
  - left. now rewrite <- E2.
  - left. now rewrite E1.
  - right. split; [congruence|]. eapply text_cmp_le_trans; eauto.
Qed.

Lemma insert_sorted_perm (x : StrategyStatus) (l : list StrategyStatus) :
  Permutation (insert_sorted x l) (x :: l).
Proof.
  induction l as [|y l IH]; simpl; [reflexivity|].
  destruct (key_le (sort_key x) (sort_key y)); [reflexivity|].
  rewrite IH. apply perm_swap.
Qed.

Lemma sorted_perm (l : list StrategyStatus) : Permutation (sorted l) l.
Proof.
  induction l as [|x l IH]; simpl; [reflexivity|].
  rewrite insert_sorted_perm. now constructor.
Qed.

Lemma insert_sorted_ordered (x : StrategyStatus) (l : list StrategyStatus) :
  StronglySorted by_name_then_instrument l ->
  StronglySorted by_name_then_instrument (insert_sorted x l).
Proof.
  induction 1 as [|y l Hl IH Hy]; simpl.
  - repeat constructor.
  - destruct (key_le (sort_key x) (sort_key y)) eqn:E.
    + apply key_le_iff in E. constructor.
      * now constructor.
      * constructor; [exact E|].
        eapply Forall_impl; [|exact Hy].
        intros z Hz. eapply by_name_then_instrument_trans; eauto.
    + apply by_name_then_instrument_total in E. constructor; [exact IH|].
      eapply Permutation_Forall.
      * symmetry. apply insert_sorted_perm.
      * now constructor.
Qed.

Lemma sorted_ordered (l : list StrategyStatus) :
  StronglySorted by_name_then_instrument (sorted l).
Proof.
  induction l as [|x l IH]; simpl; [constructor|]. now apply insert_sorted_ordered.
Qed.

(** C9. The snapshot lists exactly the table's records, ordered by
    lower-cased name and, for equal lower-cased names, by lower-cased
    instrument; a table holding ("Beta", "MNQ DEC25") and
    ("alpha", "AAPL") is written alpha first, whichever was stored
    first, and two records named alike come in the order of their
    instruments. *)
Theorem snapshot_sorted_by_name_then_instrument :
  (forall t : table,
     Permutation (statuses_to_json t) (map snd t) /\
     StronglySorted by_name_then_instrument (statuses_to_json t)) /\
  statuses_to_json [entry status_beta; entry status_alpha] = [status_alpha; status_beta] /\
  statuses_to_json [entry status_alpha; entry status_beta] = [status_alpha; status_beta] /\
  statuses_to_json [entry status_beta; entry status_alpha_es; entry status_alpha]
  = [status_alpha; status_alpha_es; status_beta].
Proof.
  split; [|repeat split; vm_compute; reflexivity].
  intro t. unfold statuses_to_json. split.
  - apply sorted_perm.
  - apply sorted_ordered.
Qed.

(** ** The matcher's interface *)

Lemma re_search_ok (pat : regex) (s : text) (ic : bool) :
  compiles pat = true -> re_search pat s ic = Ok (pattern_search ic pat s).
Proof. intro H. unfold re_search, re_compile. now rewrite H. Qed.

Lemma re_search_inv (pat : regex) (s : text) (ic : bool) (r : option match_obj) :
  re_search pat s ic = Ok r -> r = pattern_search ic pat s.
Proof.
  unfold re_search, re_compile. destruct (compiles pat); simpl; congruence.
Qed.

Lemma pattern_search_string (ic : bool) (pat : regex) (s : text) (m : match_obj) :
  pattern_search ic pat s = Some m -> m_string m = s /\ m_names m = group_names pat.
Proof.
  unfold pattern_search. destruct (scan ic pat None 0 s) as [[[a b] ms]|]; simpl;
    [|discriminate].
  intro H. inversion H. auto.
Qed.

Lemma m_group_text (m : match_obj) (k : string) :
  in_groupdict m k = true ->
  exists g, m_group m k = Ok g /\ strip (or_empty g) = group_text m k.
Proof.
  unfold in_groupdict, m_group, group_text. intros ->. eauto.
Qed.

(** The guard [k in m.groupdict()] keeps [m.group(k)] from raising. *)
Lemma collect_groups_ok (m : match_obj) (ks : list field) (gd : status) :
  collect_groups m ks gd = Ok (collected m ks gd).
Proof.
  revert gd; induction ks as [|k ks IH]; intro gd; simpl; [reflexivity|].
  destruct (in_groupdict m (key_of k)) eqn:E; [|apply IH].
  destruct (m_group_text m (key_of k) E) as (g & -> & Hg). simpl.
  rewrite Hg. apply IH.
Qed.

Lemma try_patterns_cons (polarity : bool) (pat : regex) (pats : list regex) (low : text) :
  compiles pat = true ->
  try_patterns polarity (pat :: pats) low =
  match pattern_search true pat low with
  | Some m => Ok (Some (status_of_match polarity m))
  | None => try_patterns polarity pats low
  end.
Proof.
  intro H. cbn [try_patterns]. rewrite (re_search_ok _ _ _ H). cbn [bind].
  destruct (pattern_search true pat low) as [m|]; [|reflexivity].
  now rewrite collect_groups_ok.
Qed.

Lemma first_in_order_app (a b : list (bool * regex)) (low : text) :
  first_in_order (a ++ b) low =
  match first_in_order a low with
  | Some x => Some x
  | None => first_in_order b low
  end.
Proof.
  induction a as [|[pol pat] a IH]; simpl; [reflexivity|].
  destruct (pattern_search true pat low); [reflexivity|exact IH].
Qed.

Lemma first_in_order_none (order : list (bool * regex)) (low : text) :
  first_in_order order low = None <->
  forall pol pat, In (pol, pat) order -> pattern_search true pat low = None.
Proof.
  induction order as [|[pol pat] order IH]; simpl.
  - split; [intros _ ? ? []|reflexivity].
  - destruct (pattern_search true pat low) as [m|] eqn:E; split.
    + discriminate.
    + intro H. specialize (H pol pat (or_introl eq_refl)). congruence.
    + intros H p q [Hq|Hq]; [inversion Hq; subst; exact E|]. now apply IH in Hq.
    + intro H. apply IH. intros p q Hq. apply (H p q). now right.
Qed.

(** [first_in_order] returns the earliest match and nothing else. *)
Lemma first_in_order_some (order : list (bool * regex)) (low : text)
    (pol : bool) (m : match_obj) :
  first_in_order order low = Some (pol, m) <->
  exists i pat,
    nth_error order i = Some (pol, pat) /\ pattern_search true pat low = Some m /\
    forall j pol' q, j < i -> nth_error order j = Some (pol', q) ->
                     pattern_search true q low = None.
Proof.
  induction order as [|[p0 q0] order IH]; simpl.
  - split; [discriminate|]. intros ([|i] & pat & H & _); discriminate.
  - destruct (pattern_search true q0 low) as [m0|] eqn:E; split.
    + intro H. inversion H; subst. exists 0, q0. repeat split; auto.
      intros j ? ? Hj. lia.
    + intros ([|i] & pat & Hi & Hm & Hn); simpl in Hi.
      * inversion Hi; subst. congruence.
      * specialize (Hn 0 p0 q0 (Nat.lt_0_succ i) eq_refl). congruence.
    + intro H. apply IH in H as (i & pat & Hi & Hm & Hn).
      exists (S i), pat. repeat split; auto.
      intros [|j] p q Hj Hq; simpl in Hq.
      * inversion Hq; subst. exact E.
      * apply (Hn j p q); [lia|exact Hq].
    + intros ([|i] & pat & Hi & Hm & Hn); simpl in Hi.
      * inversion Hi; subst. congruence.
      * apply IH. exists i, pat. repeat split; auto.
        intros j p q Hj Hq. apply (Hn (S j) p q); [lia|exact Hq].
Qed.

Lemma try_patterns_as_first (polarity : bool) (pats : list regex) (low : text) :
  Forall (fun r => compiles r = true) pats ->
  try_patterns polarity pats low =
  Ok (option_map (fun pm => status_of_match (fst pm) (snd pm))
        (first_in_order (map (pair polarity) pats) low)).
Proof.
  induction 1 as [|pat pats Hp _ IH]; [reflexivity|].
  rewrite (try_patterns_cons _ _ _ _ Hp). simpl.
  destruct (pattern_search true pat low); [reflexivity|exact IH].
Qed.

Lemma patterns_compile_split (ps : pattern_set) :
  patterns_compile ps ->
  Forall (fun r => compiles r = true) (p_enabled ps) /\
  Forall (fun r => compiles r = true) (p_disabled ps) /\
  forall f, Forall (fun r => compiles r = true) (extractors_get (p_extractors ps) f).
Proof.
  unfold patterns_compile. rewrite !Forall_app.
  intros (H1 & H2 & H3 & H4 & H5 & H6). repeat split; auto.
  intros []; assumption.
Qed.

Lemma default_patterns_compile : patterns_compile DEFAULT_PATTERNS.
Proof.
  unfold patterns_compile. simpl. repeat constructor.
Qed.

(** [parse_with_patterns] in one piece: the first match in declared
    order, or no match. *)
Lemma parse_as_first (line : text) (ps : pattern_set) :
  patterns_compile ps ->
  parse_with_patterns line ps =
  match first_in_order (declared_order ps) (lower line) with
  | Some (pol, m) => Ok (true, status_of_match pol m)
  | None => Ok (false, empty_status)
  end.
Proof.
  intro Hc. apply patterns_compile_split in Hc as (He & Hd & _).
  unfold parse_with_patterns, declared_order.
  rewrite first_in_order_app, (try_patterns_as_first _ _ _ He). simpl.
  destruct (first_in_order (map (pair true) (p_enabled ps)) (lower line)) as [[pol m]|];
    [reflexivity|].
  rewrite (try_patterns_as_first _ _ _ Hd). simpl.
  destruct (first_in_order (map (pair false) (p_disabled ps)) (lower line)) as [[pol m]|];
    reflexivity.
Qed.

(** ** The pattern tables are the source's pattern text *)

(** Reading the source's pattern text gives the tables, up to the
    grouping of concatenations. *)
Lemma default_patterns_read_from_source :
  read_all enabled_source = flat_all (p_enabled DEFAULT_PATTERNS) /\
  read_all disabled_source = flat_all (p_disabled DEFAULT_PATTERNS) /\
  read_all name_extractors_source = flat_all (x_name (p_extractors DEFAULT_PATTERNS)) /\
  read_all instrument_extractors_source
  = flat_all (x_instrument (p_extractors DEFAULT_PATTERNS)) /\
  read_all connection_extractors_source
  = flat_all (x_connection (p_extractors DEFAULT_PATTERNS)) /\
  read_all account_extractors_source = flat_all (x_account (p_extractors DEFAULT_PATTERNS)) /\
  read_all validators_source = flat_all [_RE_FUT_MMMYY; _RE_FUT_MMYY; _RE_SYMBOL].
Proof. repeat split; vm_compute; reflexivity. Qed.

(** Regrouping concatenations does not change what is matched. *)
Section Regrouping.

Variable ic : bool.
Variable R : Type.

Lemma rep_max_ext (p : ascii -> bool) (k1 k2 : option ascii -> nat -> text -> option R) :
  (forall a b c, k1 a b c = k2 a b c) ->
  forall rest lo hi prev pos,
    rep_max p lo hi prev pos rest k1 = rep_max p lo hi prev pos rest k2.
Proof.
  intro Hk. induction rest as [|c rest IH]; intros lo hi prev pos; cbn [rep_max].
  - now rewrite Hk.
  - now rewrite IH, Hk.
Qed.

Lemma rep_min_ext (p : ascii -> bool) (k1 k2 : option ascii -> nat -> text -> option R) :
  (forall a b c, k1 a b c = k2 a b c) ->
  forall rest lo hi prev pos,
    rep_min p lo hi prev pos rest k1 = rep_min p lo hi prev pos rest k2.
Proof.
  intro Hk. induction rest as [|c rest IH]; intros lo hi prev pos; cbn [rep_min].
  - now rewrite Hk.
  - now rewrite IH, Hk.
Qed.

Lemma run_ext (r : regex) :
  forall (k1 k2 : option ascii -> nat -> text -> marks -> option R),
    (forall a b c d, k1 a b c d = k2 a b c d) ->
    forall prev pos rest ms,
      run ic r prev pos rest ms k1 = run ic r prev pos rest ms k2.
Proof.
  induction r as [|cs|a IHa b IHb|a IHa b IHb|cs lo hi greedy|a IHa|n a IHa| | |];
    intros k1 k2 Hk prev pos rest ms; cbn [run]; try (now rewrite Hk).
  - destruct rest; [reflexivity|]. now rewrite Hk.
  - apply IHa. intros p1 n1 r1 m1. now apply IHb.
  - now rewrite (IHa k1 k2 Hk), (IHb k1 k2 Hk).
  - destruct greedy; [apply rep_max_ext|apply rep_min_ext]; intros; apply Hk.
  - now rewrite (IHa k1 k2 Hk), Hk.
  - apply IHa. intros p1 n1 r1 m1. apply Hk.
Qed.

Lemma run_seqs_app (l1 l2 : list regex) :
  forall prev pos rest ms (k : option ascii -> nat -> text -> marks -> option R),
    run ic (seqs (l1 ++ l2)) prev pos rest ms k
    = run ic (seqs l1) prev pos rest ms
        (fun prev' pos' rest' ms' => run ic (seqs l2) prev' pos' rest' ms' k).
Proof.
  induction l1 as [|x l1 IH]; intros prev pos rest ms k; [reflexivity|].
  cbn [app seqs fold_right run]. apply run_ext. intros p1 n1 r1 m1. apply IH.
Qed.

Lemma run_flat (r : regex) :
  forall prev pos rest ms (k : option ascii -> nat -> text -> marks -> option R),
    run ic (flat r) prev pos rest ms k = run ic r prev pos rest ms k.
Proof.
  unfold flat.
  induction r as [|cs|a IHa b IHb|a IHa b IHb|cs lo hi greedy|a IHa|n a IHa| | |];
    intros prev pos rest ms k; cbn [atoms]; try reflexivity.
  - rewrite run_seqs_app, IHa. cbn [run]. apply run_ext. intros. apply IHb.
  - cbn [seqs fold_right run].
    rewrite <- (IHa prev pos rest ms k), <- (IHb prev pos rest ms k). reflexivity.
  - cbn [seqs fold_right run]. rewrite <- (IHa prev pos rest ms k). reflexivity.
  - cbn [seqs fold_right run]. rewrite <- IHa. reflexivity.
Qed.

End Regrouping.

Lemma group_names_seqs_app (l1 l2 : list regex) :
  group_names (seqs (l1 ++ l2)) = group_names (seqs l1) ++ group_names (seqs l2).
Proof.
  induction l1 as [|x l1 IH]; simpl; [reflexivity|]. now rewrite IH, app_assoc.
Qed.

Lemma group_names_flat (r : regex) : group_names (flat r) = group_names r.
Proof.
  unfold flat. induction r; cbn [atoms]; simpl; try reflexivity;
    rewrite ?group_names_seqs_app, ?app_nil_r; congruence.
Qed.

Lemma scan_flat (ic : bool) (r : regex) (rest : text) :
  forall prev pos, scan ic (flat r) prev pos rest = scan ic r prev pos rest.
Proof.
  induction rest as [|c rest IH]; intros prev pos; cbn [scan]; unfold match_here;
    rewrite run_flat; [reflexivity|]. now rewrite IH.
Qed.

(** A table entry finds what the pattern read from the source finds. *)
Lemma pattern_search_flat (ic : bool) (r r' : regex) (s : text) :
  flat r' = flat r -> pattern_search ic r' s = pattern_search ic r s.
Proof.
  intro H. unfold pattern_search.
  rewrite <- (scan_flat ic r'), <- (scan_flat ic r), H.
  destruct (scan ic (flat r) None 0 s) as [[[a b] ms]|]; [|reflexivity].
  unfold mk_match; simpl.
  now rewrite <- (group_names_flat r'), <- (group_names_flat r), H.
Qed.

(** ** Polarity and precedence *)

Lemma not_line_matches (pat : regex) (line : text) :
  ~ line_matches pat line <-> pattern_search true pat (lower line) = None.
Proof.
  unfold line_matches. destruct (pattern_search true pat (lower line)); split;
    intro H; try reflexivity; try discriminate.
  - exfalso. apply H. discriminate.
  - intro G. now apply G.
Qed.

Lemma first_in_order_polarity (b : bool) (pats : list regex) (low : text)
    (pol : bool) (m : match_obj) :
  first_in_order (map (pair b) pats) low = Some (pol, m) ->
  pol = b /\ exists pat, In pat pats /\ pattern_search true pat low = Some m.
Proof.
  induction pats as [|pat pats IH]; simpl; [discriminate|].
  destruct (pattern_search true pat low) as [m0|] eqn:E.
  - intro H. inversion H; subst. split; [reflexivity|]. exists pat. auto.
  - intro H. destruct (IH H) as (Hp & q & Hq & Hm). split; [exact Hp|].
    exists q. auto.
Qed.

(** C5, as amended.  A line that matches an enable-pattern is parsed
    with [enabled = true]; a line that matches a disable-pattern and no
    enable-pattern is parsed with [enabled = false].  (The enable list
    is tried first, so a line matching patterns of both lists is
    reported enabled.) *)
Theorem polarity_of_first_matching_list (ps : pattern_set) (line : text) :
  patterns_compile ps ->
  ((exists pat, In pat (p_enabled ps) /\ line_matches pat line) ->
   exists st, parse_with_patterns line ps = Ok (true, st) /\ s_enabled st = Some true) /\
  ((exists pat, In pat (p_disabled ps) /\ line_matches pat line) ->
   (forall pat, In pat (p_enabled ps) -> ~ line_matches pat line) ->
   exists st, parse_with_patterns line ps = Ok (true, st) /\ s_enabled st = Some false).
Proof.
  intro Hc. rewrite (parse_as_first line ps Hc). unfold declared_order.
  rewrite first_in_order_app. split.
  - intros (pat & Hin & Hm).
    destruct (first_in_order (map (pair true) (p_enabled ps)) (lower line))
      as [[pol m]|] eqn:E.
    + apply first_in_order_polarity in E as [-> _].
      exists (status_of_match true m). split; reflexivity.
    + exfalso. apply Hm.
      apply (proj1 (first_in_order_none _ _) E true pat).
      apply in_map_iff. exists pat. auto.
  - intros (pat & Hin & Hm) Hnone.
    assert (E : first_in_order (map (pair true) (p_enabled ps)) (lower line) = None).
    { apply first_in_order_none. intros pol q Hq.
      apply in_map_iff in Hq as (q' & Hq' & Hin').
      inversion Hq'; subst. apply not_line_matches. now apply Hnone. }
    rewrite E.
    destruct (first_in_order (map (pair false) (p_disabled ps)) (lower line))
      as [[pol m]|] eqn:E'.
    + apply first_in_order_polarity in E' as [-> _].
      exists (status_of_match false m). split; reflexivity.
    + exfalso. apply Hm.
      apply (proj1 (first_in_order_none _ _) E' false pat).
      apply in_map_iff. exists pat. auto.
Qed.

Lemma polarity_of_first_matching_list_witness :
  patterns_compile DEFAULT_PATTERNS /\
  (exists pat, In pat (p_enabled DEFAULT_PATTERNS) /\ line_matches pat line_alpha) /\
  exists st, parse_with_patterns line_alpha DEFAULT_PATTERNS = Ok (true, st) /\
             s_enabled st = Some true.
Proof.
  assert (Hc : patterns_compile DEFAULT_PATTERNS)
    by (unfold patterns_compile; simpl; repeat constructor).
  assert (Hm : exists pat, In pat (p_enabled DEFAULT_PATTERNS) /\ line_matches pat line_alpha).
  { exists (pat_on "enabled"). split; [simpl; auto|]. vm_compute. discriminate. }
  split; [exact Hc|]. split; [exact Hm|].
  exact (proj1 (polarity_of_first_matching_list DEFAULT_PATTERNS line_alpha Hc) Hm).
Defined.

(** C5, as stated, fails in its second half: this line matches the
    disable-pattern "strategy NAME ... disabled", and is parsed with
    [enabled = true] because the enable-pattern
    "strategy NAME ... enabled" matches it too and comes first. *)
Lemma disable_match_parsed_enabled :
  In (pat_bare "disabled") (p_disabled DEFAULT_PATTERNS) /\
  line_matches (pat_bare "disabled") line_mixed /\
  parse_with_patterns line_mixed DEFAULT_PATTERNS
  = Ok (true, Status (Some true) (Some (T "foo")) (Some []) (Some []) None) /\
  ~ (forall st, parse_with_patterns line_mixed DEFAULT_PATTERNS = Ok (true, st) ->
                s_enabled st = Some false).
Proof.
  assert (Hp : parse_with_patterns line_mixed DEFAULT_PATTERNS
               = Ok (true, Status (Some true) (Some (T "foo")) (Some []) (Some []) None))
    by (vm_compute; reflexivity).
  split; [simpl; tauto|]. split; [vm_compute; discriminate|]. split; [exact Hp|].
  intro H. specialize (H _ Hp). discriminate.
Qed.

(** C6, as amended.  [parse_with_patterns] searches the lower-cased
    line with the enable-patterns in declared order and then the
    disable-patterns in declared order; the first pattern found decides
    polarity and captures, and no match is reported exactly when every
    pattern fails.  Hence a line that several patterns match is
    classified with the captures of the one that comes first in this
    order: those of a strict quoted-name pattern when nothing tried
    before it matches, and otherwise those of the earliest matching
    pattern, which may be a loose fallback. *)
Theorem first_declared_match_decides (ps : pattern_set) (line : text) :
  patterns_compile ps ->
  declared_order ps = map (pair true) (p_enabled ps) ++ map (pair false) (p_disabled ps) /\
  (forall i pol pat m,
     nth_error (declared_order ps) i = Some (pol, pat) ->
     pattern_search true pat (lower line) = Some m ->
     (forall j pol' q, j < i -> nth_error (declared_order ps) j = Some (pol', q) ->
                       ~ line_matches q line) ->
     parse_with_patterns line ps = Ok (true, status_of_match pol m)) /\
  (parse_with_patterns line ps = Ok (false, empty_status) <->
   forall pol pat, In (pol, pat) (declared_order ps) -> ~ line_matches pat line) /\
  (forall i strict,
     nth_error (declared_order ps) i = Some strict ->
     line_matches (snd strict) line ->
     exists i' pol pat m,
       i' <= i /\ nth_error (declared_order ps) i' = Some (pol, pat) /\
       pattern_search true pat (lower line) = Some m /\
       (forall j pol' q, j < i' -> nth_error (declared_order ps) j = Some (pol', q) ->
                         ~ line_matches q line) /\
       parse_with_patterns line ps = Ok (true, status_of_match pol m)).
Proof.
  intro Hc. rewrite (parse_as_first line ps Hc).
  split; [reflexivity|]. split; [|split].
  - intros i pol pat m Hi Hm Hn.
    assert (E : first_in_order (declared_order ps) (lower line) = Some (pol, m)).
    { apply first_in_order_some. exists i, pat. repeat split; auto.
      intros j p q Hj Hq. apply not_line_matches. exact (Hn j p q Hj Hq). }
    now rewrite E.
  - destruct (first_in_order (declared_order ps) (lower line)) as [[pol m]|] eqn:E; split.
    + discriminate.
    + intro H. exfalso.
      apply first_in_order_some in E as (i & pat & Hi & Hm & _).
      apply nth_error_In in Hi. apply (H pol pat Hi). unfold line_matches. congruence.
    + intros _ pol pat Hin. apply not_line_matches.
      exact (proj1 (first_in_order_none _ _) E pol pat Hin).
    + reflexivity.
  - intros i [ps_ qs] Hi Hs. simpl in Hs.
    destruct (first_in_order (declared_order ps) (lower line)) as [[pol m]|] eqn:E.
    + apply first_in_order_some in E as (i' & pat & Hi' & Hm & Hn).
      exists i', pol, pat, m. split; [|split; [exact Hi'|split; [exact Hm|split]]].
      * destruct (Nat.le_gt_cases i' i) as [Hle|Hgt]; [exact Hle|].
        exfalso. apply Hs. exact (Hn i ps_ qs Hgt Hi).
      * intros j p q Hj Hq. apply not_line_matches. exact (Hn j p q Hj Hq).
      * reflexivity.
    + exfalso. apply Hs.
      apply (proj1 (first_in_order_none _ _) E ps_ qs). eapply nth_error_In; eauto.
Qed.

Lemma first_declared_match_decides_witness :
  patterns_compile DEFAULT_PATTERNS /\
  line_matches (pat_on "enabled") line_strict_and_loose /\
  line_matches (pat_bare "enabled") line_strict_and_loose /\
  exists m,
    pattern_search true (pat_on "enabled") (lower line_strict_and_loose) = Some m /\
    parse_with_patterns line_strict_and_loose DEFAULT_PATTERNS
    = Ok (true, status_of_match true m) /\
    s_name (status_of_match true m) = Some (T "alpha").
Proof.
  assert (Hc : patterns_compile DEFAULT_PATTERNS)
    by (unfold patterns_compile; simpl; repeat constructor).
  split; [exact Hc|]. split; [vm_compute; discriminate|]. split; [vm_compute; discriminate|].
  destruct (pattern_search true (pat_on "enabled") (lower line_strict_and_loose))
    as [m|] eqn:Em; [|vm_compute in Em; discriminate].
  exists m. split; [reflexivity|].
  destruct (first_declared_match_decides DEFAULT_PATTERNS line_strict_and_loose Hc)
    as (_ & Hfirst & _ & _).
  split.
  - apply (Hfirst 1 true (pat_on "enabled") m eq_refl Em).
    intros [|j] pol' q Hj Hq; [|lia].
    inversion Hq; subst. apply not_line_matches. vm_compute. reflexivity.
  - vm_compute in Em. inversion Em; subst m. vm_compute. reflexivity.
Defined.

(** C6, as stated, fails in its last part.  Both lines are matched by
    the strict pattern "disabling ninjascript strategy 'NAME'", whose
    captures give the name [alpha] and [enabled = false]; both are
    classified by the loose enable fallback "strategy NAME ... enabled",
    which is tried first, as the strategy [was], enabled.  On the second
    line the loose "strategy NAME ... disabled", declared after the
    strict pattern, matches as well. *)
Lemma strict_match_classified_by_loose :
  nth_error (declared_order DEFAULT_PATTERNS) 3 = Some (true, pat_bare "enabled") /\
  nth_error (declared_order DEFAULT_PATTERNS) 4 = Some (false, pat_ninjascript "disabling") /\
  nth_error (declared_order DEFAULT_PATTERNS) 8 = Some (false, pat_bare "disabled") /\
  (line_matches (pat_ninjascript "disabling") line_disabling_was_enabled /\
   line_matches (pat_bare "enabled") line_disabling_was_enabled /\
   option_map (status_of_match false)
     (pattern_search true (pat_ninjascript "disabling") (lower line_disabling_was_enabled))
   = Some (Status (Some false) (Some (T "alpha")) None None None) /\
   parse_with_patterns line_disabling_was_enabled DEFAULT_PATTERNS
   = Ok (true, Status (Some true) (Some (T "was")) (Some (T "before")) (Some []) None)) /\
  (line_matches (pat_ninjascript "disabling") line_disabling_both_loose /\
   line_matches (pat_bare "enabled") line_disabling_both_loose /\
   line_matches (pat_bare "disabled") line_disabling_both_loose /\
   option_map (status_of_match false)
     (pattern_search true (pat_ninjascript "disabling") (lower line_disabling_both_loose))
   = Some (Status (Some false) (Some (T "alpha")) None None None) /\
   parse_with_patterns line_disabling_both_loose DEFAULT_PATTERNS
   = Ok (true, Status (Some true) (Some (T "was")) (Some (T "strate")) (Some []) None)) /\
  ~ (forall line strict m,
       In strict (p_enabled DEFAULT_PATTERNS ++ p_disabled DEFAULT_PATTERNS) ->
       pattern_search true strict (lower line) = Some m ->
       exists pol, parse_with_patterns line DEFAULT_PATTERNS
                   = Ok (true, status_of_match pol m)).
Proof.
  split; [reflexivity|]. split; [reflexivity|]. split; [reflexivity|].
  assert (Hp : parse_with_patterns line_disabling_was_enabled DEFAULT_PATTERNS
               = Ok (true, Status (Some true) (Some (T "was")) (Some (T "before"))
                             (Some []) None))
    by (vm_compute; reflexivity).
  split; [|split].
  - split; [vm_compute; discriminate|]. split; [vm_compute; discriminate|].
    split; [vm_compute; reflexivity|exact Hp].
  - split; [vm_compute; discriminate|]. split; [vm_compute; discriminate|].
    split; [vm_compute; discriminate|]. split; vm_compute; reflexivity.
  - intro H.
    destruct (pattern_search true (pat_ninjascript "disabling")
                (lower line_disabling_was_enabled)) as [m|] eqn:Em;
      [|vm_compute in Em; discriminate].
    destruct (H line_disabling_was_enabled (pat_ninjascript "disabling") m) as [pol Hpol].
    + simpl. tauto.
    + exact Em.
    + rewrite Hp in Hpol. vm_compute in Em. inversion Em; subst m.
      destruct pol; vm_compute in Hpol; discriminate.
Qed.

(** ** Captures come from the lower-cased line *)

Lemma py_lower_char_not_capital (c : ascii) : is_capital (py_lower_char c) = false.
Proof. destruct c as [[] [] [] [] [] [] [] []]; vm_compute; reflexivity. Qed.

Lemma lower_not_capital (line : text) (c : ascii) :
  In c (lower line) -> is_capital c = false.
Proof.
  unfold lower. intro H. apply in_map_iff in H as (x & <- & _).
  apply py_lower_char_not_capital.
Qed.

(** All three validators begin with [^[A-Z]]. *)
Lemma validators_need_capital (c : ascii) (s : text) :
  is_capital c = false -> matches_validators (c :: s) = false.
Proof.
  intro H.
  assert (Hc : cset_match false AZ c = false).
  { unfold AZ, cset_match, item_match_flags, item_match; simpl.
    unfold is_capital in H. change (code "A") with 65. change (code "Z") with 90.
    now rewrite H. }
  unfold matches_validators, pattern_match, match_here,
    _RE_FUT_MMMYY, _RE_FUT_MMYY, _RE_SYMBOL, seqs, upto.
  cbn [fold_right run Nat.eqb rep_max]. rewrite Hc. reflexivity.
Qed.

Lemma validate_instrument_not_capital (s : text) :
  (forall c, In c s -> is_capital c = false) -> validate_instrument s = [].
Proof.
  destruct s as [|c s]; [reflexivity|]. intro H. unfold validate_instrument.
  rewrite validators_need_capital; [reflexivity|]. apply H. now left.
Qed.

Lemma firstn_incl (n : nat) (s : text) : incl (firstn n s) s.
Proof.
  revert s; induction n as [|n IH]; intros [|c s] x; simpl; try contradiction.
  intros [->|H]; [now left|right; now apply IH].
Qed.

Lemma skipn_incl (n : nat) (s : text) : incl (skipn n s) s.
Proof.
  revert s; induction n as [|n IH]; intros [|c s]; simpl; try apply incl_refl.
  apply incl_tl, IH.
Qed.

Lemma slice_incl (s : text) (a b : nat) : incl (slice s a b) s.
Proof.
  unfold slice. intros c H. apply firstn_incl in H. now apply skipn_incl in H.
Qed.

Lemma lstrip_incl (p : ascii -> bool) (s : text) : incl (lstrip p s) s.
Proof.
  induction s as [|c s IH]; simpl; [apply incl_refl|].
  destruct (p c); [apply incl_tl; exact IH|apply incl_refl].
Qed.

Lemma strip_by_incl (p : ascii -> bool) (s : text) : incl (strip_by p s) s.
Proof.
  unfold strip_by. intros c H.
  apply in_rev in H. apply lstrip_incl in H. apply in_rev in H.
  now apply lstrip_incl in H.
Qed.

Lemma before_first_incl (sep : ascii) (s : text) : incl (before_first sep s) s.
Proof.
  induction s as [|c s IH]; simpl; [apply incl_refl|].
  destruct (ascii_eqb c sep); [intros x []|].
  intros x [->|H]; [now left|right; now apply IH].
Qed.

Lemma group_text_incl (m : match_obj) (k : string) : incl (group_text m k) (m_string m).
Proof.
  unfold group_text. intros c H. apply strip_by_incl in H.
  destruct (get_mark k (m_marks m)) as [[a b]|]; simpl in H; [|contradiction].
  eapply slice_incl; eauto.
Qed.

Lemma drawn_from_empty (low : text) : drawn_from low empty_status.
Proof. intros [] v H; discriminate. Qed.

Lemma drawn_from_set_field (low : text) (st : status) (f : field) (v : text) :
  drawn_from low st -> incl v low -> drawn_from low (set_field f v st).
Proof.
  intros Hst Hv g w Hg.
  destruct f, g; simpl in Hg;
    try (inversion Hg; subst; exact Hv);
    first [ exact (Hst FName w Hg) | exact (Hst FInstrument w Hg)
          | exact (Hst FConnection w Hg) | exact (Hst FAccount w Hg) ].
Qed.

Lemma drawn_from_set_enabled (low : text) (st : status) (b : bool) :
  drawn_from low st -> drawn_from low (set_enabled b st).
Proof. intros Hst f w Hg. apply (Hst f w). destruct f; exact Hg. Qed.

Lemma drawn_from_collected (low : text) (m : match_obj) (ks : list field) (gd : status) :
  m_string m = low -> drawn_from low gd -> drawn_from low (collected m ks gd).
Proof.
  intro Hm. revert gd. induction ks as [|k ks IH]; intros gd Hgd; simpl; [exact Hgd|].
  destruct (in_groupdict m (key_of k)); [|now apply IH].
  apply IH. apply drawn_from_set_field; [exact Hgd|].
  rewrite <- Hm. apply group_text_incl.
Qed.

Lemma drawn_from_normalize_name (low : text) (gd : status) :
  drawn_from low gd -> drawn_from low (normalize_name gd).
Proof.
  intro H. unfold normalize_name. destruct (s_name gd) as [n|] eqn:E; [|exact H].
  destruct (mem_char n "/"); [|exact H].
  apply drawn_from_set_field; [exact H|].
  intros c Hc. apply before_first_incl in Hc. exact (H FName n E c Hc).
Qed.

Lemma drawn_from_status_of_match (low : text) (pol : bool) (m : match_obj) :
  m_string m = low -> drawn_from low (status_of_match pol m).
Proof.
  intro Hm. unfold status_of_match.
  apply drawn_from_set_enabled, drawn_from_normalize_name, drawn_from_collected;
    [exact Hm|apply drawn_from_empty].
Qed.

Lemma try_patterns_drawn (pol : bool) (pats : list regex) (low : text) (st : status) :
  try_patterns pol pats low = Ok (Some st) -> drawn_from low st.
Proof.
  induction pats as [|pat pats IH]; [discriminate|].
  cbn [try_patterns].
  destruct (re_search pat low true) as [[m|]|e] eqn:E; cbn [bind]; try discriminate.
  - rewrite collect_groups_ok. cbn [bind]. intro H. inversion H; subst st.
    apply drawn_from_status_of_match.
    apply re_search_inv in E. symmetry in E.
    now apply pattern_search_string in E as [-> _].
  - exact IH.
Qed.

Lemma parse_drawn (line : text) (ps : pattern_set) (b : bool) (st : status) :
  parse_with_patterns line ps = Ok (b, st) -> drawn_from (lower line) st.
Proof.
  unfold parse_with_patterns.
  destruct (try_patterns true (p_enabled ps) (lower line)) as [[s1|]|e] eqn:E1;
    cbn [bind]; try discriminate.
  - intro H. inversion H; subst. eapply try_patterns_drawn; eauto.
  - destruct (try_patterns false (p_disabled ps) (lower line)) as [[s2|]|e] eqn:E2;
      cbn [bind]; try discriminate.
    + intro H. inversion H; subst. eapply try_patterns_drawn; eauto.
    + intro H. inversion H; subst. apply drawn_from_empty.
Qed.

Lemma first_extract_incl (f : field) (pats : list regex) (low v : text) :
  first_extract f pats low = Ok (Some v) -> incl v low.
Proof.
  induction pats as [|pat pats IH]; [discriminate|].
  cbn [first_extract].
  destruct (re_search pat low true) as [[m|]|e] eqn:E; cbn [bind]; try discriminate;
    [|exact IH].
  destruct (in_groupdict m (key_of f)) eqn:Eg; [|exact IH].
  destruct (m_group_text m (key_of f) Eg) as (g & -> & Hg). cbn [bind].
  intro H. inversion H; subst v. rewrite Hg.
  apply re_search_inv in E. symmetry in E.
  apply pattern_search_string in E as [<- _]. apply group_text_incl.
Qed.

Lemma fill_fields_drawn (fs : list field) (x : extractor_set) (low : text)
    (st st' : status) :
  drawn_from low st -> fill_fields fs x low st = Ok st' -> drawn_from low st'.
Proof.
  revert st. induction fs as [|f fs IH]; intros st Hst; cbn [fill_fields].
  - intro H. inversion H; subst. exact Hst.
  - destruct (truthy (get_field f st)); [now apply IH|].
    destruct (first_extract f (extractors_get x f) low) as [[v|]|e] eqn:E;
      cbn [bind]; try discriminate.
    + apply IH. apply drawn_from_set_field; [exact Hst|].
      eapply first_extract_incl; eauto.
    + now apply IH.
Qed.

Lemma sanity_trims_drawn (low : text) (st : status) :
  drawn_from low st -> drawn_from low (sanity_trims st).
Proof.
  unfold sanity_trims. generalize all_fields. intro fs. revert st.
  induction fs as [|k fs IH]; intros st Hst; simpl; [exact Hst|].
  apply IH. destruct (get_field k st) as [v|] eqn:E; [|exact Hst].
  apply drawn_from_set_field; [exact Hst|].
  intros c Hc. apply strip_by_incl in Hc. exact (Hst k v E c Hc).
Qed.

(** After validation the instrument of a status drawn from a
    lower-cased line is absent or empty. *)
Lemma validate_status_clears (line : text) (st : status) :
  drawn_from (lower line) st -> get_or_empty FInstrument (validate_status st) = [].
Proof.
  intro H. unfold validate_status, get_or_empty.
  destruct (s_instrument st) as [v|] eqn:E; simpl; [|now rewrite E].
  apply validate_instrument_not_capital. intros c Hc.
  apply (lower_not_capital line). exact (H FInstrument v E c Hc).
Qed.

Lemma fill_missing_fields_clears (line : text) (st st' : status) (ps : pattern_set) :
  drawn_from (lower line) st ->
  fill_missing_fields line st ps = Ok st' ->
  get_or_empty FInstrument st' = [].
Proof.
  intro Hst. unfold fill_missing_fields.
  destruct (fill_fields all_fields (p_extractors ps) (lower line) st) as [st1|e] eqn:E;
    cbn [bind]; [|discriminate].
  intro H. inversion H; subst st'.
  apply (validate_status_clears line), sanity_trims_drawn.
  eapply fill_fields_drawn; eauto.
Qed.

(** ** Every stored instrument is empty *)

Lemma extracted_instrument_empty (cfg : config) (raw_line : text) (r : StrategyStatus) :
  extract cfg raw_line = Extracted r -> instrument r = [].
Proof.
  unfold extract. intro Hx.
  destruct raw_line; [discriminate|].
  destruct (negb _); [discriminate|].
  destruct (parse_with_patterns _ _) as [[[|] st0]|] eqn:Ep; try discriminate.
  destruct (fill_missing_fields _ _ _) as [st|] eqn:Ef; try discriminate.
  destruct (truthy (s_name st)); [|discriminate].
  inversion Hx; subst r; simpl.
  apply parse_drawn in Ep.
  now rewrite (fill_missing_fields_clears _ _ _ _ Ep Ef).
Qed.

Lemma sorted_In (v : StrategyStatus) (l : list StrategyStatus) :
  In v (sorted l) -> In v l.
Proof. apply Permutation_in, sorted_perm. Qed.

Lemma snapshot_instruments_empty (t : table) :
  table_instruments_empty t ->
  forall v, In v (statuses_to_json t) -> instrument v = [].
Proof.
  intros Ht v Hv. unfold statuses_to_json in Hv. apply sorted_In in Hv.
  apply in_map_iff in Hv as ([k v'] & <- & Hin). exact (proj2 (Ht k v' Hin)).
Qed.

Lemma store_instruments_empty (t : table) (nm : text) (v : StrategyStatus) :
  table_instruments_empty t -> instrument v = [] ->
  table_instruments_empty (store (nm, []) v t).
Proof.
  intros Ht Hv k w Hin. apply store_In in Hin as [Heq|Hin].
  - inversion Heq; subst. auto.
  - exact (Ht k w Hin).
Qed.

Lemma reconcile_instruments_empty (s : monitor) (raw_line : text) (o : outcome) :
  (forall r, o = Extracted r -> instrument r = []) ->
  instruments_empty s -> instruments_empty (reconcile s raw_line o).
Proof.
  intros Ho [Ht He].
  assert (Hext : forall e, event_instruments_empty e ->
            forall e', In e' (output s ++ [e]) -> event_instruments_empty e').
  { intros e Hev e' Hin. apply in_app_iff in Hin as [Hin|[<-|[]]]; auto. }
  destruct o as [|e| |r]; simpl.
  - split; assumption.
  - split; [exact Ht|]. now apply Hext.
  - split; [exact Ht|]. now apply Hext.
  - destruct (changed _ _ _ _); [|split; assumption].
    specialize (Ho r eq_refl).
    assert (Ht' : table_instruments_empty (store (key_of_record r) r (statuses s))).
    { unfold key_of_record. rewrite Ho. now apply store_instruments_empty. }
    unfold apply_change, change_events; simpl. split; [exact Ht'|].
    intros e Hin. apply in_app_iff in Hin as [Hin|Hin]; [now apply He|].
    destruct Hin as [<-|[<-|[<-|[]]]]; simpl; auto.
    now apply snapshot_instruments_empty.
Qed.

Lemma monitor_step_instruments_empty (cfg : config) (s : monitor) (raw_line : text) :
  instruments_empty s -> instruments_empty (monitor_step cfg s raw_line).
Proof.
  rewrite monitor_step_extract. apply reconcile_instruments_empty.
  apply extracted_instrument_empty.
Qed.

Lemma build_initial_instruments_empty (lines : list text) (ps : pattern_set)
    (subs : list text) (acc t : table) :
  table_instruments_empty acc ->
  build_initial_statuses lines ps subs acc = Ok t ->
  table_instruments_empty t.
Proof.
  revert acc. induction lines as [|l lines IH]; intros acc Hacc; cbn [build_initial_statuses].
  - intro H. inversion H; subst. exact Hacc.
  - destruct l as [|c l]; [now apply IH|].
    destruct (negb (requires_any (c :: l) subs)); [now apply IH|].
    destruct (parse_with_patterns (c :: l) ps) as [[matched st0]|e] eqn:Ep;
      cbn [bind]; [|discriminate].
    destruct matched; cbn [negb]; [|now apply IH].
    destruct (fill_missing_fields (c :: l) st0 ps) as [st|e] eqn:Ef;
      cbn [bind]; [|discriminate].
    destruct (negb (truthy (s_name st))); [now apply IH|].
    apply parse_drawn in Ep.
    rewrite (fill_missing_fields_clears _ _ _ _ Ep Ef).
    apply IH. now apply store_instruments_empty.
Qed.

Lemma update_instruments_empty (t initial : table) :
  table_instruments_empty t -> table_instruments_empty initial ->
  table_instruments_empty (update t initial).
Proof.
  unfold update. revert t. induction initial as [|[[nm ins] v] initial IH];
    intros t Ht Hi; simpl; [exact Ht|].
  destruct (Hi (nm, ins) v (or_introl eq_refl)) as [Hk Hv]. simpl in Hk. subst ins.
  apply IH.
  - now apply store_instruments_empty.
  - intros k w Hin. apply (Hi k w). now right.
Qed.

Lemma initial_snapshot_instruments_empty (cfg : config) (tail : list text) :
  instruments_empty (initial_snapshot cfg tail).
Proof.
  assert (Hnil : table_instruments_empty []) by (intros k v []).
  unfold initial_snapshot.
  destruct (build_initial_statuses tail (patterns cfg) (match_strategies cfg) [])
    as [initial|e] eqn:E.
  - apply (build_initial_instruments_empty _ _ _ _ _ Hnil) in E.
    assert (Ht := update_instruments_empty [] initial Hnil E).
    split; [exact Ht|]. intros e [<-|[]]. simpl.
    now apply snapshot_instruments_empty.
  - split; [exact Hnil|]. intros e' [<-|[]]. exact I.
Qed.

Lemma run_instruments_empty (cfg : config) (tail live : list text) :
  instruments_empty (run_strategy_status_monitor cfg tail live).
Proof.
  unfold run_strategy_status_monitor.
  generalize (initial_snapshot_instruments_empty cfg tail).
  generalize (initial_snapshot cfg tail). intros s Hs. revert s Hs.
  induction live as [|l live IH]; intros s Hs; simpl; [exact Hs|].
  apply IH. now apply monitor_step_instruments_empty.
Qed.

(** C2. Whatever the line, the status leaving [fill_missing_fields]
    after a match has an empty (or absent) instrument, and so has it
    after the loop's second validation: captures are pieces of the
    lower-cased line, and every validator demands a leading capital.
    Consequently every key of the status table is [(name, '')], and
    every stored record, snapshot entry, change notice and publish call
    carries the instrument [''].  This holds for every pattern set, the
    default one included. *)
Theorem instrument_is_always_empty (cfg : config) :
  (forall line st st',
     parse_with_patterns line (patterns cfg) = Ok (true, st) ->
     fill_missing_fields line st (patterns cfg) = Ok st' ->
     get_or_empty FInstrument st' = [] /\
     validate_instrument (get_or_empty FInstrument st') = []) /\
  (forall line r, extract cfg line = Extracted r -> instrument r = []) /\
  (forall tail live,
     let s := run_strategy_status_monitor cfg tail live in
     (forall k v, In (k, v) (statuses s) -> snd k = [] /\ instrument v = []) /\
     (forall l v, In (SnapshotWrite l) (output s) -> In v l -> instrument v = [])).
Proof.
  split; [|split].
  - intros line st st' Hp Hf. apply parse_drawn in Hp.
    rewrite (fill_missing_fields_clears _ _ _ _ Hp Hf). split; reflexivity.
  - apply extracted_instrument_empty.
  - intros tail live s. destruct (run_instruments_empty cfg tail live) as [Ht He].
    split; [exact Ht|].
    intros l v Hl Hv. exact (He _ Hl v Hv).
Qed.

Lemma instrument_is_always_empty_witness :
  extract default_config line_alpha = Extracted record_alpha /\
  instrument record_alpha = [].
Proof.
  assert (Hx : extract default_config line_alpha = Extracted record_alpha)
    by (vm_compute; reflexivity).
  split; [exact Hx|].
  exact (proj1 (proj2 (instrument_is_always_empty default_config)) line_alpha record_alpha Hx).
Defined.

(** ** Nothing raises on compiled patterns *)

Lemma first_extract_ok (f : field) (pats : list regex) (low : text) :
  Forall (fun r => compiles r = true) pats ->
  exists v, first_extract f pats low = Ok v.
Proof.
  induction 1 as [|pat pats Hp _ IH]; [now exists None|].
  cbn [first_extract]. rewrite (re_search_ok _ _ _ Hp). cbn [bind].
  destruct (pattern_search true pat low) as [m|]; [|exact IH].
  destruct (in_groupdict m (key_of f)) eqn:Eg; [|exact IH].
  destruct (m_group_text m (key_of f) Eg) as (g & -> & _). cbn [bind]. eauto.
Qed.

Lemma fill_fields_ok (fs : list field) (x : extractor_set) (low : text) (st : status) :
  (forall f, Forall (fun r => compiles r = true) (extractors_get x f)) ->
  exists st', fill_fields fs x low st = Ok st'.
Proof.
  intro Hx. revert st. induction fs as [|f fs IH]; intro st; cbn [fill_fields]; [eauto|].
  destruct (truthy (get_field f st)); [apply IH|].
  destruct (first_extract_ok f _ low (Hx f)) as (v & ->). cbn [bind]. apply IH.
Qed.

Lemma fill_missing_fields_ok (line : text) (st : status) (ps : pattern_set) :
  patterns_compile ps -> exists st', fill_missing_fields line st ps = Ok st'.
Proof.
  intro Hc. apply patterns_compile_split in Hc as (_ & _ & Hx).
  unfold fill_missing_fields.
  destruct (fill_fields_ok all_fields (p_extractors ps) (lower line) st Hx) as (st1 & ->).
  cbn [bind]. eauto.
Qed.

Lemma get_set_other (f g : field) (v : text) (st : status) :
  f <> g -> get_field f (set_field g v st) = get_field f st.
Proof. destruct f, g; simpl; intro H; try reflexivity; contradiction. Qed.

(** A field whose group the pattern lacks is left out of the dict. *)
Lemma collected_absent (m : match_obj) (ks : list field) (gd : status) (f : field) :
  in_groupdict m (key_of f) = false ->
  get_field f gd = None -> get_field f (collected m ks gd) = None.
Proof.
  intro Hf. revert gd. induction ks as [|k ks IH]; intros gd Hgd; simpl; [exact Hgd|].
  destruct (in_groupdict m (key_of k)) eqn:Ek; [|now apply IH].
  apply IH. rewrite get_set_other; [exact Hgd|].
  intros ->. congruence.
Qed.

Lemma status_of_match_absent (pol : bool) (m : match_obj) (f : field) :
  in_groupdict m (key_of f) = false -> get_field f (status_of_match pol m) = None.
Proof.
  intro Hf. unfold status_of_match.
  assert (H : get_field f (collected m [FName; FInstrument; FConnection] empty_status) = None).
  { apply collected_absent; [exact Hf|]. destruct f; reflexivity. }
  revert H. generalize (collected m [FName; FInstrument; FConnection] empty_status).
  intros gd H. unfold normalize_name.
  destruct (s_name gd) as [n|] eqn:En.
  - destruct (mem_char n "/").
    + destruct f; simpl in *; congruence.
    + destruct f; exact H.
  - destruct f; exact H.
Qed.

Lemma in_groupdict_names (ic : bool) (pat : regex) (s : text) (m : match_obj) (k : string) :
  pattern_search ic pat s = Some m ->
  ~ In k (group_names pat) -> in_groupdict m k = false.
Proof.
  intros Hm Hk. apply pattern_search_string in Hm as [_ Hn].
  unfold in_groupdict, has_name. rewrite Hn.
  destruct (existsb (String.eqb k) (group_names pat)) eqn:E; [|reflexivity].
  apply existsb_exists in E as (x & Hx & Heq). apply String.eqb_eq in Heq. subst x.
  contradiction.
Qed.

(** C10. With patterns that compile, as the default ones do, matching
    and completion return for every line and never raise; a named group
    that the deciding pattern lacks simply leaves its field out of the
    status.  In the loop, an exception raised by the body for one line
    is turned into an error printout and the remaining lines are
    processed as usual; this happens, for one, with a configured
    pattern that does not compile. *)
Theorem extraction_total_and_loop_survives (ps : pattern_set) (line : text) :
  patterns_compile ps ->
  (exists matched st,
     parse_with_patterns line ps = Ok (matched, st) /\
     (matched = true ->
      exists pol pat m,
        In (pol, pat) (declared_order ps) /\
        pattern_search true pat (lower line) = Some m /\
        st = status_of_match pol m /\
        forall f, ~ In (key_of f) (group_names pat) -> get_field f st = None)) /\
  (forall st, exists st', fill_missing_fields line st ps = Ok st') /\
  (forall cfg s raw_line rest e s',
     process_line cfg raw_line s = (Raise e, s') ->
     fold_left (monitor_step cfg) (raw_line :: rest) s
     = fold_left (monitor_step cfg) rest
         (Monitor (statuses s') (output s' ++ [LineError e raw_line]))) /\
  (process_line config_bad_pattern line_plain empty_monitor = (Raise ReError, empty_monitor) /\
   fold_left (monitor_step config_bad_pattern) [line_plain; line_foo] empty_monitor
   = Monitor [((T "foo", []), record_foo)]
       [ LineError ReError line_plain;
         ChangeNotice (T "foo") [] true [];
         SnapshotWrite [record_foo];
         Publish (T "foo") [] true [] ]).
Proof.
  intro Hc. split; [|split; [|split]].
  - rewrite (parse_as_first line ps Hc).
    destruct (first_in_order (declared_order ps) (lower line)) as [[pol m]|] eqn:E.
    + exists true, (status_of_match pol m). split; [reflexivity|]. intros _.
      apply first_in_order_some in E as (i & pat & Hi & Hm & _).
      exists pol, pat, m. repeat split; auto.
      * eapply nth_error_In; eauto.
      * intros f Hf. apply status_of_match_absent.
        eapply in_groupdict_names; eauto.
    + exists false, empty_status. split; [reflexivity|]. discriminate.
  - intro st. now apply fill_missing_fields_ok.
  - intros cfg s raw_line rest e s' Hr. simpl. unfold monitor_step at 2.
    now rewrite Hr.
  - split; vm_compute; reflexivity.
Qed.

Lemma extraction_total_and_loop_survives_witness :
  patterns_compile DEFAULT_PATTERNS /\
  exists matched st, parse_with_patterns line_foo DEFAULT_PATTERNS = Ok (matched, st).
Proof.
  assert (Hc : patterns_compile DEFAULT_PATTERNS)
    by (unfold patterns_compile; simpl; repeat constructor).
  split; [exact Hc|].
  destruct (extraction_total_and_loop_survives DEFAULT_PATTERNS line_foo Hc)
    as ((matched & st & Hp & _) & _).
  exists matched, st. exact Hp.
Defined.

(** ** The spec's scenarios, run on the code *)

(** C1. On the scenario line the pipeline matches the second
    enable-pattern and captures from the lower-cased line: name
    "alpha", instrument "mgc dec25", connection "sim101".  The
    lower-case instrument then fails validation and is cleared, so the
    record is (alpha, '', enabled, sim101), not the expected
    (Alpha, MGC DEC25, enabled, Sim101). *)
Theorem alpha_line_loses_case_and_instrument :
  parse_with_patterns line_alpha DEFAULT_PATTERNS
  = Ok (true, Status (Some true) (Some (T "alpha")) (Some (T "mgc dec25"))
                     (Some (T "sim101")) None) /\
  fill_missing_fields line_alpha
    (Status (Some true) (Some (T "alpha")) (Some (T "mgc dec25")) (Some (T "sim101")) None)
    DEFAULT_PATTERNS
  = Ok (Status (Some true) (Some (T "alpha")) (Some []) (Some (T "sim101")) None) /\
  extract default_config line_alpha = Extracted record_alpha /\
  record_alpha <> record_alpha_expected /\
  name record_alpha <> name record_alpha_expected /\
  instrument record_alpha <> instrument record_alpha_expected /\
  connection record_alpha <> connection record_alpha_expected.
Proof.
  repeat split; try (vm_compute; reflexivity); discriminate.
Qed.

Lemma before_first_no_sep (sep : ascii) (n : text) :
  mem_char n sep = false -> before_first sep n = n.
Proof.
  induction n as [|c n IH]; simpl; [reflexivity|].
  unfold mem_char in *. simpl.
  unfold ascii_eqb. rewrite (Ascii.eqb_sym sep c).
  destruct (Ascii.eqb c sep); simpl; [discriminate|].
  intro H. now rewrite IH.
Qed.

Lemma collected_name_kept (m : match_obj) (ks : list field) (gd : status) (n : text) :
  ~ In FName ks -> s_name gd = Some n -> s_name (collected m ks gd) = Some n.
Proof.
  revert gd. induction ks as [|k ks IH]; intros gd Hk Hgd; simpl; [exact Hgd|].
  assert (Hks : ~ In FName ks) by (intro; apply Hk; now right).
  destruct (in_groupdict m (key_of k)); [|now apply IH].
  apply IH; [exact Hks|].
  destruct k; simpl; try exact Hgd. exfalso. apply Hk. now left.
Qed.

(** Inside [parse_with_patterns] the name is the stripped capture cut
    at its first "/". *)
Lemma parsed_name_truncated (pol : bool) (m : match_obj) :
  in_groupdict m "name" = true ->
  s_name (status_of_match pol m) = Some (before_first "/" (group_text m "name")).
Proof.
  intro H. unfold status_of_match.
  assert (Hc : s_name (collected m [FName; FInstrument; FConnection] empty_status)
               = Some (group_text m "name")).
  { change (collected m [FName; FInstrument; FConnection] empty_status)
      with (if in_groupdict m "name"
            then collected m [FInstrument; FConnection]
                   (set_field FName (group_text m "name") empty_status)
            else collected m [FInstrument; FConnection] empty_status).
    rewrite H. apply collected_name_kept; [|reflexivity].
    intros [E|[E|[]]]; discriminate. }
  revert Hc. generalize (collected m [FName; FInstrument; FConnection] empty_status).
  intros gd Hgd. unfold normalize_name. rewrite Hgd.
  destruct (mem_char (group_text m "name") "/") eqn:E; simpl.
  - reflexivity.
  - now rewrite Hgd, before_first_no_sep.
Qed.

(** When the cut leaves nothing, [fill_missing_fields] takes the name
    from the extractor, which does not cut it. *)
Lemma refilled_name_keeps_slash :
  extract default_config line_slash_first
  = Extracted (mkStrategyStatus (T "/12345") [] true [] []).
Proof. vm_compute. reflexivity. Qed.

(** C7. A line naming the strategy 'Foo/12345' is stored under the name
    "foo": the cut at "/" is made, but on the capture from the
    lower-cased line, so the stored name is not "Foo". *)
Theorem foo_line_stored_in_lower_case :
  parse_with_patterns line_foo DEFAULT_PATTERNS
  = Ok (true, Status (Some true) (Some (T "foo")) None None None) /\
  extract default_config line_foo = Extracted record_foo /\
  statuses (monitor_step default_config empty_monitor line_foo)
  = [((T "foo", []), record_foo)] /\
  name record_foo <> T "Foo".
Proof.
  repeat split; try (vm_compute; reflexivity); discriminate.
Qed.

(** ** The matcher finds a match exactly when there is a reading *)

Lemma or_else_some {A : Type} (x y : option A) :
  match x with Some r => Some r | None => y end <> None <-> x <> None \/ y <> None.
Proof.
  destruct x; split; intro H.
  - left. discriminate.
  - discriminate.
  - now right.
  - destruct H as [H|H]; [contradiction|exact H].
Qed.

Lemma room_fits (hi : option nat) (n : nat) :
  room hi = true -> fits (less hi) n -> fits hi (S n).
Proof. destruct hi as [[|h]|]; simpl; intros; try discriminate; auto. lia. Qed.

Lemma fits_room (hi : option nat) (n : nat) :
  fits hi (S n) -> room hi = true /\ fits (less hi) n.
Proof. destruct hi as [[|h]|]; simpl; intros; auto; split; auto; lia. Qed.

Section Repetition.

Variable R : Type.
Variable p : ascii -> bool.
Variable k : option ascii -> nat -> text -> option R.

Lemma rep_reading_stop (hi : option nat) (prev : option ascii) (pos : nat) (rest : text) :
  k prev pos rest <> None -> rep_reading p k 0 hi prev pos rest.
Proof.
  intro H. exists [], rest. simpl. rewrite Nat.add_0_r.
  repeat split; auto. destruct hi; simpl; auto. lia.
Qed.

Lemma rep_reading_more (lo : nat) (hi : option nat) (prev : option ascii) (pos : nat)
    (c : ascii) (rest : text) :
  p c = true -> room hi = true ->
  rep_reading p k (pred lo) (less hi) (Some c) (S pos) rest ->
  rep_reading p k lo hi prev pos (c :: rest).
Proof.
  intros Hp Hr (w & rest' & -> & Hw & Hlo & Hhi & Hk).
  exists (c :: w), rest'. simpl. rewrite Nat.add_succ_r.
  repeat split; auto; [lia|now apply room_fits].
Qed.

Lemma rep_reading_inv (lo : nat) (hi : option nat) (prev : option ascii) (pos : nat)
    (rest : text) :
  rep_reading p k lo hi prev pos rest ->
  (lo = 0 /\ k prev pos rest <> None) \/
  (exists c rest0, rest = c :: rest0 /\ p c = true /\ room hi = true /\
                   rep_reading p k (pred lo) (less hi) (Some c) (S pos) rest0).
Proof.
  intros ([|c w] & rest' & -> & Hw & Hlo & Hhi & Hk); simpl in *.
  - left. rewrite Nat.add_0_r in Hk. split; [lia|exact Hk].
  - right. exists c, (w ++ rest'). inversion Hw; subst.
    apply fits_room in Hhi as [Hr Hf]. rewrite Nat.add_succ_r in Hk.
    repeat split; auto. exists w, rest'. repeat split; auto. lia.
Qed.

Lemma rep_max_reading (lo : nat) (hi : option nat) (prev : option ascii) (pos : nat)
    (rest : text) :
  rep_max p lo hi prev pos rest k <> None <-> rep_reading p k lo hi prev pos rest.
Proof.
  revert lo hi prev pos. induction rest as [|c rest IH]; intros lo hi prev pos.
  - simpl. split.
    + destruct (lo =? 0) eqn:E; [|congruence].
      apply Nat.eqb_eq in E. subst lo. apply rep_reading_stop.
    + intro H. apply rep_reading_inv in H as [[-> Hk]|(c & r0 & Hc & _)];
        [exact Hk|discriminate].
  - cbn [rep_max]. split.
    + destruct (p c && room hi) eqn:Ep.
      * apply andb_true_iff in Ep as [Hp Hr]. intro H.
        apply or_else_some in H as [H|H].
        -- apply IH in H. now apply rep_reading_more.
        -- destruct (lo =? 0) eqn:E; [|congruence].
           apply Nat.eqb_eq in E. subst lo. now apply rep_reading_stop.
      * destruct (lo =? 0) eqn:E; [|congruence].
        apply Nat.eqb_eq in E. subst lo. apply rep_reading_stop.
    + intro H. apply rep_reading_inv in H as [[-> Hk]|(c' & r0 & Hc & Hp & Hr & H)].
      * simpl. destruct (p c && room hi); [|exact Hk].
        apply or_else_some. now right.
      * inversion Hc; subst c' r0. rewrite Hp, Hr. simpl.
        apply or_else_some. left. now apply IH.
Qed.

Lemma rep_min_reading (lo : nat) (hi : option nat) (prev : option ascii) (pos : nat)
    (rest : text) :
  rep_min p lo hi prev pos rest k <> None <-> rep_reading p k lo hi prev pos rest.
Proof.
  revert lo hi prev pos. induction rest as [|c rest IH]; intros lo hi prev pos.
  - cbn [rep_min]. split.
    + intro H. apply or_else_some in H as [H|H]; [|congruence].
      destruct (lo =? 0) eqn:E; [|congruence].
      apply Nat.eqb_eq in E. subst lo. now apply rep_reading_stop.
    + intro H. apply rep_reading_inv in H as [[-> Hk]|(c & r0 & Hc & _)];
        [|discriminate].
      apply or_else_some. now left.
  - cbn [rep_min]. split.
    + intro H. apply or_else_some in H as [H|H].
      * destruct (lo =? 0) eqn:E; [|congruence].
        apply Nat.eqb_eq in E. subst lo. now apply rep_reading_stop.
      * destruct (p c && room hi) eqn:Ep; [|congruence].
        apply andb_true_iff in Ep as [Hp Hr].
        apply IH in H. now apply rep_reading_more.
    + intro H. apply or_else_some.
      apply rep_reading_inv in H as [[-> Hk]|(c' & r0 & Hc & Hp & Hr & H)].
      * now left.
      * right. inversion Hc; subst c' r0. rewrite Hp, Hr. simpl. now apply IH.
Qed.

End Repetition.

(** The backtracking matcher succeeds on a continuation exactly when
    some reading of the pattern leads to a point where the continuation
    succeeds. *)
Lemma run_reads (ic : bool) (R : Type) (r : regex) :
  forall (prev : option ascii) (pos : nat) (rest : text) (ms : marks)
         (k : option ascii -> nat -> text -> marks -> option R),
    run ic r prev pos rest ms k <> None <->
    exists c' ms', reads ic r (Cursor prev pos rest) ms c' ms' /\
                   k (c_prev c') (c_pos c') (c_rest c') ms' <> None.
Proof.
  induction r as [|cs|a IHa b IHb|a IHa b IHb|cs lo hi greedy|a IHa|n a IHa| | |];
    intros prev pos rest ms k; cbn [run reads].
  - split.
    + intro H. exists (Cursor prev pos rest), ms. auto.
    + intros (c' & ms' & [-> ->] & H). exact H.
  - split.
    + destruct rest as [|x rest']; [congruence|].
      destruct (cset_match ic cs x) eqn:E; [|congruence].
      intro H. exists (Cursor (Some x) (S pos) rest'), ms. split; [|exact H].
      exists x, rest'. unfold moved; simpl. rewrite Nat.add_1_r. auto.
    + intros (c' & ms' & (x & rest' & Hr & Hx & -> & ->) & H). simpl in Hr. subst rest.
      rewrite Hx. unfold moved in H; simpl in H. now rewrite Nat.add_1_r in H.
  - rewrite IHa. split.
    + intros ([p1 n1 r1] & m1 & Ha & H). simpl in H.
      apply IHb in H as (c' & ms' & Hb & H).
      exists c', ms'. split; [|exact H]. exists (Cursor p1 n1 r1), m1. auto.
    + intros (c' & ms' & ([p1 n1 r1] & m1 & Ha & Hb) & H).
      exists (Cursor p1 n1 r1), m1. split; [exact Ha|]. simpl.
      apply IHb. exists c', ms'. auto.
  - rewrite or_else_some, IHa, IHb. split.
    + intros [(c' & ms' & Hr & H)|(c' & ms' & Hr & H)]; exists c', ms'; auto.
    + intros (c' & ms' & [Hr|Hr] & H); [left|right]; exists c', ms'; auto.
  - assert (Hrep :
      (if greedy then rep_max (R:=R) else rep_min (R:=R)) (cset_match ic cs) lo hi prev pos rest
        (fun prev' pos' rest' => k prev' pos' rest' ms) <> None <->
      rep_reading (cset_match ic cs) (fun prev' pos' rest' => k prev' pos' rest' ms)
        lo hi prev pos rest).
    { destruct greedy; [apply rep_max_reading|apply rep_min_reading]. }
    rewrite Hrep. unfold rep_reading. split.
    + intros (w & rest' & -> & Hw & Hlo & Hhi & H).
      exists (moved (Cursor prev pos (w ++ rest')) w rest'), ms. split; [|exact H].
      exists w, rest'. simpl. repeat split; auto.
    + intros (c' & ms' & (w & rest' & Hr & Hw & Hlo & Hhi & -> & ->) & H).
      simpl in Hr. exists w, rest'. repeat split; auto.
  - rewrite or_else_some, IHa. split.
    + intros [(c' & ms' & Hr & H)|H].
      * exists c', ms'. auto.
      * exists (Cursor prev pos rest), ms. auto.
    + intros (c' & ms' & [Hr|[-> ->]] & H).
      * left. exists c', ms'. auto.
      * now right.
  - rewrite IHa. split.
    + intros (c' & m1 & Hr & H). exists c', ((n, (pos, c_pos c')) :: m1).
      split; [|exact H]. exists m1. auto.
    + intros (c' & ms' & (m1 & Hr & ->) & H). exists c', m1. auto.
  - split.
    + destruct (at_boundary prev rest) eqn:E; [|congruence].
      intro H. exists (Cursor prev pos rest), ms. auto.
    + intros (c' & ms' & (Hb & -> & ->) & H). simpl in *. now rewrite Hb.
  - split.
    + destruct (pos =? 0) eqn:E; [|congruence]. apply Nat.eqb_eq in E.
      intro H. exists (Cursor prev pos rest), ms. auto.
    + intros (c' & ms' & (Hb & -> & ->) & H). simpl in *. subst pos. exact H.
  - split.
    + destruct (at_end rest) eqn:E; [|congruence].
      intro H. exists (Cursor prev pos rest), ms. auto.
    + intros (c' & ms' & (Hb & -> & ->) & H). simpl in *. now rewrite Hb.
Qed.

(** [pattern.match(s)] succeeds exactly when the pattern has a reading
    from the start of [s]. *)
Lemma pattern_match_reads (ic : bool) (r : regex) (s : text) :
  is_some (pattern_match ic r s) = true <->
  exists c' ms', reads ic r (Cursor None 0 s) [] c' ms'.
Proof.
  unfold pattern_match, match_here.
  assert (H := run_reads ic _ r None 0 s [] (fun _ pos' _ ms => Some (pos', ms))).
  destruct (run ic r None 0 s [] (fun _ pos' _ ms => Some (pos', ms))) as [x|]; simpl.
  - split; [|reflexivity]. intros _.
    destruct (proj1 H) as (c' & ms' & Hr & _); [discriminate|]. eauto.
  - split; [discriminate|]. intros (c' & ms' & Hr). exfalso.
    apply (proj2 H); [|reflexivity]. exists c', ms'. split; [exact Hr|discriminate].
Qed.

(** ** The validators, read as shapes *)

Lemma cset_match_AZ (x : ascii) : cset_match false AZ x = is_capital x.
Proof. unfold AZ, cset_match, item_match_flags, item_match, is_capital. simpl.
  change (code "A") with 65. change (code "Z") with 90. now rewrite orb_false_r. Qed.

Lemma cset_match_sp (x : ascii) : cset_match false sp x = is_space x.
Proof. unfold sp, cset_match, item_match_flags, item_match. simpl.
  now rewrite orb_false_r. Qed.

Lemma cset_match_dg (x : ascii) : cset_match false dg x = is_digit x.
Proof. unfold dg, cset_match, item_match_flags, item_match. simpl.
  now rewrite orb_false_r. Qed.

Lemma cset_match_ch (c x : ascii) : cset_match false (ch c) x = true <-> x = c.
Proof.
  unfold ch, cset_match, item_match_flags, item_match. simpl.
  rewrite orb_false_r. apply ascii_eqb_eq.
Qed.

Lemma Forall_cset (cs : cset) (q : ascii -> bool) (w : text) :
  (forall x, cset_match false cs x = q x) ->
  Forall (fun x => cset_match false cs x = true) w <-> Forall (fun x => q x = true) w.
Proof.
  intro H. split; apply Forall_impl; intros x Hx; [rewrite <- H|rewrite H]; exact Hx.
Qed.

Lemma moved_nil (c : cursor) : moved c [] (c_rest c) = c.
Proof. destruct c. unfold moved; simpl. now rewrite Nat.add_0_r. Qed.

Lemma moved_moved (c : cursor) (w1 w2 r1 r2 : text) :
  moved (moved c w1 r1) w2 r2 = moved c (w1 ++ w2) r2.
Proof.
  unfold moved, last_char; simpl. rewrite fold_left_app, length_app, Nat.add_assoc.
  reflexivity.
Qed.

(** A literal reads itself. *)
Lemma reads_literal (w : text) (c : cursor) (ms : marks) (c' : cursor) (ms' : marks) :
  reads false (seqs (map (fun x => Chr (ch x)) w)) c ms c' ms' <->
  exists rest', c_rest c = w ++ rest' /\ c' = moved c w rest' /\ ms' = ms.
Proof.
  revert c. induction w as [|x w IH]; intro c; cbn [seqs map fold_right reads].
  - split.
    + intros [-> ->]. exists (c_rest c). now rewrite moved_nil.
    + intros (rest' & Hr & -> & ->). simpl in Hr. subst rest'. now rewrite moved_nil.
  - split.
    + intros (c1 & m1 & (y & r1 & Hr & Hy & -> & ->) & H).
      apply cset_match_ch in Hy. subst y.
      apply IH in H as (rest' & Hr1 & -> & ->). simpl in Hr1. subst r1.
      exists rest'. rewrite moved_moved. auto.
    + intros (rest' & Hr & -> & ->).
      exists (moved c [x] (w ++ rest')), ms. split.
      * exists x, (w ++ rest'). repeat split; auto. now apply cset_match_ch.
      * apply IH. exists rest'. rewrite moved_moved. auto.
Qed.

Lemma reads_lit (str : string) (c : cursor) (ms : marks) (c' : cursor) (ms' : marks) :
  reads false (lit str) c ms c' ms' <->
  exists rest', c_rest c = T str ++ rest' /\ c' = moved c (T str) rest' /\ ms' = ms.
Proof. apply reads_literal. Qed.

(** An alternation of literals reads one of them. *)
Lemma reads_alts (ws : list string) (c : cursor) (ms : marks) (c' : cursor) (ms' : marks) :
  ws <> [] ->
  reads false (alts ws) c ms c' ms' <->
  exists w rest', In w ws /\ c_rest c = T w ++ rest' /\ c' = moved c (T w) rest' /\ ms' = ms.
Proof.
  induction ws as [|w ws IH]; [congruence|]. intros _.
  destruct ws as [|w2 ws].
  - cbn [alts]. rewrite reads_lit. split.
    + intros (rest' & H). exists w, rest'. split; [now left|exact H].
    + intros (w' & rest' & [<-|[]] & H). now exists rest'.
  - change (alts (w :: w2 :: ws)) with (Alt (lit w) (alts (w2 :: ws))).
    cbn [reads]. rewrite reads_lit, IH by discriminate. split.
    + intros [(rest' & H)|(w' & rest' & Hin & H)].
      * exists w, rest'. split; [now left|exact H].
      * exists w', rest'. split; [now right|exact H].
    + intros (w' & rest' & [<-|Hin] & H).
      * left. now exists rest'.
      * right. now exists w', rest'.
Qed.

Lemma at_end_optional_newline (rest : text) :
  at_end rest = true <-> optional_newline rest.
Proof.
  unfold at_end, optional_newline. destruct rest as [|c [|d rest]].
  - split; auto.
  - split.
    + intro H. right. f_equal. apply code_inj. apply Nat.eqb_eq in H. exact H.
    + intros [H|H]; [discriminate|]. inversion H. reflexivity.
  - split; [discriminate|]. intros [H|H]; discriminate.
Qed.

(** [^[A-Z]{1,6}$] *)
Lemma symbol_shape (s : text) :
  is_some (pattern_match false _RE_SYMBOL s) = true <-> shape_symbol s.
Proof.
  rewrite pattern_match_reads. unfold _RE_SYMBOL, upto, shape_symbol, capitals_1_6.
  cbn [seqs fold_right reads]. split.
  - intros (c' & ms' & c1 & m1 & (_ & -> & ->) & c2 & m2 &
            (w & r1 & Hs & Hw & Hlo & Hhi & -> & ->) & c3 & m3 &
            (He & -> & ->) & _).
    simpl in *. exists w, r1. rewrite <- (Forall_cset AZ is_capital w cset_match_AZ).
    rewrite <- at_end_optional_newline. auto.
  - intros (sym & nl & -> & [Hc Hl] & Hn).
    apply (Forall_cset AZ is_capital sym cset_match_AZ) in Hc.
    apply at_end_optional_newline in Hn.
    eexists. eexists. eexists. eexists. split; [repeat split|].
    eexists. eexists. split; [exists sym, nl; simpl; repeat split; auto; lia|].
    eexists. eexists. split; [simpl; repeat split; exact Hn|]. split; reflexivity.
Qed.

Lemma months_not_empty : months <> [].
Proof. discriminate. Qed.

Lemma length_one_or_more (w : text) : 1 <= List.length w <-> w <> [].
Proof. destruct w; simpl; split; intro H; try lia; congruence. Qed.

(** [^[A-Z]{1,6}\s+\d{2}-\d{2}$] *)
Lemma mmyy_shape (s : text) :
  is_some (pattern_match false _RE_FUT_MMYY s) = true <-> shape_mmyy s.
Proof.
  rewrite pattern_match_reads.
  unfold _RE_FUT_MMYY, upto, plus_, exactly, shape_mmyy, capitals_1_6, whitespace, two_digits.
  unfold seqs. cbn [fold_right reads]. split.
  - intros (c' & ms' & c1 & m1 & (_ & -> & ->) & c2 & m2 &
            (sym & r1 & Hs & Hsym & Hlo1 & Hhi1 & -> & ->) & c3 & m3 &
            (ws & r2 & Hr1 & Hws & Hlo2 & _ & -> & ->) & c4 & m4 &
            (mm & r3 & Hr2 & Hmm & Hlo3 & Hhi3 & -> & ->) & c5 & m5 &
            Hdash & c6 & m6 &
            (yy & r5 & Hr4 & Hyy & Hlo5 & Hhi5 & -> & ->) & c7 & m7 &
            (He & -> & ->) & _).
    apply reads_lit in Hdash as (r4 & Hr3 & -> & ->).
    cbn [c_rest moved] in Hs, Hr1, Hr2, Hr3, Hr4, He. subst s r1 r2 r3 r4.
    unfold fits in *.
    exists sym, ws, mm, yy, r5.
    rewrite <- (Forall_cset AZ is_capital sym cset_match_AZ).
    rewrite <- (Forall_cset sp is_space ws cset_match_sp).
    rewrite <- (Forall_cset dg is_digit mm cset_match_dg).
    rewrite <- (Forall_cset dg is_digit yy cset_match_dg).
    rewrite <- at_end_optional_newline, <- length_one_or_more.
    repeat split; auto; lia.
  - intros (sym & ws & mm & yy & nl & -> & [Hsym Hl1] & Hws & Hne & [Hmm Hl3] &
            [Hyy Hl5] & Hn).
    apply (Forall_cset AZ is_capital sym cset_match_AZ) in Hsym.
    apply (Forall_cset sp is_space ws cset_match_sp) in Hws.
    apply (Forall_cset dg is_digit mm cset_match_dg) in Hmm.
    apply (Forall_cset dg is_digit yy cset_match_dg) in Hyy.
    apply at_end_optional_newline in Hn. apply length_one_or_more in Hne.
    eexists. eexists. eexists. eexists. split; [repeat split|].
    eexists. eexists. split.
    { exists sym, (ws ++ mm ++ T "-" ++ yy ++ nl). simpl. repeat split; auto; lia. }
    eexists. eexists. split.
    { exists ws, (mm ++ T "-" ++ yy ++ nl). simpl. repeat split; auto. }
    eexists. eexists. split.
    { exists mm, (T "-" ++ yy ++ nl). simpl. repeat split; auto; lia. }
    eexists. eexists. split.
    { apply reads_lit. exists (yy ++ nl). simpl. repeat split; auto. }
    eexists. eexists. split.
    { exists yy, nl. simpl. repeat split; auto; lia. }
    eexists. eexists. split; [simpl; repeat split; exact Hn|]. split; reflexivity.
Qed.

(** [^[A-Z]{1,6}\s+(?:JAN|...|DEC)\s?\d{2}$] *)
Lemma mmmyy_shape (s : text) :
  is_some (pattern_match false _RE_FUT_MMMYY s) = true <-> shape_mmmyy s.
Proof.
  rewrite pattern_match_reads.
  unfold _RE_FUT_MMMYY, upto, plus_, exactly, shape_mmmyy, capitals_1_6, whitespace,
    two_digits, month_abbrev.
  unfold seqs. cbn [fold_right reads]. split.
  - intros (c' & ms' & c1 & m1 & (_ & -> & ->) & c2 & m2 &
            (sym & r1 & Hs & Hsym & Hlo1 & Hhi1 & -> & ->) & c3 & m3 &
            (ws & r2 & Hr1 & Hws & Hlo2 & _ & -> & ->) & c4 & m4 &
            Hmon & c5 & m5 &
            (ws' & r4 & Hr3 & Hws' & _ & Hhi4 & -> & ->) & c6 & m6 &
            (yy & r5 & Hr4 & Hyy & Hlo5 & Hhi5 & -> & ->) & c7 & m7 &
            (He & -> & ->) & _).
    apply (reads_alts months _ _ _ _ months_not_empty) in Hmon
      as (mon & r3 & Hin & Hr2 & -> & ->).
    cbn [c_rest moved] in Hs, Hr1, Hr2, Hr3, Hr4, He. subst s r1 r2 r3 r4.
    unfold fits in *.
    exists sym, ws, (T mon), ws', yy, r5.
    rewrite <- (Forall_cset AZ is_capital sym cset_match_AZ).
    rewrite <- (Forall_cset sp is_space ws cset_match_sp).
    rewrite <- (Forall_cset sp is_space ws' cset_match_sp).
    rewrite <- (Forall_cset dg is_digit yy cset_match_dg).
    rewrite <- at_end_optional_newline, <- length_one_or_more.
    repeat split; auto; try lia. now apply in_map.
  - intros (sym & ws & mon & ws' & yy & nl & -> & [Hsym Hl1] & Hws & Hne & Hmon &
            Hws' & Hl4 & [Hyy Hl5] & Hn).
    apply (Forall_cset AZ is_capital sym cset_match_AZ) in Hsym.
    apply (Forall_cset sp is_space ws cset_match_sp) in Hws.
    apply (Forall_cset sp is_space ws' cset_match_sp) in Hws'.
    apply (Forall_cset dg is_digit yy cset_match_dg) in Hyy.
    apply at_end_optional_newline in Hn. apply length_one_or_more in Hne.
    apply in_map_iff in Hmon as (m & <- & Hin).
    eexists. eexists. eexists. eexists. split; [repeat split|].
    eexists. eexists. split.
    { exists sym, (ws ++ T m ++ ws' ++ yy ++ nl). simpl. repeat split; auto; lia. }
    eexists. eexists. split.
    { exists ws, (T m ++ ws' ++ yy ++ nl). simpl. repeat split; auto. }
    eexists. eexists. split.
    { apply (reads_alts months _ _ _ _ months_not_empty).
      exists m, (ws' ++ yy ++ nl). simpl. repeat split; auto. }
    eexists. eexists. split.
    { exists ws', (yy ++ nl). simpl. repeat split; auto; lia. }
    eexists. eexists. split.
    { exists yy, nl. simpl. repeat split; auto; lia. }
    eexists. eexists. split; [simpl; repeat split; exact Hn|]. split; reflexivity.
Qed.

Lemma matches_validators_shape (s : text) :
  matches_validators s = true <-> accepted_shape s.
Proof.
  unfold matches_validators, accepted_shape.
  rewrite !orb_true_iff, mmmyy_shape, mmyy_shape, symbol_shape. tauto.
Qed.


(** ** The instrument validator *)

(** C8, as amended.  The validator returns its argument unchanged
    exactly when the argument is empty or has one of three shapes, and
    the empty string otherwise: one to six capital letters A-Z, then a
    run of whitespace, a capital month abbreviation, at most one
    whitespace character and two digits; or one to six capitals, a run
    of whitespace, two digits, a dash and two digits; or one to six
    capitals alone; each optionally followed by one newline.  So
    "MNQ DEC25", "ES 03-26" and "AAPL" come back unchanged, and "2025",
    '' and "ABCDEFG" come back empty. *)
Theorem validate_instrument_by_shape :
  (forall s,
     (accepted_shape s -> validate_instrument s = s) /\
     (~ accepted_shape s -> validate_instrument s = []) /\
     (validate_instrument s = s <-> s = [] \/ accepted_shape s)) /\
  validate_instrument (T "MNQ DEC25") = T "MNQ DEC25" /\
  validate_instrument (T "ES 03-26") = T "ES 03-26" /\
  validate_instrument (T "AAPL") = T "AAPL" /\
  validate_instrument (T "2025") = [] /\
  validate_instrument [] = [] /\
  validate_instrument (T "ABCDEFG") = [].
Proof.
  split; [|repeat split; vm_compute; reflexivity].
  intro s.
  assert (Hyes : accepted_shape s -> validate_instrument s = s).
  { intro H. unfold validate_instrument. destruct s as [|c s]; [reflexivity|].
    apply matches_validators_shape in H. now rewrite H. }
  assert (Hno : ~ accepted_shape s -> validate_instrument s = []).
  { intro H. unfold validate_instrument. destruct s as [|c s]; [reflexivity|].
    destruct (matches_validators (c :: s)) eqn:E; [|reflexivity].
    apply matches_validators_shape in E. contradiction. }
  split; [exact Hyes|]. split; [exact Hno|]. split.
  - intro H. destruct s as [|c s]; [now left|]. right.
    apply matches_validators_shape.
    unfold validate_instrument in H.
    destruct (matches_validators (c :: s)); [reflexivity|discriminate].
  - intros [->|H]; [reflexivity|now apply Hyes].
Qed.

Lemma validate_instrument_by_shape_witness :
  accepted_shape (T "AAPL") /\ validate_instrument (T "AAPL") = T "AAPL".
Proof.
  assert (H : accepted_shape (T "AAPL")).
  { right; right. exists (T "AAPL"), []. split; [reflexivity|]. split.
    - split; [repeat constructor|simpl; lia].
    - now left. }
  split; [exact H|].
  exact (proj1 (proj1 validate_instrument_by_shape (T "AAPL")) H).
Defined.

(** C8, as stated, fails: "aapl" is one to six letters alone, and the
    validator, whose patterns are compiled without [re.IGNORECASE],
    maps it to the empty string. *)
Lemma lower_case_symbol_rejected :
  spec_shape_symbol (T "aapl") /\
  validate_instrument (T "aapl") = [] /\
  validate_instrument (T "aapl") <> T "aapl".
Proof.
  split; [split; [repeat constructor|simpl; lia]|].
  split; [vm_compute; reflexivity|]. vm_compute. discriminate.
Qed.

(** The separators are [\s+] and [\s?], and [$] also matches before a
    final newline: these come back unchanged as well. *)
Lemma validator_accepts_whitespace_runs :
  validate_instrument (T "MNQ  DEC 25") = T "MNQ  DEC 25" /\
  validate_instrument (T "AAPL" ++ [newline]) = T "AAPL" ++ [newline] /\
  validate_instrument (T "ES" ++ [ascii_of_nat 9] ++ T "03-26")
  = T "ES" ++ [ascii_of_nat 9] ++ T "03-26".
Proof. repeat split; vm_compute; reflexivity. Qed.

(** The validator is idempotent. *)
Lemma validate_instrument_idempotent (s : text) :
  validate_instrument (validate_instrument s) = validate_instrument s.
Proof.
  destruct s as [|c s]; [reflexivity|]. unfold validate_instrument.
  destruct (matches_validators (c :: s)) eqn:E; [now rewrite E|reflexivity].
Qed.

(** * Further properties *)

(** ** The table as a dictionary *)

Lemma keys_store (k : table_key) (v : StrategyStatus) (t : table) :
  keys (store k v t) = if is_some (lookup k t) then keys t else keys t ++ [k].
Proof.
  induction t as [|[k0 v0] t IH]; simpl; [reflexivity|].
  destruct (key_eqb k0 k) eqn:E; simpl.
  - apply key_eqb_eq in E. now subst k0.
  - rewrite IH. now destruct (lookup k t).
Qed.

Lemma lookup_none_keys (k : table_key) (t : table) :
  lookup k t = None <-> ~ In k (keys t).
Proof.
  induction t as [|[k0 v0] t IH]; simpl.
  - split; auto.
  - destruct (key_eqb k0 k) eqn:E.
    + apply key_eqb_eq in E. split; [discriminate|]. intro H. exfalso. apply H. now left.
    + apply key_eqb_neq in E. rewrite IH. split.
      * intros H [H'|H']; auto.
      * intros H H'. apply H. now right.
Qed.

Lemma store_keeps_distinct (k : table_key) (v : StrategyStatus) (t : table) :
  NoDup (keys t) -> NoDup (keys (store k v t)).
Proof.
  intro H. rewrite keys_store. destruct (lookup k t) eqn:E; simpl; [exact H|].
  apply lookup_none_keys in E.
  apply NoDup_rev in H. rewrite <- (rev_involutive (keys t ++ [k])).
  apply NoDup_rev. rewrite rev_app_distr. simpl. constructor; [|exact H].
  now rewrite <- in_rev.
Qed.

Lemma lookup_In (k : table_key) (v : StrategyStatus) (t : table) :
  NoDup (keys t) -> (lookup k t = Some v <-> In (k, v) t).
Proof.
  induction t as [|[k0 v0] t IH]; simpl; intro Hd.
  - split; [discriminate|contradiction].
  - inversion Hd as [|? ? Hnin Hd']; subst.
    destruct (key_eqb k0 k) eqn:E.
    + apply key_eqb_eq in E. subst k0. split.
      * intro H. inversion H. now left.
      * intros [H|H]; [congruence|]. exfalso. apply Hnin.
        unfold keys. apply in_map_iff. now exists (k, v).
    + apply key_eqb_neq in E. rewrite (IH Hd'). split; [now right|].
      intros [H|H]; [inversion H; congruence|exact H].
Qed.

Lemma store_consistent (v : StrategyStatus) (t : table) :
  name v <> [] -> table_consistent t ->
  table_consistent (store (name v, instrument v) v t).
Proof.
  intros Hn [Hd Hk]. split; [now apply store_keeps_distinct|].
  intros k w Hin. apply store_In in Hin as [Heq|Hin]; [|now apply Hk].
  inversion Heq; subst. auto.
Qed.

Lemma reconcile_consistent (s : monitor) (raw_line : text) (o : outcome) :
  (forall r, o = Extracted r -> name r <> []) ->
  table_consistent (statuses s) -> table_consistent (statuses (reconcile s raw_line o)).
Proof.
  intros Ho Ht. destruct o as [|e| |r]; simpl; try exact Ht.
  destruct (changed _ _ _ _); [|exact Ht].
  unfold apply_change, key_of_record; simpl. apply store_consistent; auto.
Qed.

Lemma monitor_step_consistent (cfg : config) (s : monitor) (raw_line : text) :
  table_consistent (statuses s) -> table_consistent (statuses (monitor_step cfg s raw_line)).
Proof.
  rewrite monitor_step_extract. apply reconcile_consistent.
  intros r Hr. exact (extracted_name_nonempty cfg raw_line r Hr).
Qed.

Lemma truthy_not_empty (x : option text) : truthy x = true -> or_empty x <> [].
Proof. destruct x as [[|c s]|]; simpl; intro H; discriminate. Qed.

Lemma build_initial_consistent (lines : list text) (ps : pattern_set)
    (subs : list text) (acc t : table) :
  table_consistent acc ->
  build_initial_statuses lines ps subs acc = Ok t -> table_consistent t.
Proof.
  revert acc. induction lines as [|l lines IH]; intros acc Hacc; cbn [build_initial_statuses].
  - intro H. inversion H; subst. exact Hacc.
  - destruct l as [|c l]; [now apply IH|].
    destruct (negb (requires_any (c :: l) subs)); [now apply IH|].
    destruct (parse_with_patterns (c :: l) ps) as [[matched st0]|e]; cbn [bind]; [|discriminate].
    destruct matched; cbn [negb]; [|now apply IH].
    destruct (fill_missing_fields (c :: l) st0 ps) as [st|e]; cbn [bind]; [|discriminate].
    destruct (truthy (s_name st)) eqn:Et; cbn [negb]; [|now apply IH].
    apply IH.
    apply (store_consistent
             (mkStrategyStatus (get_or_empty FName st) (get_or_empty FInstrument st)
                (enabled_of st) (get_or_empty FConnection st) (get_or_empty FAccount st)));
      [|exact Hacc].
    simpl. unfold get_or_empty. simpl. now apply truthy_not_empty.
Qed.

Lemma update_consistent (t initial : table) :
  table_consistent t -> table_consistent initial -> table_consistent (update t initial).
Proof.
  unfold update. revert t. induction initial as [|[k v] initial IH]; intros t Ht Hi; simpl;
    [exact Ht|].
  destruct Hi as [Hd Hk]. inversion Hd; subst.
  destruct (Hk k v (or_introl eq_refl)) as [-> Hn].
  apply IH.
  - now apply store_consistent.
  - split; [assumption|]. intros k' w Hin. apply Hk. now right.
Qed.

Lemma empty_table_consistent : table_consistent [].
Proof. split; [constructor|]. intros k v []. Qed.

Lemma initial_snapshot_consistent (cfg : config) (tail : list text) :
  table_consistent (statuses (initial_snapshot cfg tail)).
Proof.
  unfold initial_snapshot.
  destruct (build_initial_statuses tail (patterns cfg) (match_strategies cfg) [])
    as [initial|e] eqn:E; simpl; [|apply empty_table_consistent].
  apply update_consistent; [apply empty_table_consistent|].
  eapply build_initial_consistent; [apply empty_table_consistent|exact E].
Qed.

Lemma fold_consistent (cfg : config) (live : list text) (s : monitor) :
  table_consistent (statuses s) ->
  table_consistent (statuses (fold_left (monitor_step cfg) live s)).
Proof.
  revert s. induction live as [|l live IH]; intros s Hs; simpl; [exact Hs|].
  apply IH. now apply monitor_step_consistent.
Qed.

(** X1. At every point of a run each key of the status table occurs
    once, is the [(name, instrument)] pair of the record stored under
    it, and that record has a non-empty name and is what a lookup of
    the key returns. *)
Theorem table_keys_match_records (cfg : config) (tail live : list text) :
  let t := statuses (run_strategy_status_monitor cfg tail live) in
  NoDup (keys t) /\
  forall k v, In (k, v) t ->
    k = (name v, instrument v) /\ name v <> [] /\ lookup k t = Some v.
Proof.
  intro t.
  assert (Ht : table_consistent t).
  { apply fold_consistent, initial_snapshot_consistent. }
  destruct Ht as [Hd Hk]. split; [exact Hd|].
  intros k v Hin. destruct (Hk k v Hin) as [Hkey Hn].
  repeat split; auto. now apply lookup_In.
Qed.

(** ** What a run leaves behind *)

Lemma last_snapshot_app (a b : list event) :
  last_snapshot (a ++ b) =
  match last_snapshot b with Some l => Some l | None => last_snapshot a end.
Proof.
  induction a as [|e a IH]; simpl.
  - now destruct (last_snapshot b).
  - rewrite IH. now destruct (last_snapshot b).
Qed.

Lemma reconcile_snapshot_current (s : monitor) (raw_line : text) (o : outcome) :
  match last_snapshot (output s) with
  | Some l => l = statuses_to_json (statuses s)
  | None => statuses s = []
  end ->
  match last_snapshot (output (reconcile s raw_line o)) with
  | Some l => l = statuses_to_json (statuses (reconcile s raw_line o))
  | None => statuses (reconcile s raw_line o) = []
  end.
Proof.
  intro H. destruct o as [|e| |r]; simpl; try exact H;
    try (rewrite last_snapshot_app; simpl; exact H).
  destruct (changed _ _ _ _); [|exact H].
  unfold apply_change, change_events; simpl. rewrite last_snapshot_app. reflexivity.
Qed.

(** X2. Whenever a snapshot has been written during a run, the one
    written last is the serialisation of the table as it stands; as
    long as none has been written (the backfill failed and no change
    was seen since) the table is empty. *)
Theorem last_snapshot_is_current (cfg : config) (tail live : list text) :
  let s := run_strategy_status_monitor cfg tail live in
  match last_snapshot (output s) with
  | Some l => l = statuses_to_json (statuses s)
  | None => statuses s = []
  end.
Proof.
  unfold run_strategy_status_monitor.
  assert (H0 : match last_snapshot (output (initial_snapshot cfg tail)) with
               | Some l => l = statuses_to_json (statuses (initial_snapshot cfg tail))
               | None => statuses (initial_snapshot cfg tail) = []
               end).
  { unfold initial_snapshot.
    destruct (build_initial_statuses tail (patterns cfg) (match_strategies cfg) []);
      reflexivity. }
  revert H0. generalize (initial_snapshot cfg tail). intro s. revert s.
  induction live as [|l live IH]; intros s Hs; simpl; [exact Hs|].
  apply IH. rewrite monitor_step_extract. now apply reconcile_snapshot_current.
Qed.

Lemma reconcile_counts (s : monitor) (raw_line : text) (o : outcome) :
  let s' := reconcile s raw_line o in
  exists n, n <= 1 /\
    count_changes (output s') = count_changes (output s) + n /\
    count_snapshots (output s') = count_snapshots (output s) + n /\
    count_publishes (output s') = count_publishes (output s) + n.
Proof.
  unfold count_changes, count_snapshots, count_publishes.
  destruct o as [|e| |r]; simpl.
  - exists 0. repeat split; lia.
  - exists 0. rewrite !filter_app, !length_app; simpl. repeat split; lia.
  - exists 0. rewrite !filter_app, !length_app; simpl. repeat split; lia.
  - destruct (changed _ _ _ _).
    + exists 1. unfold apply_change, change_events; simpl.
      rewrite !filter_app, !length_app; simpl. repeat split; lia.
    + exists 0. repeat split; lia.
Qed.

Lemma fold_counts (cfg : config) (live : list text) (s : monitor) :
  let s' := fold_left (monitor_step cfg) live s in
  exists n, n <= List.length live /\
    count_changes (output s') = count_changes (output s) + n /\
    count_snapshots (output s') = count_snapshots (output s) + n /\
    count_publishes (output s') = count_publishes (output s) + n.
Proof.
  revert s. induction live as [|l live IH]; intro s; simpl.
  - exists 0. repeat split; lia.
  - destruct (IH (monitor_step cfg s l)) as (n & Hn & Hc & Hs & Hp).
    rewrite monitor_step_extract in *.
    destruct (reconcile_counts s l (extract cfg l)) as (m & Hm & Hc' & Hs' & Hp').
    cbv zeta in *. exists (m + n). repeat split; lia.
Qed.

(** X3. Over a run every change notice comes with one snapshot write
    and one publish call: the publish calls are as many as the change
    notices, the snapshot writes one more when the backfill succeeded,
    and there is at most one change per line read. *)
Theorem one_snapshot_and_publish_per_change (cfg : config) (tail live : list text) :
  let s0 := initial_snapshot cfg tail in
  let s := run_strategy_status_monitor cfg tail live in
  count_publishes (output s) = count_changes (output s) /\
  count_snapshots (output s) = count_changes (output s) + count_snapshots (output s0) /\
  count_snapshots (output s0) <= 1 /\
  count_changes (output s) <= List.length live.
Proof.
  unfold run_strategy_status_monitor. cbv zeta.
  assert (H0 : count_publishes (output (initial_snapshot cfg tail)) = 0 /\
               count_changes (output (initial_snapshot cfg tail)) = 0 /\
               count_snapshots (output (initial_snapshot cfg tail)) <= 1).
  { unfold initial_snapshot.
    destruct (build_initial_statuses tail (patterns cfg) (match_strategies cfg) []);
      simpl; repeat split; auto. }
  destruct H0 as (Hp0 & Hc0 & Hs0).
  destruct (fold_counts cfg live (initial_snapshot cfg tail)) as (n & Hn & Hc & Hs & Hp).
  cbv zeta in *. repeat split; lia.
Qed.

(** ** What one line does to the table *)

Lemma changed_false_same_state (t : table) (r : StrategyStatus) :
  table_consistent t ->
  changed (lookup (key_of_record r) t) (enabled r) (connection r) (instrument r) = false ->
  exists p, lookup (key_of_record r) t = Some p /\ same_state p r.
Proof.
  intros [Hd Hk] Hc. unfold changed in Hc.
  destruct (lookup (key_of_record r) t) as [p|] eqn:E; [|discriminate].
  exists p. split; [reflexivity|].
  apply orb_false_iff in Hc as [Hc Hi]. apply orb_false_iff in Hc as [He Hc].
  apply negb_false_iff in He, Hc, Hi.
  apply Bool.eqb_prop in He. apply text_eqb_eq in Hc, Hi.
  apply (lookup_In _ _ _ Hd) in E. destruct (Hk _ _ E) as [Hkey _].
  unfold key_of_record in Hkey. injection Hkey as Hn _.
  unfold same_state. repeat split; congruence.
Qed.

(** X4. On a consistent table, a line from which a record is extracted
    leaves under that record's key a record with the same name,
    instrument, enabled flag and connection, and leaves every other key
    as it was; a line from which nothing is extracted leaves the whole
    table as it was. *)
Theorem line_updates_only_its_key (cfg : config) (s : monitor) (raw_line : text) :
  table_consistent (statuses s) ->
  match extract cfg raw_line with
  | Extracted r =>
      (exists r', lookup (key_of_record r) (statuses (monitor_step cfg s raw_line)) = Some r'
                  /\ same_state r' r) /\
      (forall k, k <> key_of_record r ->
                 lookup k (statuses (monitor_step cfg s raw_line)) = lookup k (statuses s))
  | _ => statuses (monitor_step cfg s raw_line) = statuses s
  end.
Proof.
  intro Ht. rewrite monitor_step_extract.
  destruct (extract cfg raw_line) as [|e| |r]; try reflexivity.
  simpl. destruct (changed _ _ _ _) eqn:Ec.
  - unfold apply_change; simpl. split.
    + exists r. rewrite lookup_store_same. repeat split; reflexivity.
    + intros k Hk. now apply lookup_store_other.
  - split; [|reflexivity]. now apply changed_false_same_state.
Qed.

Lemma line_updates_only_its_key_witness :
  table_consistent (statuses empty_monitor) /\
  exists r', lookup (key_of_record record_alpha)
               (statuses (monitor_step default_config empty_monitor line_alpha)) = Some r'
             /\ same_state r' record_alpha.
Proof.
  assert (Ht : table_consistent (statuses empty_monitor)).
  { split; [constructor|]. intros k v []. }
  split; [exact Ht|].
  assert (H := line_updates_only_its_key default_config empty_monitor line_alpha Ht).
  assert (Hx : extract default_config line_alpha = Extracted record_alpha)
    by (vm_compute; reflexivity).
  rewrite Hx in H. exact (proj1 H).
Defined.

Lemma reconcile_keeps_keys (s : monitor) (raw_line : text) (o : outcome) (k : table_key) :
  lookup k (statuses s) <> None -> lookup k (statuses (reconcile s raw_line o)) <> None.
Proof.
  intro H. destruct o as [|e| |r]; simpl; try exact H.
  destruct (changed _ _ _ _); [|exact H].
  unfold apply_change; simpl.
  destruct (key_eqb (key_of_record r) k) eqn:E.
  - apply key_eqb_eq in E. subst k. rewrite lookup_store_same. discriminate.
  - apply key_eqb_neq in E. rewrite lookup_store_other; auto.
Qed.

Lemma reconcile_length (s : monitor) (raw_line : text) (o : outcome) :
  List.length (statuses s) <= List.length (statuses (reconcile s raw_line o))
  <= S (List.length (statuses s)).
Proof.
  destruct o as [|e| |r]; simpl; try lia.
  destruct (changed _ _ _ _); [|lia].
  unfold apply_change; simpl. rewrite store_length.
  destruct (is_some _); lia.
Qed.

(** X5. The loop never removes a record: a key present in the table
    stays present whatever lines follow, and the table grows by at most
    one record per line. *)
Theorem records_are_never_dropped (cfg : config) (live : list text) (s : monitor)
    (k : table_key) :
  lookup k (statuses s) <> None ->
  lookup k (statuses (fold_left (monitor_step cfg) live s)) <> None /\
  List.length (statuses s) <= List.length (statuses (fold_left (monitor_step cfg) live s))
  <= List.length (statuses s) + List.length live.
Proof.
  revert s. induction live as [|l live IH]; intros s Hk; simpl.
  - split; [exact Hk|lia].
  - assert (Hk' : lookup k (statuses (monitor_step cfg s l)) <> None).
    { rewrite monitor_step_extract. now apply reconcile_keeps_keys. }
    destruct (IH _ Hk') as [H1 H2]. split; [exact H1|].
    assert (Hl := reconcile_length s l (extract cfg l)).
    rewrite <- monitor_step_extract in Hl. lia.
Qed.

Lemma records_are_never_dropped_witness :
  lookup (T "alpha", []) (statuses monitor_alpha_other_account) <> None /\
  lookup (T "alpha", [])
    (statuses (fold_left (monitor_step default_config) [line_foo; line_mixed]
                 monitor_alpha_other_account)) <> None.
Proof.
  assert (H : lookup (T "alpha", []) (statuses monitor_alpha_other_account) <> None)
    by (vm_compute; discriminate).
  split; [exact H|].
  exact (proj1 (records_are_never_dropped default_config [line_foo; line_mixed]
                  monitor_alpha_other_account (T "alpha", []) H)).
Defined.

Lemma extract_not_passing (subs : list text) (ps : pattern_set) (raw_line : text) :
  passes subs raw_line = false -> extract (Config subs ps) raw_line = Skipped.
Proof.
  unfold passes, extract. cbn [match_strategies].
  destruct raw_line as [|c l]; [reflexivity|]. now intros ->.
Qed.

Lemma fold_passing (cfg : config) (live : list text) (s : monitor) :
  fold_left (monitor_step cfg) (filter (passes (match_strategies cfg)) live) s =
  fold_left (monitor_step cfg) live s.
Proof.
  revert s. induction live as [|l live IH]; intro s; [reflexivity|].
  cbn [filter]. destruct (passes (match_strategies cfg) l) eqn:E; cbn [fold_left].
  - apply IH.
  - rewrite IH. f_equal. rewrite monitor_step_extract.
    destruct cfg as [subs ps]. cbn [match_strategies] in E.
    now rewrite (extract_not_passing _ _ _ E).
Qed.

(** ** The backfill and the live loop *)

Lemma build_initial_step (l : text) (lines : list text) (ps : pattern_set)
    (subs : list text) (acc : table) :
  build_initial_statuses (l :: lines) ps subs acc =
  match extract (Config subs ps) l with
  | Skipped | Nameless => build_initial_statuses lines ps subs acc
  | Failed e => Raise e
  | Extracted r => build_initial_statuses lines ps subs (store (key_of_record r) r acc)
  end.
Proof.
  cbn [build_initial_statuses]. unfold extract. cbn [match_strategies patterns].
  destruct l as [|c l]; [reflexivity|].
  destruct (negb (requires_any (c :: l) subs)); [reflexivity|].
  destruct (parse_with_patterns (c :: l) ps) as [[matched st0]|e] eqn:Ep; cbn [bind];
    [|reflexivity].
  destruct matched; cbn [negb]; [|reflexivity].
  destruct (fill_missing_fields (c :: l) st0 ps) as [st|e] eqn:Ef; cbn [bind]; [|reflexivity].
  destruct (truthy (s_name st)); cbn [negb]; [|reflexivity].
  assert (Hi : get_or_empty FInstrument st = []).
  { eapply fill_missing_fields_clears; [|exact Ef]. eapply parse_drawn; exact Ep. }
  unfold key_of_record, record_of. cbn [name instrument]. rewrite Hi.
  reflexivity.
Qed.

Lemma store_same_entry (k : table_key) (v w : StrategyStatus) (t u : table) :
  Forall2 same_entry t u -> same_state v w ->
  Forall2 same_entry (store k v t) (store k w u).
Proof.
  intros H Hv. induction H as [|[k1 v1] [k2 v2] t u [Hk Hs] H IH]; simpl.
  - constructor; [|constructor]. split; [reflexivity|exact Hv].
  - simpl in Hk. subst k2. destruct (key_eqb k1 k).
    + constructor; [|exact H]. split; [reflexivity|exact Hv].
    + constructor; [|exact IH]. split; [reflexivity|exact Hs].
Qed.

Lemma store_same_entry_known (k : table_key) (v p : StrategyStatus) (t u : table) :
  Forall2 same_entry t u -> lookup k u = Some p -> same_state v p ->
  Forall2 same_entry (store k v t) u.
Proof.
  intros H Hl Hv. induction H as [|[k1 v1] [k2 v2] t u [Hk Hs] H IH]; simpl in *.
  - discriminate.
  - subst k2. destruct (key_eqb k1 k) eqn:E.
    + apply key_eqb_eq in E. subst k1. inversion Hl; subst p.
      constructor; [|exact H]. split; [reflexivity|exact Hv].
    + constructor; [|now apply IH]. split; [reflexivity|exact Hs].
Qed.

Lemma same_state_sym (a b : StrategyStatus) : same_state a b -> same_state b a.
Proof. unfold same_state. intuition congruence. Qed.

Lemma backfill_follows_loop (ps : pattern_set) (subs lines : list text)
    (acc t : table) (s : monitor) :
  table_consistent (statuses s) ->
  Forall2 same_entry acc (statuses s) ->
  build_initial_statuses lines ps subs acc = Ok t ->
  Forall2 same_entry t (statuses (fold_left (monitor_step (Config subs ps)) lines s)).
Proof.
  revert acc s. induction lines as [|l lines IH]; intros acc s Hc Hs.
  - simpl. intro H. inversion H; subst. exact Hs.
  - rewrite build_initial_step. cbn [fold_left].
    assert (Hc' := monitor_step_consistent (Config subs ps) s l Hc).
    revert Hc'. rewrite monitor_step_extract.
    destruct (extract (Config subs ps) l) as [|e| |r]; cbn [reconcile]; intros Hc' Hb;
      try discriminate; try (now apply (IH acc)).
    destruct (changed _ _ _ _) eqn:E.
    + apply (IH (store (key_of_record r) r acc) _ Hc'); [|exact Hb].
      unfold apply_change; cbn [statuses].
      apply store_same_entry; [exact Hs|]. repeat split; reflexivity.
    + apply (IH (store (key_of_record r) r acc) _ Hc'); [|exact Hb].
      destruct (changed_false_same_state _ _ Hc E) as [p [Hl Hp]].
      apply (store_same_entry_known _ _ p); [exact Hs|exact Hl|].
      now apply same_state_sym.
Qed.

(** X7. When the backfill over some lines succeeds, its table has the
    same keys in the same order as the table the live loop builds from
    the same lines, and under each key the two records agree in name,
    instrument, enabled flag and connection. *)
Theorem backfill_agrees_with_live_loop (ps : pattern_set) (subs lines : list text)
    (t : table) :
  build_initial_statuses lines ps subs [] = Ok t ->
  Forall2 same_entry t
    (statuses (fold_left (monitor_step (Config subs ps)) lines empty_monitor)).
Proof.
  apply backfill_follows_loop.
  - apply empty_table_consistent.
  - constructor.
Qed.

(** X8. Over the lines of the tail, the loop of
    [build_initial_statuses] raises exactly when extraction raises on
    some line, whatever it has collected so far; the exception is that
    of the first such line.  No table is returned then, so the records
    of the lines before it are lost with it. *)
Theorem backfill_fails_as_a_whole (ps : pattern_set) (subs lines : list text)
    (acc : table) (e : exn) :
  build_initial_statuses lines ps subs acc = Raise e <->
  exists before l after,
    lines = before ++ l :: after /\
    extract (Config subs ps) l = Failed e /\
    forall x, In x before -> forall e', extract (Config subs ps) x <> Failed e'.
Proof.
  revert acc. induction lines as [|l lines IH]; intro acc.
  - simpl. split; [discriminate|]. intros (b & x & a & H & _). now destruct b.
  - rewrite build_initial_step. split.
    + intro H. destruct (extract (Config subs ps) l) as [|e0| |r] eqn:E.
      * apply IH in H as (b & x & a & -> & Hx & Hb). exists (l :: b), x, a.
        split; [reflexivity|]. split; [exact Hx|].
        intros y [<-|Hy] e'; [congruence|now apply Hb].
      * inversion H; subst e0. exists [], l, lines. split; [reflexivity|].
        split; [exact E|]. intros y [].
      * apply IH in H as (b & x & a & -> & Hx & Hb). exists (l :: b), x, a.
        split; [reflexivity|]. split; [exact Hx|].
        intros y [<-|Hy] e'; [congruence|now apply Hb].
      * apply IH in H as (b & x & a & -> & Hx & Hb). exists (l :: b), x, a.
        split; [reflexivity|]. split; [exact Hx|].
        intros y [<-|Hy] e'; [congruence|now apply Hb].
    + intros (b & x & a & Hl & Hx & Hb). destruct b as [|y b]; simpl in Hl.
      * inversion Hl; subst. now rewrite Hx.
      * inversion Hl; subst y lines.
        assert (Hy := Hb l (or_introl eq_refl)).
        assert (Hr : build_initial_statuses (b ++ x :: a) ps subs
                       (match extract (Config subs ps) l with
                        | Extracted r => store (key_of_record r) r acc
                        | _ => acc end) = Raise e).
        { apply IH. exists b, x, a. split; [reflexivity|]. split; [exact Hx|].
          intros z Hz. apply Hb. now right. }
        destruct (extract (Config subs ps) l) as [|e0| |r]; try exact Hr.
        now destruct (Hy e0).
Qed.

Lemma backfill_agrees_with_live_loop_witness :
  build_initial_statuses [line_alpha; line_foo] DEFAULT_PATTERNS [] [] =
    Ok [(key_of_record record_alpha, record_alpha); (key_of_record record_foo, record_foo)] /\
  Forall2 same_entry
    [(key_of_record record_alpha, record_alpha); (key_of_record record_foo, record_foo)]
    (statuses (fold_left (monitor_step (Config [] DEFAULT_PATTERNS)) [line_alpha; line_foo]
                 empty_monitor)).
Proof.
  assert (H : build_initial_statuses [line_alpha; line_foo] DEFAULT_PATTERNS [] [] =
    Ok [(key_of_record record_alpha, record_alpha); (key_of_record record_foo, record_foo)])
    by (vm_compute; reflexivity).
  split; [exact H|].
  exact (backfill_agrees_with_live_loop DEFAULT_PATTERNS [] [line_alpha; line_foo] _ H).
Defined.

Lemma build_initial_passing (lines : list text) (ps : pattern_set) (subs : list text)
    (acc : table) :
  build_initial_statuses (filter (passes subs) lines) ps subs acc =
  build_initial_statuses lines ps subs acc.
Proof.
  revert acc. induction lines as [|l lines IH]; intro acc; [reflexivity|].
  cbn [filter]. destruct (passes subs l) eqn:E.
  - rewrite !build_initial_step. destruct (extract (Config subs ps) l); auto.
  - rewrite IH. rewrite (build_initial_step l). now rewrite (extract_not_passing _ _ _ E).
Qed.

(** X6. The allow-list acts as a filter on the input: removing from
    the tail and from the live lines every empty line and every line
    that fails the allow-list gives the same table and the same
    output. *)
Theorem allow_list_acts_as_filter (cfg : config) (tail live : list text) :
  run_strategy_status_monitor cfg
    (filter (passes (match_strategies cfg)) tail)
    (filter (passes (match_strategies cfg)) live) =
  run_strategy_status_monitor cfg tail live.
Proof.
  unfold run_strategy_status_monitor. rewrite fold_passing. f_equal.
  unfold initial_snapshot. now rewrite build_initial_passing.
Qed.

(** ** Where the fields of a record come from *)

Lemma part_of_refl (s : text) : part_of s s.
Proof. exists [], []. now rewrite app_nil_r. Qed.

Lemma part_of_nil (s : text) : part_of [] s.
Proof. exists [], s. reflexivity. Qed.

Lemma part_of_trans (a b c : text) : part_of a b -> part_of b c -> part_of a c.
Proof.
  intros (p & q & ->) (p' & q' & ->). exists (p' ++ p), (q ++ q').
  now rewrite <- !app_assoc.
Qed.

Lemma part_of_firstn (n : nat) (s : text) : part_of (firstn n s) s.
Proof. exists [], (skipn n s). simpl. now rewrite firstn_skipn. Qed.

Lemma part_of_skipn (n : nat) (s : text) : part_of (skipn n s) s.
Proof. exists (firstn n s), []. now rewrite app_nil_r, firstn_skipn. Qed.

Lemma part_of_slice (s : text) (a b : nat) : part_of (slice s a b) s.
Proof.
  unfold slice. eapply part_of_trans; [apply part_of_firstn|apply part_of_skipn].
Qed.

Lemma lstrip_suffix (p : ascii -> bool) (s : text) :
  exists skipped, s = skipped ++ lstrip p s /\ forallb p skipped = true.
Proof.
  induction s as [|c s (k & IH & Hk)]; simpl.
  - exists []. split; reflexivity.
  - destruct (p c) eqn:E.
    + exists (c :: k). simpl. rewrite E, Hk. split; [now rewrite <- IH|reflexivity].
    + exists []. split; reflexivity.
Qed.

Lemma strip_by_split (p : ascii -> bool) (s : text) :
  exists l r, s = l ++ strip_by p s ++ r /\ forallb p l = true /\ forallb p r = true.
Proof.
  unfold strip_by.
  destruct (lstrip_suffix p s) as (l & Hl & Hpl).
  destruct (lstrip_suffix p (rev (lstrip p s))) as (r & Hr & Hpr).
  exists l, (rev r). split; [|split; [exact Hpl|]].
  - rewrite <- rev_app_distr, <- Hr, rev_involutive. exact Hl.
  - rewrite forallb_forall in *. intros x Hx. apply Hpr. now apply in_rev.
Qed.

Lemma part_of_strip_by (p : ascii -> bool) (s : text) : part_of (strip_by p s) s.
Proof. destruct (strip_by_split p s) as (l & r & H & _). now exists l, r. Qed.

Lemma part_of_before_first (sep : ascii) (s : text) : part_of (before_first sep s) s.
Proof.
  exists []. simpl. induction s as [|c s [after IH]]; simpl.
  - now exists [].
  - destruct (ascii_eqb c sep).
    + now exists (c :: s).
    + exists after. simpl. now f_equal.
Qed.

Lemma part_of_group_text (m : match_obj) (k : string) : part_of (group_text m k) (m_string m).
Proof.
  unfold group_text. eapply part_of_trans; [apply part_of_strip_by|].
  destruct (get_mark k (m_marks m)) as [[a b]|]; simpl;
    [apply part_of_slice|apply part_of_nil].
Qed.

Lemma fields_all_set_field (P : text -> Prop) (st : status) (f : field) (v : text) :
  fields_all P st -> P v -> fields_all P (set_field f v st).
Proof.
  intros Hst Hv g w Hg.
  destruct f, g; simpl in Hg;
    try (inversion Hg; subst; exact Hv);
    first [ exact (Hst FName w Hg) | exact (Hst FInstrument w Hg)
          | exact (Hst FConnection w Hg) | exact (Hst FAccount w Hg) ].
Qed.

Lemma fields_all_collected (P : text -> Prop) (m : match_obj) (ks : list field)
    (gd : status) :
  (forall k, P (group_text m k)) -> fields_all P gd -> fields_all P (collected m ks gd).
Proof.
  intro Hm. revert gd. induction ks as [|k ks IH]; intros gd Hgd; simpl; [exact Hgd|].
  destruct (in_groupdict m (key_of k)); [|now apply IH].
  apply IH. now apply fields_all_set_field.
Qed.

Lemma try_patterns_pieces (pol : bool) (pats : list regex) (low : text) (st : status) :
  try_patterns pol pats low = Ok (Some st) -> fields_all (fun v => part_of v low) st.
Proof.
  induction pats as [|pat pats IH]; [discriminate|].
  cbn [try_patterns].
  destruct (re_search pat low true) as [[m|]|e] eqn:E; cbn [bind]; try discriminate;
    [|exact IH].
  rewrite collect_groups_ok. cbn [bind]. intro H. inversion H; subst st.
  apply re_search_inv in E. symmetry in E.
  apply pattern_search_string in E as [Hs _].
  assert (Hc : fields_all (fun v => part_of v low)
                 (collected m [FName; FInstrument; FConnection] empty_status)).
  { apply fields_all_collected.
    - intro k. rewrite <- Hs. apply part_of_group_text.
    - intros [] v Hv; discriminate. }
  assert (Hn : fields_all (fun v => part_of v low)
                 (normalize_name (collected m [FName; FInstrument; FConnection] empty_status))).
  { unfold normalize_name.
    destruct (s_name (collected m [FName; FInstrument; FConnection] empty_status))
      as [n|] eqn:En; [|exact Hc].
    destruct (mem_char n "/"); [|exact Hc].
    apply fields_all_set_field; [exact Hc|].
    eapply part_of_trans; [apply part_of_before_first|exact (Hc FName n En)]. }
  intros f v Hf. apply (Hn f v). destruct f; exact Hf.
Qed.

Lemma parse_pieces (line : text) (ps : pattern_set) (b : bool) (st : status) :
  parse_with_patterns line ps = Ok (b, st) ->
  fields_all (fun v => part_of v (lower line)) st.
Proof.
  unfold parse_with_patterns.
  destruct (try_patterns true (p_enabled ps) (lower line)) as [[s1|]|e] eqn:E1;
    cbn [bind]; try discriminate.
  - intro H. inversion H; subst. eapply try_patterns_pieces; eauto.
  - destruct (try_patterns false (p_disabled ps) (lower line)) as [[s2|]|e] eqn:E2;
      cbn [bind]; try discriminate.
    + intro H. inversion H; subst. eapply try_patterns_pieces; eauto.
    + intro H. inversion H; subst. intros [] v Hv; discriminate.
Qed.

Lemma first_extract_piece (f : field) (pats : list regex) (low v : text) :
  first_extract f pats low = Ok (Some v) -> part_of v low.
Proof.
  induction pats as [|pat pats IH]; [discriminate|].
  cbn [first_extract].
  destruct (re_search pat low true) as [[m|]|e] eqn:E; cbn [bind]; try discriminate;
    [|exact IH].
  destruct (in_groupdict m (key_of f)) eqn:Eg; [|exact IH].
  destruct (m_group_text m (key_of f) Eg) as (g & -> & Hg). cbn [bind].
  intro H. inversion H; subst v. rewrite Hg.
  apply re_search_inv in E. symmetry in E.
  apply pattern_search_string in E as [<- _]. apply part_of_group_text.
Qed.

Lemma fill_fields_pieces (fs : list field) (x : extractor_set) (low : text)
    (st st' : status) :
  fields_all (fun v => part_of v low) st -> fill_fields fs x low st = Ok st' ->
  fields_all (fun v => part_of v low) st'.
Proof.
  revert st. induction fs as [|f fs IH]; intros st Hst; cbn [fill_fields].
  - intro H. inversion H; subst. exact Hst.
  - destruct (truthy (get_field f st)); [now apply IH|].
    destruct (first_extract f (extractors_get x f) low) as [[v|]|e] eqn:E;
      cbn [bind]; try discriminate.
    + apply IH. apply fields_all_set_field; [exact Hst|].
      eapply first_extract_piece; eauto.
    + now apply IH.
Qed.

Lemma sanity_trims_pieces (low : text) (st : status) :
  fields_all (fun v => part_of v low) st ->
  fields_all (fun v => part_of v low) (sanity_trims st).
Proof.
  unfold sanity_trims. generalize all_fields. intro fs. revert st.
  induction fs as [|k fs IH]; intros st Hst; simpl; [exact Hst|].
  apply IH. destruct (get_field k st) as [v|] eqn:E; [|exact Hst].
  apply fields_all_set_field; [exact Hst|].
  eapply part_of_trans; [apply part_of_strip_by|exact (Hst k v E)].
Qed.

Lemma validate_status_pieces (low : text) (st : status) :
  fields_all (fun v => part_of v low) st ->
  fields_all (fun v => part_of v low) (validate_status st).
Proof.
  intro H. unfold validate_status. destruct (s_instrument st) as [v|] eqn:E; [|exact H].
  apply fields_all_set_field; [exact H|].
  unfold validate_instrument. destruct v as [|c v]; [apply part_of_nil|].
  destruct (matches_validators (c :: v)); [exact (H FInstrument _ E)|apply part_of_nil].
Qed.

Lemma fill_missing_fields_pieces (line : text) (st st' : status) (ps : pattern_set) :
  fields_all (fun v => part_of v (lower line)) st ->
  fill_missing_fields line st ps = Ok st' ->
  fields_all (fun v => part_of v (lower line)) st'.
Proof.
  intro Hst. unfold fill_missing_fields.
  destruct (fill_fields all_fields (p_extractors ps) (lower line) st) as [st1|e] eqn:E;
    cbn [bind]; [|discriminate].
  intro H. inversion H; subst st'.
  apply validate_status_pieces, sanity_trims_pieces.
  eapply fill_fields_pieces; eauto.
Qed.

Lemma get_or_empty_all (P : text -> Prop) (st : status) (f : field) :
  P [] -> fields_all P st -> P (get_or_empty f st).
Proof.
  intros H0 H. unfold get_or_empty. destruct (get_field f st) as [v|] eqn:E; simpl.
  - exact (H f v E).
  - exact H0.
Qed.

Lemma extract_inv (cfg : config) (raw_line : text) (r : StrategyStatus) :
  extract cfg raw_line = Extracted r ->
  exists st0 st,
    parse_with_patterns raw_line (patterns cfg) = Ok (true, st0) /\
    fill_missing_fields raw_line st0 (patterns cfg) = Ok st /\
    truthy (s_name st) = true /\ r = record_of st.
Proof.
  unfold extract. intro Hx.
  destruct raw_line; [discriminate|].
  destruct (negb _); [discriminate|].
  destruct (parse_with_patterns _ _) as [[[|] st0]|] eqn:Ep; try discriminate.
  destruct (fill_missing_fields _ _ _) as [st|] eqn:Ef; try discriminate.
  destruct (truthy (s_name st)) eqn:Et; [|discriminate].
  inversion Hx. exists st0, st. auto.
Qed.

(** X9. The name, connection and account of a record extracted from a
    line are contiguous pieces of the lower-cased line, and the name is
    not empty. *)
Theorem extracted_fields_are_pieces_of_line (cfg : config) (raw_line : text)
    (r : StrategyStatus) :
  extract cfg raw_line = Extracted r ->
  name r <> [] /\
  part_of (name r) (lower raw_line) /\
  part_of (connection r) (lower raw_line) /\
  part_of (account r) (lower raw_line).
Proof.
  intro Hx. destruct (extract_inv _ _ _ Hx) as (st0 & st & Hp & Hf & Ht & ->).
  assert (H : fields_all (fun v => part_of v (lower raw_line)) st).
  { eapply fill_missing_fields_pieces; [|exact Hf]. eapply parse_pieces; exact Hp. }
  unfold record_of; cbn [name connection account].
  split; [now apply truthy_not_empty|].
  repeat split; apply get_or_empty_all; try exact H; apply part_of_nil.
Qed.

Lemma extracted_fields_are_pieces_of_line_witness :
  extract default_config line_foo = Extracted record_foo /\
  part_of (name record_foo) (lower line_foo).
Proof.
  assert (H : extract default_config line_foo = Extracted record_foo)
    by (vm_compute; reflexivity).
  split; [exact H|].
  exact (proj1 (proj2 (extracted_fields_are_pieces_of_line default_config line_foo
                         record_foo H))).
Defined.

(** ** The sanity trims *)

Lemma lstrip_head (p : ascii -> bool) (s : text) (c : ascii) :
  hd_error (lstrip p s) = Some c -> p c = false.
Proof.
  induction s as [|x s IH]; simpl; [discriminate|].
  destruct (p x) eqn:E; [exact IH|]. simpl. intro H. inversion H; subst. exact E.
Qed.

Lemma hd_error_app (a b : text) (c : ascii) :
  hd_error a = Some c -> hd_error (a ++ b) = Some c.
Proof. destruct a; simpl; [discriminate|auto]. Qed.

Lemma strip_by_ends (p : ascii -> bool) (s : text) (c : ascii) :
  hd_error (strip_by p s) = Some c \/ hd_error (rev (strip_by p s)) = Some c ->
  p c = false.
Proof.
  unfold strip_by. intros [H|H].
  - destruct (lstrip_suffix p (rev (lstrip p s))) as (k & Hk & _).
    apply (lstrip_head p s).
    rewrite <- (rev_involutive (lstrip p s)), Hk at 1.
    rewrite rev_app_distr. now apply hd_error_app.
  - rewrite rev_involutive in H. now apply lstrip_head in H.
Qed.

Lemma sanity_trims_get (st : status) (f : field) :
  get_field f (sanity_trims st) = option_map (strip_chars trim_chars) (get_field f st).
Proof. destruct st as [e [n|] [i|] [c|] [a|]], f; reflexivity. Qed.

Lemma validate_status_get (st : status) (f : field) :
  f <> FInstrument -> get_field f (validate_status st) = get_field f st.
Proof.
  intro H. unfold validate_status. destruct (s_instrument st); [|reflexivity].
  destruct f; try reflexivity. now destruct H.
Qed.

Lemma fill_missing_fields_trimmed (line : text) (st st' : status) (ps : pattern_set) :
  fill_missing_fields line st ps = Ok st' -> fields_all trimmed st'.
Proof.
  unfold fill_missing_fields.
  destruct (fill_fields all_fields (p_extractors ps) (lower line) st) as [st1|e];
    cbn [bind]; [|discriminate].
  intro H. inversion H; subst st'.
  assert (Ht : fields_all trimmed (sanity_trims st1)).
  { intros f v Hv. rewrite sanity_trims_get in Hv.
    destruct (get_field f st1) as [w|]; [|discriminate]. simpl in Hv.
    inversion Hv; subst v. intros c Hc. exact (strip_by_ends _ _ _ Hc). }
  unfold validate_status. destruct (s_instrument (sanity_trims st1)) as [v|] eqn:E;
    [|exact Ht].
  apply fields_all_set_field; [exact Ht|].
  unfold validate_instrument. destruct v as [|c v]; [intros x [Hx|Hx]; discriminate|].
  destruct (matches_validators (c :: v)); [exact (Ht FInstrument _ E)|].
  intros x [Hx|Hx]; discriminate.
Qed.

(** X10. The name, connection and account of a record extracted from a
    line neither begin nor end with a space or one of [:;,-[]()]. *)
Theorem extracted_fields_are_trimmed (cfg : config) (raw_line : text)
    (r : StrategyStatus) :
  extract cfg raw_line = Extracted r ->
  trimmed (name r) /\ trimmed (connection r) /\ trimmed (account r).
Proof.
  intro Hx. destruct (extract_inv _ _ _ Hx) as (st0 & st & Hp & Hf & Ht & ->).
  assert (H := fill_missing_fields_trimmed _ _ _ _ Hf).
  unfold record_of; cbn [name connection account].
  repeat split; apply get_or_empty_all; try exact H; intros x [Hx'|Hx']; discriminate.
Qed.

Lemma extracted_fields_are_trimmed_witness :
  extract default_config line_alpha = Extracted record_alpha /\
  trimmed (connection record_alpha).
Proof.
  assert (H : extract default_config line_alpha = Extracted record_alpha)
    by (vm_compute; reflexivity).
  split; [exact H|].
  exact (proj1 (proj2 (extracted_fields_are_trimmed default_config line_alpha
                         record_alpha H))).
Defined.

(** ** The allow-list *)

Lemma is_prefix_spec (p s : text) :
  is_prefix p s = true <-> exists after, s = p ++ after.
Proof.
  revert s. induction p as [|x p IH]; intro s; simpl.
  - split; [intros _; now exists s|reflexivity].
  - destruct s as [|y s].
    + split; [discriminate|]. intros [a H]. discriminate.
    + rewrite andb_true_iff, ascii_eqb_eq, IH. split.
      * intros [-> [a ->]]. now exists a.
      * intros [a H]. inversion H; subst. split; [reflexivity|now exists a].
Qed.

Lemma contains_spec (s sub : text) : contains s sub = true <-> part_of sub s.
Proof.
  induction s as [|c s IH].
  - simpl. rewrite orb_false_r, is_prefix_spec. split.
    + intros [a H]. now exists [], a.
    + intros (b & a & H). symmetry in H. apply app_eq_nil in H as [-> H].
      now exists a.
  - cbn [contains]. rewrite orb_true_iff, is_prefix_spec, IH. split.
    + intros [[a H]|(b & a & H)].
      * now exists [], a.
      * exists (c :: b), a. simpl. now rewrite H.
    + intros (b & a & H). destruct b as [|x b].
      * left. now exists a.
      * right. inversion H; subst. now exists b, a.
Qed.




(** ** Names cut at the first slash *)

Lemma before_first_without (sep : ascii) (s : text) : ~ In sep (before_first sep s).
Proof.
  induction s as [|c s IH]; simpl; [tauto|].
  destruct (ascii_eqb c sep) eqn:E; simpl; [tauto|].
  intros [H|H]; [|tauto]. subst c. now rewrite (proj2 (ascii_eqb_eq sep sep) eq_refl) in E.
Qed.

Lemma mem_char_In (cs : text) (c : ascii) : mem_char cs c = true <-> In c cs.
Proof.
  unfold mem_char. rewrite existsb_exists. split.
  - intros (x & Hx & E). apply ascii_eqb_eq in E. now subst.
  - intro H. exists c. split; [exact H|]. now apply ascii_eqb_eq.
Qed.

Lemma normalize_name_without_slash (gd : status) (n : text) :
  s_name (normalize_name gd) = Some n -> ~ In "/"%char n.
Proof.
  unfold normalize_name. destruct (s_name gd) as [m|] eqn:E.
  - destruct (mem_char m "/") eqn:Em.
    + simpl. intro H. inversion H; subst. apply before_first_without.
    + rewrite E. intro H. inversion H; subst. intro Hin.
      apply mem_char_In in Hin. congruence.
  - rewrite E. discriminate.
Qed.

Lemma try_patterns_without_slash (pol : bool) (pats : list regex) (low : text)
    (st : status) (n : text) :
  try_patterns pol pats low = Ok (Some st) -> s_name st = Some n -> ~ In "/"%char n.
Proof.
  induction pats as [|pat pats IH]; [discriminate|].
  cbn [try_patterns].
  destruct (re_search pat low true) as [[m|]|e]; cbn [bind]; try discriminate;
    [|exact IH].
  rewrite collect_groups_ok. cbn [bind]. intro H. inversion H; subst st.
  simpl. apply normalize_name_without_slash.
Qed.

(** X12. A name returned by [parse_with_patterns] contains no slash:
    what the pattern captured is cut before the first one. *)
Theorem parsed_name_has_no_slash (line : text) (ps : pattern_set) (b : bool)
    (st : status) (n : text) :
  parse_with_patterns line ps = Ok (b, st) -> s_name st = Some n -> ~ In "/"%char n.
Proof.
  unfold parse_with_patterns.
  destruct (try_patterns true (p_enabled ps) (lower line)) as [[s1|]|e] eqn:E1;
    cbn [bind]; try discriminate.
  - intro H. inversion H; subst. eapply try_patterns_without_slash; eauto.
  - destruct (try_patterns false (p_disabled ps) (lower line)) as [[s2|]|e] eqn:E2;
      cbn [bind]; try discriminate.
    + intro H. inversion H; subst. eapply try_patterns_without_slash; eauto.
    + intro H. inversion H; subst. discriminate.
Qed.

Lemma parsed_name_has_no_slash_witness :
  parse_with_patterns line_foo DEFAULT_PATTERNS =
    Ok (true, Status (Some true) (Some (T "foo")) None None None) /\
  ~ In "/"%char (T "foo").
Proof.
  assert (H : parse_with_patterns line_foo DEFAULT_PATTERNS =
                Ok (true, Status (Some true) (Some (T "foo")) None None None))
    by (vm_compute; reflexivity).
  split; [exact H|].
  exact (parsed_name_has_no_slash line_foo DEFAULT_PATTERNS true _ (T "foo") H eq_refl).
Defined.

(** ** What the completion step keeps *)

Lemma set_field_other (f g : field) (v : text) (st : status) :
  f <> g -> get_field g (set_field f v st) = get_field g st.
Proof. intro H. destruct f, g; try reflexivity; now destruct H. Qed.

Lemma set_field_enabled (f : field) (v : text) (st : status) :
  s_enabled (set_field f v st) = s_enabled st.
Proof. now destruct f. Qed.

Lemma fill_fields_keeps (fs : list field) (x : extractor_set) (low : text)
    (st st' : status) (g : field) :
  truthy (get_field g st) = true ->
  fill_fields fs x low st = Ok st' ->
  get_field g st' = get_field g st.
Proof.
  revert st. induction fs as [|f fs IH]; intros st Hg; cbn [fill_fields].
  - intro H. now inversion H.
  - destruct (truthy (get_field f st)) eqn:Ef; [now apply IH|].
    assert (Hfg : f <> g) by (intros ->; congruence).
    destruct (first_extract f (extractors_get x f) low) as [[v|]|e];
      cbn [bind]; try discriminate; [|now apply IH].
    intro H. rewrite (IH (set_field f v st)); [now apply set_field_other| |exact H].
    now rewrite set_field_other.
Qed.

Lemma fill_fields_enabled (fs : list field) (x : extractor_set) (low : text)
    (st st' : status) :
  fill_fields fs x low st = Ok st' -> s_enabled st' = s_enabled st.
Proof.
  revert st. induction fs as [|f fs IH]; intro st; cbn [fill_fields].
  - intro H. now inversion H.
  - destruct (truthy (get_field f st)); [now apply IH|].
    destruct (first_extract f (extractors_get x f) low) as [[v|]|e];
      cbn [bind]; try discriminate; [|now apply IH].
    intro H. rewrite (IH _ H). apply set_field_enabled.
Qed.

Lemma sanity_trims_enabled (st : status) : s_enabled (sanity_trims st) = s_enabled st.
Proof. now destruct st as [e [n|] [i|] [c|] [a|]]. Qed.

Lemma validate_status_enabled (st : status) : s_enabled (validate_status st) = s_enabled st.
Proof. unfold validate_status. now destruct (s_instrument st). Qed.

(** X13. A name, connection or account that the status pattern already
    found is never replaced by an extractor: after completion the field
    holds the same value with the trim characters removed from its
    ends; the enabled flag is left as it was. *)
Theorem found_fields_are_kept (line : text) (st st' : status) (ps : pattern_set)
    (f : field) (v : text) :
  fill_missing_fields line st ps = Ok st' ->
  f <> FInstrument ->
  get_field f st = Some v -> v <> [] ->
  get_field f st' = Some (strip_chars trim_chars v) /\ s_enabled st' = s_enabled st.
Proof.
  unfold fill_missing_fields.
  destruct (fill_fields all_fields (p_extractors ps) (lower line) st) as [st1|e] eqn:E;
    cbn [bind]; [|discriminate].
  intros H Hf Hv Hne. inversion H; subst st'. split.
  - rewrite validate_status_get by exact Hf. rewrite sanity_trims_get.
    assert (Ht : truthy (get_field f st) = true) by (rewrite Hv; now destruct v).
    rewrite (fill_fields_keeps _ _ _ _ _ f Ht E).
    now rewrite Hv.
  - rewrite validate_status_enabled, sanity_trims_enabled.
    eapply fill_fields_enabled; eauto.
Qed.

Lemma found_fields_are_kept_witness :
  fill_missing_fields line_foo (Status (Some true) (Some (T "foo-")) None None None)
    DEFAULT_PATTERNS = Ok (Status (Some true) (Some (T "foo")) None None None) /\
  get_field FName (Status (Some true) (Some (T "foo")) None None None) =
    Some (strip_chars trim_chars (T "foo-")).
Proof.
  assert (H : fill_missing_fields line_foo
                (Status (Some true) (Some (T "foo-")) None None None) DEFAULT_PATTERNS =
              Ok (Status (Some true) (Some (T "foo")) None None None))
    by (vm_compute; reflexivity).
  split; [exact H|].
  refine (proj1 (found_fields_are_kept line_foo _ _ DEFAULT_PATTERNS FName (T "foo-") H
                   _ eq_refl _)); discriminate.
Defined.

(** ** The snapshot and the order of first sight *)

Lemma by_name_then_instrument_antisym (x y : StrategyStatus) :
  by_name_then_instrument x y -> by_name_then_instrument y x -> sort_key x = sort_key y.
Proof.
  unfold by_name_then_instrument, sort_key.
  intros [H1|[H1 H1']] [H2|[H2 H2']].
  - rewrite text_cmp_antisym, H1 in H2. discriminate.
  - rewrite H2, text_cmp_refl in H1. discriminate.
  - rewrite H1, text_cmp_refl in H2. discriminate.
  - f_equal; [exact H1|]. apply text_cmp_eq.
    rewrite text_cmp_antisym in H2'.
    destruct (text_cmp (lower (instrument x)) (lower (instrument y)));
      simpl in H2'; congruence.
Qed.

Lemma distinct_keys_inj (l : list StrategyStatus) (x y : StrategyStatus) :
  NoDup (map sort_key l) -> In x l -> In y l -> sort_key x = sort_key y -> x = y.
Proof.
  induction l as [|z l IH]; simpl; [tauto|].
  intros Hd Hx Hy E. inversion Hd as [|? ? Hn Hd']; subst.
  destruct Hx as [->|Hx], Hy as [->|Hy]; auto.
  - destruct Hn. rewrite E. now apply in_map.
  - destruct Hn. rewrite <- E. now apply in_map.
Qed.

Lemma ordered_perm_eq (l1 l2 : list StrategyStatus) :
  StronglySorted by_name_then_instrument l1 ->
  StronglySorted by_name_then_instrument l2 ->
  Permutation l1 l2 -> NoDup (map sort_key l1) -> l1 = l2.
Proof.
  revert l2. induction l1 as [|x l1 IH]; intros l2 H1 H2 Hp Hd.
  - apply Permutation_nil in Hp. now subst.
  - destruct l2 as [|y l2]; [apply Permutation_sym, Permutation_nil in Hp; discriminate|].
    inversion H1 as [|? ? H1' Hx]; subst. inversion H2 as [|? ? H2' Hy]; subst.
    assert (Exy : x = y).
    { assert (Hxin : In x (y :: l2)) by (apply (Permutation_in _ Hp); now left).
      assert (Hyin : In y (x :: l1))
        by (apply (Permutation_in _ (Permutation_sym Hp)); now left).
      destruct Hxin as [<-|Hxin]; [reflexivity|].
      destruct Hyin as [<-|Hyin]; [reflexivity|].
      rewrite Forall_forall in Hx, Hy.
      apply (distinct_keys_inj (x :: l1)); [exact Hd|now left|now right|].
      apply by_name_then_instrument_antisym; auto. }
    subst y. f_equal. apply IH; auto.
    + now apply Permutation_cons_inv in Hp.
    + simpl in Hd. now inversion Hd.
Qed.

(** X14. Two tables that hold the same records, no two of them with
    the same lower-cased name and instrument, give the same snapshot
    list whatever the order in which the records were first stored. *)
Theorem snapshot_ignores_insertion_order (t t' : table) :
  Permutation (map snd t) (map snd t') ->
  NoDup (map sort_key (map snd t)) ->
  statuses_to_json t = statuses_to_json t'.
Proof.
  intros Hp Hd. unfold statuses_to_json. apply ordered_perm_eq.
  - apply sorted_ordered.
  - apply sorted_ordered.
  - rewrite !sorted_perm. exact Hp.
  - apply (Permutation_NoDup (l := map sort_key (map snd t))); [|exact Hd].
    apply Permutation_map, Permutation_sym, sorted_perm.
Qed.

Lemma snapshot_ignores_insertion_order_witness :
  statuses_to_json [(key_of_record status_beta, status_beta);
                    (key_of_record status_alpha, status_alpha)] =
  statuses_to_json [(key_of_record status_alpha, status_alpha);
                    (key_of_record status_beta, status_beta)].
Proof.
  apply snapshot_ignores_insertion_order.
  - simpl. apply perm_swap.
  - simpl. constructor; [|constructor; [|constructor]].
    + intros [H|[]]. vm_compute in H. discriminate.
    + intros [].
Defined.

(** ** Merging the defaults into a configuration *)

Lemma json_induction (P : json -> Prop) :
  P JNull -> (forall b, P (JBool b)) -> (forall n, P (JNum n)) -> (forall s, P (JStr s)) ->
  (forall items, P (JArr items)) ->
  (forall fields, Forall (fun kv => P (snd kv)) fields -> P (JObj fields)) ->
  forall j, P j.
Proof.
  intros H0 Hb Hn Hs Ha Ho.
  fix IH 1. intros [| b | n | s | items | fields].
  - exact H0.
  - apply Hb.
  - apply Hn.
  - apply Hs.
  - apply Ha.
  - apply Ho. induction fields as [|[k v] fields IHf]; constructor.
    + simpl. apply IH.
    + exact IHf.
Qed.

Lemma deep_merge_obj (d : json) (items : list (text * json)) :
  deep_merge d (JObj items) = merge_each items d.
Proof. reflexivity. Qed.

Lemma deep_merge_not_dict (d default : json) :
  is_dict default = false -> deep_merge d default = AttributeError.
Proof. destruct default; simpl; intro H; try reflexivity. discriminate. Qed.

Lemma dict_wf_obj (fields : list (text * json)) :
  dict_wf (JObj fields) <->
  NoDup (map fst fields) /\ Forall (fun kv => dict_wf (snd kv)) fields.
Proof.
  cbn [dict_wf]. split; intros [Hd Ha]; (split; [exact Hd|]).
  - induction fields as [|kv fields IH]; constructor.
    + apply Ha.
    + apply IH; [now inversion Hd|apply Ha].
  - induction fields as [|kv fields IH]; [exact I|].
    inversion Ha; subst. split; [assumption|]. apply IH; [now inversion Hd|assumption].
Qed.

Lemma dict_get_none (k : text) (fields : list (text * json)) :
  dict_get k fields = None <-> ~ In k (map fst fields).
Proof.
  induction fields as [|[k' v] fields IH]; simpl; [tauto|].
  destruct (text_eqb k' k) eqn:E.
  - apply text_eqb_eq in E. split; [discriminate|tauto].
  - rewrite IH. split; [|tauto]. intros H [H'|H']; [|tauto].
    subst. now rewrite text_eqb_refl in E.
Qed.

Lemma dict_set_new (k : text) (v : json) (fields : list (text * json)) :
  dict_get k fields = None -> dict_set k v fields = fields ++ [(k, v)].
Proof.
  induction fields as [|[k' v'] fields IH]; simpl; [reflexivity|].
  destruct (text_eqb k' k); [discriminate|]. intro H. now rewrite IH.
Qed.

Lemma dict_set_same (k : text) (v : json) (fields : list (text * json)) :
  dict_get k fields = Some v -> dict_set k v fields = fields.
Proof.
  induction fields as [|[k' v'] fields IH]; simpl; [discriminate|].
  destruct (text_eqb k' k); [intro H; now inversion H|].
  intro H. now rewrite IH.
Qed.

Lemma dict_get_set_same (k : text) (v : json) (fields : list (text * json)) :
  dict_get k (dict_set k v fields) = Some v.
Proof.
  induction fields as [|[k' v'] fields IH]; simpl.
  - now rewrite text_eqb_refl.
  - destruct (text_eqb k' k) eqn:E; simpl; rewrite E; [reflexivity|exact IH].
Qed.

Lemma dict_get_set_other (k k' : text) (v : json) (fields : list (text * json)) :
  k <> k' -> dict_get k' (dict_set k v fields) = dict_get k' fields.
Proof.
  intro Hk. induction fields as [|[k0 v0] fields IH]; simpl.
  - destruct (text_eqb k k') eqn:E; [|reflexivity]. apply text_eqb_eq in E. contradiction.
  - destruct (text_eqb k0 k) eqn:E; simpl.
    + apply text_eqb_eq in E. subst k0.
      destruct (text_eqb k k') eqn:E'; [|reflexivity].
      apply text_eqb_eq in E'. contradiction.
    + now rewrite IH.
Qed.

Lemma dict_get_app (k : text) (a b : list (text * json)) :
  dict_get k (a ++ b) = match dict_get k a with Some v => Some v | None => dict_get k b end.
Proof.
  induction a as [|[k' v] a IH]; simpl; [reflexivity|].
  now destruct (text_eqb k' k).
Qed.

Lemma dict_get_setdefault_same (k : text) (v : json) (fields : list (text * json)) :
  dict_get k (dict_setdefault k v fields) =
  Some (match dict_get k fields with Some u => u | None => v end).
Proof.
  unfold dict_setdefault. destruct (dict_get k fields) as [u|] eqn:E; [exact E|].
  rewrite dict_get_app, E. simpl. now rewrite text_eqb_refl.
Qed.

Lemma dict_get_setdefault_other (k k' : text) (v : json) (fields : list (text * json)) :
  k <> k' -> dict_get k' (dict_setdefault k v fields) = dict_get k' fields.
Proof.
  intro Hk. unfold dict_setdefault. destruct (dict_get k fields); [reflexivity|].
  rewrite dict_get_app. destruct (dict_get k' fields); [reflexivity|].
  simpl. destruct (text_eqb k k') eqn:E; [|reflexivity].
  apply text_eqb_eq in E. contradiction.
Qed.

Lemma dict_setdefault_known (k : text) (v u : json) (fields : list (text * json)) :
  dict_get k fields = Some u -> dict_setdefault k v fields = fields.
Proof. unfold dict_setdefault. now intros ->. Qed.

(** An empty configuration file. *)
Lemma merge_each_fresh (items acc : list (text * json)) :
  NoDup (map fst items) ->
  (forall k, In k (map fst items) -> ~ In k (map fst acc)) ->
  Forall (fun kv => is_dict (snd kv) = true -> deep_merge (JObj []) (snd kv) = Merged (snd kv))
    items ->
  merge_each items (JObj acc) = Merged (JObj (acc ++ items)).
Proof.
  revert acc. induction items as [|[k v] items IH]; intros acc Hd Hfresh Hall.
  - simpl. now rewrite app_nil_r.
  - cbn [merge_each].
    assert (Hk : dict_get k acc = None) by (apply dict_get_none, Hfresh; now left).
    inversion Hd as [|? ? Hnk Hd']; subst. inversion Hall as [|? ? Hv Hall']; subst.
    assert (Hnext : merge_each items (JObj (acc ++ [(k, v)])) =
                    Merged (JObj (acc ++ (k, v) :: items))).
    { replace (acc ++ (k, v) :: items) with ((acc ++ [(k, v)]) ++ items)
        by now rewrite <- app_assoc.
      apply IH; [exact Hd'| |exact Hall'].
      intros k' Hk' Hin. rewrite map_app, in_app_iff in Hin. destruct Hin as [Hin|[Hin|[]]].
      - apply (Hfresh k'); [now right|exact Hin].
      - simpl in Hin. subst k'. contradiction. }
    destruct (is_dict v) eqn:Ev.
    + rewrite Hk. simpl in Hv. rewrite (Hv Ev). now rewrite dict_set_new.
    + unfold dict_setdefault. now rewrite Hk.
Qed.

(** X15. Merging the defaults into an empty dict gives the defaults
    themselves, key for key and in the same order. *)
Theorem merge_into_empty_gives_defaults (default : json) :
  dict_wf default -> is_dict default = true ->
  deep_merge (JObj []) default = Merged default.
Proof.
  induction default as [| | | | |fields IH] using json_induction; try discriminate.
  intros Hwf _. apply dict_wf_obj in Hwf as [Hd Hall].
  rewrite deep_merge_obj. apply (merge_each_fresh fields []); [exact Hd|auto|].
  rewrite Forall_forall in *. intros kv Hin Hdict. apply IH; auto.
Qed.

Lemma defaults_excerpt_wf : dict_wf defaults_excerpt.
Proof.
  apply dict_wf_obj. split.
  - simpl. constructor; [|constructor; [|constructor]]; simpl.
    + intros [H|[]]. discriminate.
    + intros [].
  - constructor; [|constructor; [|constructor]]; simpl.
    + split; [|tauto].
      constructor; [|constructor; [|constructor]]; simpl.
      * intros [H|[]]. discriminate.
      * intros [].
    + split; [|tauto].
      repeat (constructor; [simpl; intuition discriminate|]). constructor.
Defined.

Lemma merge_into_empty_gives_defaults_witness :
  deep_merge (JObj []) defaults_excerpt = Merged defaults_excerpt.
Proof.
  apply merge_into_empty_gives_defaults; [exact defaults_excerpt_wf|reflexivity].
Defined.

(** ** What a merge leaves under each key *)

Lemma merge_each_obj (items : list (text * json)) (f : list (text * json)) (r : json) :
  merge_each items (JObj f) = Merged r -> exists rf, r = JObj rf.
Proof.
  revert f. induction items as [|[k v] items IH]; intro f; cbn [merge_each].
  - intro H. inversion H. now exists f.
  - destruct (is_dict v).
    + destruct (deep_merge _ v) as [c|]; [apply IH|discriminate].
    + apply IH.
Qed.

Lemma merge_each_get_other (items f rf : list (text * json)) (k : text) :
  merge_each items (JObj f) = Merged (JObj rf) ->
  ~ In k (map fst items) -> dict_get k rf = dict_get k f.
Proof.
  revert f. induction items as [|[k0 v] items IH]; intro f; cbn [merge_each].
  - intro H. now inversion H.
  - intros H Hk. simpl in Hk.
    assert (Hne : k0 <> k) by tauto. assert (Hni : ~ In k (map fst items)) by tauto.
    destruct (is_dict v).
    + destruct (deep_merge _ v) as [c|]; [|discriminate].
      rewrite (IH _ H Hni). now apply dict_get_set_other.
    + rewrite (IH _ H Hni). now apply dict_get_setdefault_other.
Qed.

Lemma merge_each_items (items f rf : list (text * json)) :
  NoDup (map fst items) ->
  merge_each items (JObj f) = Merged (JObj rf) ->
  forall k v, In (k, v) items ->
    if is_dict v
    then exists c, deep_merge (dict_get_or_empty k f) v = Merged c /\ dict_get k rf = Some c
    else dict_get k rf = Some (match dict_get k f with Some u => u | None => v end).
Proof.
  revert f. induction items as [|[k0 v0] items IH]; intros f Hd H k v Hin; [contradiction|].
  inversion Hd as [|? ? Hn Hd']; subst. cbn [merge_each] in H.
  destruct Hin as [E|Hin].
  - inversion E; subst k0 v0. destruct (is_dict v).
    + fold (dict_get_or_empty k f) in H.
      destruct (deep_merge (dict_get_or_empty k f) v) as [c|]; [|discriminate].
      exists c. split; [reflexivity|].
      rewrite (merge_each_get_other _ _ _ _ H Hn). apply dict_get_set_same.
    + rewrite (merge_each_get_other _ _ _ _ H Hn). apply dict_get_setdefault_same.
  - assert (Hne : k0 <> k).
    { intros ->. apply Hn. change k with (fst (k, v)). now apply in_map. }
    destruct (is_dict v0).
    + destruct (deep_merge _ v0) as [c|]; [|discriminate].
      generalize (IH _ Hd' H k v Hin). unfold dict_get_or_empty.
      now rewrite (dict_get_set_other _ _ _ _ Hne).
    + generalize (IH _ Hd' H k v Hin). unfold dict_get_or_empty.
      now rewrite (dict_get_setdefault_other _ _ _ _ Hne).
Qed.

Lemma dict_get_In (k : text) (v : json) (fields : list (text * json)) :
  dict_get k fields = Some v -> In (k, v) fields.
Proof.
  induction fields as [|[k' v'] fields IH]; simpl; [discriminate|].
  destruct (text_eqb k' k) eqn:E; [|auto].
  apply text_eqb_eq in E. intro H. inversion H; subst. now left.
Qed.

Lemma dict_set_keys (k : text) (v : json) (fields : list (text * json)) :
  map fst (dict_set k v fields) =
  map fst fields ++ (if is_some (dict_get k fields) then [] else [k]).
Proof.
  induction fields as [|[k' v'] fields IH]; simpl; [reflexivity|].
  destruct (text_eqb k' k); simpl; [now rewrite app_nil_r|]. now rewrite IH.
Qed.

Lemma dict_setdefault_keys (k : text) (v : json) (fields : list (text * json)) :
  map fst (dict_setdefault k v fields) =
  map fst fields ++ (if is_some (dict_get k fields) then [] else [k]).
Proof.
  unfold dict_setdefault. destruct (dict_get k fields); simpl.
  - now rewrite app_nil_r.
  - now rewrite map_app.
Qed.

Lemma merge_each_keys (items f rf : list (text * json)) :
  NoDup (map fst items) ->
  merge_each items (JObj f) = Merged (JObj rf) ->
  map fst rf =
  map fst f ++ filter (fun k => negb (is_some (dict_get k f))) (map fst items).
Proof.
  revert f. induction items as [|[k v] items IH]; intros f Hd H.
  - simpl in H. inversion H. simpl. now rewrite app_nil_r.
  - inversion Hd as [|? ? Hn Hd']; subst. cbn [merge_each] in H.
    assert (Hstep : forall f1,
              map fst f1 = map fst f ++ (if is_some (dict_get k f) then [] else [k]) ->
              (forall k', k <> k' -> dict_get k' f1 = dict_get k' f) ->
              merge_each items (JObj f1) = Merged (JObj rf) ->
              map fst rf = map fst f ++
                filter (fun k => negb (is_some (dict_get k f))) (map fst ((k, v) :: items))).
    { intros f1 Hkeys Hother H1. rewrite (IH _ Hd' H1), Hkeys, <- app_assoc. f_equal.
      assert (Hfilter : filter (fun k0 => negb (is_some (dict_get k0 f1))) (map fst items) =
                        filter (fun k0 => negb (is_some (dict_get k0 f))) (map fst items)).
      { apply filter_ext_in. intros k' Hk'. rewrite Hother; [reflexivity|].
        intros ->. contradiction. }
      rewrite Hfilter. cbn [map fst filter]. now destruct (is_some (dict_get k f)). }
    destruct (is_dict v).
    + destruct (deep_merge _ v) as [c|]; [|discriminate].
      apply (Hstep _ (dict_set_keys k c f)); [|exact H].
      intros k' Hk'. now apply dict_get_set_other.
    + apply (Hstep _ (dict_setdefault_keys k v f)); [|exact H].
      intros k' Hk'. now apply dict_get_setdefault_other.
Qed.

Lemma merged_lookups (f items : list (text * json)) (r : json) :
  NoDup (map fst items) ->
  deep_merge (JObj f) (JObj items) = Merged r ->
  exists rf, r = JObj rf /\
    (forall k v, dict_get k items = Some v -> is_dict v = false ->
       dict_get k rf = Some (match dict_get k f with Some u => u | None => v end)) /\
    (forall k v, dict_get k items = Some v -> is_dict v = true ->
       exists c, deep_merge (dict_get_or_empty k f) v = Merged c /\ dict_get k rf = Some c).
Proof.
  intros Hd H. rewrite deep_merge_obj in H.
  destruct (merge_each_obj _ _ _ H) as [rf ->]. exists rf. split; [reflexivity|].
  split.
  - intros k v Hk Hv. apply dict_get_In in Hk.
    generalize (merge_each_items _ _ _ Hd H k v Hk). now rewrite Hv.
  - intros k v Hk Hv. apply dict_get_In in Hk.
    generalize (merge_each_items _ _ _ Hd H k v Hk). now rewrite Hv.
Qed.

(** X16. After a merge of dicts, a key the defaults do not have holds
    what the file gave it; a key whose default is not a dict holds the
    file's value if the file has the key, whatever that value is, and
    the default otherwise; a key whose default is a dict holds the
    merge of the file's value, or of an empty dict, with that default.
    The file's keys keep their order and the missing ones follow in the
    order of the defaults. *)
Theorem merge_keeps_file_values (f items : list (text * json)) (r : json) :
  NoDup (map fst items) ->
  deep_merge (JObj f) (JObj items) = Merged r ->
  exists rf, r = JObj rf /\
    (forall k, dict_get k items = None -> dict_get k rf = dict_get k f) /\
    (forall k v, dict_get k items = Some v -> is_dict v = false ->
       dict_get k rf = Some (match dict_get k f with Some u => u | None => v end)) /\
    (forall k v, dict_get k items = Some v -> is_dict v = true ->
       exists c, deep_merge (dict_get_or_empty k f) v = Merged c /\ dict_get k rf = Some c) /\
    map fst rf = map fst f ++ filter (fun k => negb (is_some (dict_get k f))) (map fst items).
Proof.
  intros Hd H. rewrite deep_merge_obj in H.
  destruct (merge_each_obj _ _ _ H) as [rf ->]. exists rf. split; [reflexivity|].
  repeat split.
  - intros k Hk. apply (merge_each_get_other _ _ _ _ H). now apply dict_get_none.
  - intros k v Hk Hv. apply dict_get_In in Hk.
    generalize (merge_each_items _ _ _ Hd H k v Hk). now rewrite Hv.
  - intros k v Hk Hv. apply dict_get_In in Hk.
    generalize (merge_each_items _ _ _ Hd H k v Hk). now rewrite Hv.
  - now apply merge_each_keys.
Qed.

(** ** Merging twice *)

Lemma merge_each_again (items rf : list (text * json)) :
  (forall k v, In (k, v) items ->
     if is_dict v
     then exists c, dict_get k rf = Some c /\ deep_merge c v = Merged c
     else dict_get k rf <> None) ->
  merge_each items (JObj rf) = Merged (JObj rf).
Proof.
  induction items as [|[k v] items IH]; intro H; cbn [merge_each]; [reflexivity|].
  assert (Hk := H k v (or_introl eq_refl)).
  assert (Hrest : merge_each items (JObj rf) = Merged (JObj rf)).
  { apply IH. intros k' v' Hin. apply H. now right. }
  destruct (is_dict v).
  - destruct Hk as (c & Hc & Hm). rewrite Hc, Hm. now rewrite (dict_set_same _ _ _ Hc).
  - destruct (dict_get k rf) as [u|] eqn:E; [|now destruct Hk].
    now rewrite (dict_setdefault_known _ v _ _ E).
Qed.

(** X17. Merging the defaults into a configuration that already went
    through the merge changes nothing. *)
Theorem merge_is_idempotent (default d r : json) :
  dict_wf default ->
  deep_merge d default = Merged r -> deep_merge r default = Merged r.
Proof.
  revert d r.
  induction default as [| | | | |items IH] using json_induction; intros d r Hwf H;
    try discriminate.
  apply dict_wf_obj in Hwf as [Hd Hall]. rewrite deep_merge_obj in *.
  destruct items as [|[k0 v0] items'] eqn:Ei; [simpl in *; now inversion H|].
  rewrite <- Ei in *.
  assert (Hobj : exists f, d = JObj f).
  { rewrite Ei in H. cbn [merge_each] in H. destruct d; try discriminate. eauto. }
  destruct Hobj as [f ->]. destruct (merge_each_obj _ _ _ H) as [rf ->].
  apply merge_each_again. intros k v Hin.
  generalize (merge_each_items _ _ _ Hd H k v Hin).
  rewrite Forall_forall in IH, Hall.
  destruct (is_dict v).
  - intros (c & Hm & Hc). exists c. split; [exact Hc|].
    apply (IH (k, v) Hin _ _ (Hall (k, v) Hin) Hm).
  - intros ->. discriminate.
Qed.

Lemma merge_is_idempotent_witness :
  deep_merge config_file_sample defaults_excerpt = Merged merged_sample /\
  deep_merge merged_sample defaults_excerpt = Merged merged_sample.
Proof.
  assert (H : deep_merge config_file_sample defaults_excerpt = Merged merged_sample)
    by (vm_compute; reflexivity).
  split; [exact H|].
  exact (merge_is_idempotent defaults_excerpt config_file_sample _ defaults_excerpt_wf H).
Defined.

Lemma merge_keeps_file_values_witness :
  deep_merge config_file_sample defaults_excerpt = Merged merged_sample /\
  exists rf, merged_sample = JObj rf /\
    map fst rf = [T "strategy_status_watch"; T "supabase"].
Proof.
  assert (H : deep_merge config_file_sample defaults_excerpt = Merged merged_sample)
    by (vm_compute; reflexivity).
  split; [exact H|].
  assert (Hd : NoDup (map fst (fields_of defaults_excerpt))).
  { simpl. constructor; [|constructor; [|constructor]]; simpl.
    - intros [E|[]]. discriminate.
    - intros []. }
  destruct (merge_keeps_file_values (fields_of config_file_sample)
              (fields_of defaults_excerpt) merged_sample Hd H)
    as (rf & E & _ & _ & _ & Hk).
  exists rf. split; [exact E|]. rewrite Hk. reflexivity.
Defined.

(** ** A value of the wrong shape *)

(** X18. When the defaults hold a non-empty dict under a key and the
    file holds something that is not a dict there, the merge raises
    [AttributeError]. *)
Theorem merge_fails_on_non_dict_section (f items : list (text * json)) (k : text)
    (entry : text * json) (section : list (text * json)) (u : json) :
  dict_get k items = Some (JObj (entry :: section)) ->
  dict_get k f = Some u -> is_dict u = false ->
  deep_merge (JObj f) (JObj items) = AttributeError.
Proof.
  rewrite deep_merge_obj. revert f.
  induction items as [|[k0 v0] items IH]; intros f Hk Hf Hu; [discriminate|].
  cbn [merge_each]. simpl in Hk. destruct (text_eqb k0 k) eqn:E.
  - apply text_eqb_eq in E. subst k0. inversion Hk; subst v0. cbn [is_dict].
    rewrite Hf, deep_merge_obj. destruct entry as [k1 v1]. cbn [merge_each].
    now destruct u.
  - assert (Hne : k0 <> k) by (intros ->; now rewrite text_eqb_refl in E).
    destruct (is_dict v0).
    + destruct (deep_merge _ v0) as [c|]; [|reflexivity].
      apply IH; [exact Hk| |exact Hu]. now rewrite dict_get_set_other.
    + apply IH; [exact Hk| |exact Hu]. now rewrite dict_get_setdefault_other.
Qed.

Lemma merge_fails_on_non_dict_section_witness :
  deep_merge (JObj [(T "supabase", JStr (T "off"))]) defaults_excerpt = AttributeError.
Proof.
  apply (merge_fails_on_non_dict_section _ _ (T "supabase")
           (T "service_role_key", JStr [])
           [(T "strategy_status_table", JStr (T "strategy_status"))]
           (JStr (T "off"))); reflexivity.
Defined.

(** ** Looking a setting up *)

Lemma split_on_no_sep (sep : ascii) (p : text) : ~ In sep p -> split_on sep p = [p].
Proof.
  induction p as [|c p IH]; simpl; [reflexivity|]. intro H.
  destruct (ascii_eqb c sep) eqn:E.
  - apply ascii_eqb_eq in E. tauto.
  - rewrite IH; tauto.
Qed.

Lemma split_on_app (sep : ascii) (p rest : text) :
  ~ In sep p -> split_on sep (p ++ sep :: rest) = p :: split_on sep rest.
Proof.
  induction p as [|c p IH]; simpl; intro H.
  - now rewrite (proj2 (ascii_eqb_eq sep sep) eq_refl).
  - destruct (ascii_eqb c sep) eqn:E.
    + apply ascii_eqb_eq in E. tauto.
    + rewrite IH; tauto.
Qed.

Lemma split_on_join (sep : ascii) (parts : list text) :
  parts <> [] -> (forall p, In p parts -> ~ In sep p) ->
  split_on sep (join_with sep parts) = parts.
Proof.
  induction parts as [|p parts IH]; [congruence|]. intros _ H.
  destruct parts as [|q parts].
  - simpl. apply split_on_no_sep, H. now left.
  - change (join_with sep (p :: q :: parts)) with (p ++ sep :: join_with sep (q :: parts)).
    rewrite split_on_app by (apply H; now left). f_equal.
    apply IH; [discriminate|]. intros x Hx. apply H. now right.
Qed.

(** X19. A path written as a dotted string is looked up like the list
    of its keys, when there is at least one key and no key contains a
    dot. *)
Theorem dotted_path_is_key_list (environ : text -> option text) (cfg : json)
    (env_name : text) (keys : list text) (default : json) :
  keys <> [] -> (forall k, In k keys -> ~ In "."%char k) ->
  get_env_or_config environ cfg env_name (PathDots (join_with "." keys)) default =
  get_env_or_config environ cfg env_name (PathList keys) default.
Proof.
  intros Hne Hk. unfold get_env_or_config, path_keys.
  now rewrite split_on_join.
Qed.

Lemma dotted_path_is_key_list_witness :
  get_env_or_config (fun _ => None) defaults_excerpt (T "SUPABASE_TABLE")
    (PathDots (T "supabase.strategy_status_table")) JNull =
  get_env_or_config (fun _ => None) defaults_excerpt (T "SUPABASE_TABLE")
    (PathList [T "supabase"; T "strategy_status_table"]) JNull.
Proof.
  apply (dotted_path_is_key_list (fun _ => None) defaults_excerpt (T "SUPABASE_TABLE")
           [T "supabase"; T "strategy_status_table"] JNull).
  - discriminate.
  - intros k [<-|[<-|[]]]; simpl; intuition discriminate.
Defined.

(** ** What is posted *)

Lemma published_In (p : publisher) (es : list event) (rq : text * payload) :
  In rq (published p es) ->
  exists nm ins en conn,
    In (Publish nm ins en conn) es /\ upsert_status p nm ins en conn = Some rq.
Proof.
  induction es as [|e es IH]; simpl; [contradiction|].
  assert (Hrest : In rq (published p es) ->
                  exists nm ins en conn,
                    (e = Publish nm ins en conn \/ In (Publish nm ins en conn) es) /\
                    upsert_status p nm ins en conn = Some rq).
  { intro H. destruct (IH H) as (nm & ins & en & conn & Hin & Hu).
    exists nm, ins, en, conn. auto. }
  destruct e as [| |nm ins en conn| | |]; try exact Hrest.
  destruct (upsert_status p nm ins en conn) as [rq0|] eqn:E; [|exact Hrest].
  intros [<-|H]; [|auto]. exists nm, ins, en, conn. auto.
Qed.

Lemma reconcile_publish_names (s : monitor) (raw_line : text) (cfg : config) :
  (forall nm ins en conn, In (Publish nm ins en conn) (output s) -> nm <> []) ->
  forall nm ins en conn,
    In (Publish nm ins en conn) (output (monitor_step cfg s raw_line)) -> nm <> [].
Proof.
  intros Hs nm ins en conn. rewrite monitor_step_extract.
  destruct (extract cfg raw_line) as [|e| |r] eqn:E; cbn [reconcile output].
  - apply Hs.
  - rewrite in_app_iff. intros [H|[H|[]]]; [now apply (Hs _ _ _ _ H)|discriminate].
  - rewrite in_app_iff. intros [H|[H|[]]]; [now apply (Hs _ _ _ _ H)|discriminate].
  - destruct (changed _ _ _ _); [|apply Hs].
    unfold apply_change, change_events; cbn [output]. rewrite in_app_iff.
    intros [H|[H|[H|[H|[]]]]]; try discriminate; [now apply (Hs _ _ _ _ H)|].
    inversion H; subst. now apply (extracted_name_nonempty cfg raw_line).
Qed.

Lemma run_publish_names (cfg : config) (tail live : list text) :
  forall nm ins en conn,
    In (Publish nm ins en conn) (output (run_strategy_status_monitor cfg tail live)) ->
    nm <> [].
Proof.
  unfold run_strategy_status_monitor.
  assert (H0 : forall nm ins en conn,
             In (Publish nm ins en conn) (output (initial_snapshot cfg tail)) -> nm <> []).
  { intros nm ins en conn. unfold initial_snapshot.
    destruct (build_initial_statuses _ _ _ _); simpl; intros [H|[]]; discriminate. }
  revert H0. generalize (initial_snapshot cfg tail). intro s. revert s.
  induction live as [|l live IH]; intros s Hs; simpl; [exact Hs|].
  apply IH. now apply reconcile_publish_names.
Qed.

(** X20. Every row a run posts to the status table carries the
    instrument [EMPTY], a name that is not empty and a connection that
    is not empty, and goes to the publisher's one endpoint; a publisher
    without URL or key posts nothing. *)
Theorem every_posted_row_has_sentinel_instrument (p : publisher) (cfg : config)
    (tail live : list text) :
  let posted := published p (output (run_strategy_status_monitor cfg tail live)) in
  (forall rq, In rq posted ->
     fst rq = build_table_endpoint p (pub_table p) /\
     pl_instrument (snd rq) = T "EMPTY" /\
     pl_strategy_name (snd rq) <> [] /\
     pl_connection (snd rq) <> []) /\
  (is_configured p = false -> posted = []).
Proof.
  split.
  - intros rq Hin. apply published_In in Hin as (nm & ins & en & conn & Hin & Hu).
    assert (Hi : ins = []).
    { destruct (run_instruments_empty cfg tail live) as [_ He].
      exact (He _ Hin). }
    assert (Hn := run_publish_names cfg tail live _ _ _ _ Hin).
    unfold upsert_status in Hu. destruct (is_configured p); [|discriminate].
    inversion Hu; subst rq ins. cbn. repeat split; auto.
    destruct conn; discriminate.
  - intro Hp.
    induction (output (run_strategy_status_monitor cfg tail live)) as [|e es IH];
      [reflexivity|].
    simpl. destruct e; try exact IH.
    unfold upsert_status. rewrite Hp. exact IH.
Qed.

(** ** Which log file is read *)

Lemma insert_newer_perm (x : log_file) (l : list log_file) :
  Permutation (insert_newer x l) (x :: l).
Proof.
  induction l as [|y l IH]; simpl; [reflexivity|].
  destruct (lf_mtime y <=? lf_mtime x)%Z; [reflexivity|].
  rewrite IH. apply perm_swap.
Qed.

Lemma newest_first_perm (l : list log_file) : Permutation (newest_first l) l.
Proof.
  induction l as [|x l IH]; simpl; [reflexivity|].
  rewrite insert_newer_perm. now constructor.
Qed.

(** The head of the sorted list, read off the unsorted one: the first
    of the files with the greatest time. *)
Lemma newest_first_head (l : list log_file) (c : log_file) (rest : list log_file) :
  newest_first l = c :: rest ->
  exists before after,
    l = before ++ c :: after /\
    (forall x, In x before -> (lf_mtime x < lf_mtime c)%Z) /\
    (forall x, In x after -> (lf_mtime x <= lf_mtime c)%Z).
Proof.
  revert c rest. induction l as [|x l IH]; intros c rest; simpl; [discriminate|].
  destruct (newest_first l) as [|y l'] eqn:E.
  - simpl. intro H. inversion H; subst.
    assert (Hl : l = []).
    { apply Permutation_nil. rewrite <- E. apply newest_first_perm. }
    subst l. exists [], []. repeat split; intros z [].
  - destruct (IH y l' eq_refl) as (b & a & -> & Hb & Ha).
    simpl. destruct (lf_mtime y <=? lf_mtime x)%Z eqn:Ec.
    + intro H. inversion H; subst. apply Z.leb_le in Ec.
      exists [], (b ++ y :: a). repeat split; [intros z []|].
      intros z Hz. apply in_app_iff in Hz. destruct Hz as [Hz|[<-|Hz]].
      * specialize (Hb z Hz). lia.
      * exact Ec.
      * specialize (Ha z Hz). lia.
    + intro H. inversion H; subst. apply Z.leb_gt in Ec.
      exists (x :: b), a. repeat split; [|exact Ha].
      intros z [<-|Hz]; [exact Ec|now apply Hb].
Qed.

(** X21. The log file chosen is one of the [log*.txt] files whenever
    there is any, however old, and one of the [log*] files otherwise;
    among its candidates it is the first of those with the greatest
    modification time.  None is chosen only when both lists are
    empty. *)
Theorem newest_log_file_is_first_newest (txt_logs all_logs : list log_file) :
  match newest_log_file txt_logs all_logs with
  | Some c =>
      exists before after,
        (if match txt_logs with [] => false | _ :: _ => true end
         then txt_logs else all_logs) = before ++ c :: after /\
        (forall x, In x before -> (lf_mtime x < lf_mtime c)%Z) /\
        (forall x, In x after -> (lf_mtime x <= lf_mtime c)%Z)
  | None => txt_logs = [] /\ all_logs = []
  end.
Proof.
  unfold newest_log_file.
  destruct (newest_first txt_logs) as [|c rest] eqn:E.
  - assert (Ht : txt_logs = []).
    { apply Permutation_nil. rewrite <- E. apply newest_first_perm. }
    subst txt_logs.
    destruct (newest_first all_logs) as [|c rest] eqn:E'.
    + split; [reflexivity|].
      apply Permutation_nil. rewrite <- E'. apply newest_first_perm.
    + now apply newest_first_head in E'.
  - destruct txt_logs as [|t ts]; [discriminate|].
    now apply newest_first_head in E.
Qed.

(** ** The word every default status pattern spells out *)

Lemma reads_consumed (ic : bool) (r : regex) :
  forall c ms c' ms', reads ic r c ms c' ms' -> exists w, c_rest c = w ++ c_rest c'.
Proof.
  induction r as [|cs|a IHa b IHb|a IHa b IHb|cs lo hi g|a IHa|n a IHa| | |];
    intros c ms c' ms'; cbn [reads].
  - intros [-> _]. now exists [].
  - intros (x & rest' & Hr & _ & -> & _). now exists [x].
  - intros (c1 & m1 & H1 & H2).
    destruct (IHa _ _ _ _ H1) as [w1 E1]. destruct (IHb _ _ _ _ H2) as [w2 E2].
    exists (w1 ++ w2). now rewrite E1, E2, app_assoc.
  - intros [H|H]; eauto.
  - intros (w & rest' & Hr & _ & _ & _ & -> & _). now exists w.
  - intros [H|[-> _]]; [eauto|now exists []].
  - intros (m1 & H & _). eauto.
  - intros (_ & -> & _). now exists [].
  - intros (_ & -> & _). now exists [].
  - intros (_ & -> & _). now exists [].
Qed.

Lemma reads_seqs_app (ic : bool) (a b : list regex) :
  forall c ms c' ms',
    reads ic (seqs (a ++ b)) c ms c' ms' ->
    exists c1 m1, reads ic (seqs a) c ms c1 m1 /\ reads ic (seqs b) c1 m1 c' ms'.
Proof.
  induction a as [|r a IH]; intros c ms c' ms' H.
  - exists c, ms. split; [now split|exact H].
  - change (seqs ((r :: a) ++ b)) with (Seq r (seqs (a ++ b))) in H.
    destruct H as (c1 & m1 & H1 & H2).
    destruct (IH _ _ _ _ H2) as (c2 & m2 & H3 & H4).
    exists c2, m2. split; [|exact H4].
    change (seqs (r :: a)) with (Seq r (seqs a)). now exists c1, m1.
Qed.

Lemma lower_upper_fixed (x : ascii) :
  py_lower_char x = x -> py_lower_char (py_upper_char x) = py_upper_char x ->
  py_upper_char x = x.
Proof.
  destruct x as [[] [] [] [] [] [] [] []]; vm_compute; intros H1 H2;
    first [reflexivity | discriminate H1 | discriminate H2].
Qed.

Lemma py_lower_char_idem (z : ascii) : py_lower_char (py_lower_char z) = py_lower_char z.
Proof. destruct z as [[] [] [] [] [] [] [] []]; reflexivity. Qed.

(** In a lower-cased subject a lower-case literal character matches
    only itself, also under [re.IGNORECASE]. *)
Lemma ch_ignorecase_lower (x y : ascii) :
  py_lower_char x = x -> py_lower_char y = y ->
  cset_match true (ch y) x = true -> x = y.
Proof.
  intros Hx Hy. unfold ch, cset_match, item_match_flags, item_match. simpl.
  rewrite orb_false_r, orb_true_iff, !ascii_eqb_eq, Hx.
  intros [H|H]; [exact H|]. rewrite <- H. symmetry. apply lower_upper_fixed; [exact Hx|].
  now rewrite H.
Qed.

Lemma reads_literal_ignorecase (w : text) :
  forall c ms c' ms',
    Forall (fun x => py_lower_char x = x) (c_rest c) ->
    lower w = w ->
    reads true (seqs (map (fun x => Chr (ch x)) w)) c ms c' ms' ->
    c_rest c = w ++ c_rest c'.
Proof.
  induction w as [|y w IH]; intros c ms c' ms' Hc Hw; cbn [seqs map fold_right reads].
  - now intros [-> _].
  - intros (c1 & m1 & (x & r1 & Hr & Hx & -> & ->) & H).
    rewrite Hr in Hc. inversion Hc as [|? ? Hx0 Hr1]; subst.
    assert (Hy : py_lower_char y = y) by (cbn [lower map] in Hw; now injection Hw).
    assert (Hw' : lower w = w) by (cbn [lower map] in Hw; now injection Hw).
    apply (ch_ignorecase_lower x y Hx0 Hy) in Hx. subst x.
    apply IH in H; [|exact Hr1|exact Hw']. simpl in H. rewrite Hr, H. reflexivity.
Qed.

Lemma scan_reads (ic : bool) (r : regex) (rest : text) :
  forall prev pos x,
    scan ic r prev pos rest = Some x ->
    exists skipped c c' ms',
      rest = skipped ++ c_rest c /\ reads ic r c [] c' ms'.
Proof.
  induction rest as [|a rest IH]; intros prev pos x; cbn [scan].
  - destruct (match_here ic r prev pos []) as [[e ms]|] eqn:E; [|discriminate].
    intros _. unfold match_here in E.
    assert (Hn : run ic r prev pos [] [] (fun _ pos' _ ms0 => Some (pos', ms0)) <> None)
      by (rewrite E; discriminate).
    apply run_reads in Hn as (c' & ms' & Hr & _).
    exists [], (Cursor prev pos []), c', ms'. split; [reflexivity|exact Hr].
  - destruct (match_here ic r prev pos (a :: rest)) as [[e ms]|] eqn:E.
    + intros _. unfold match_here in E.
      assert (Hn : run ic r prev pos (a :: rest) []
                     (fun _ pos' _ ms0 => Some (pos', ms0)) <> None)
        by (rewrite E; discriminate).
      apply run_reads in Hn as (c' & ms' & Hr & _).
      exists [], (Cursor prev pos (a :: rest)), c', ms'. split; [reflexivity|exact Hr].
    + intro H. destruct (IH _ _ _ H) as (sk & c & c' & ms' & -> & Hr).
      exists (a :: sk), c, c', ms'. split; [reflexivity|exact Hr].
Qed.

Lemma lower_fixed (line : text) : Forall (fun x => py_lower_char x = x) (lower line).
Proof.
  unfold lower. apply Forall_forall. intros x Hx.
  apply in_map_iff in Hx as (z & <- & _). apply py_lower_char_idem.
Qed.

Lemma Forall_app_r (P : ascii -> Prop) (a b : text) : Forall P (a ++ b) -> Forall P b.
Proof. intro H. now apply Forall_app in H. Qed.

(** A pattern that spells a lower-case word is found only in lines
    that contain the word, in whatever case. *)
Lemma spelled_word_needed (r : regex) (w : string) (line : text) :
  spells r w -> lower (T w) = T w ->
  pattern_search true r (lower line) <> None -> part_of (T w) (lower line).
Proof.
  intros (before & after & ->) Hw Hs. unfold pattern_search in Hs.
  destruct (scan true (seqs (before ++ lit w :: after)) None 0 (lower line))
    as [x|] eqn:E; [|now destruct Hs].
  apply scan_reads in E as (sk & c & c' & ms' & Hl & Hr).
  apply reads_seqs_app in Hr as (c1 & m1 & H1 & H2).
  change (seqs (lit w :: after)) with (Seq (lit w) (seqs after)) in H2.
  destruct H2 as (c2 & m2 & H2 & _).
  apply reads_consumed in H1 as [w0 E0].
  assert (Hlow := lower_fixed line). rewrite Hl, E0 in Hlow.
  apply Forall_app_r, Forall_app_r in Hlow.
  apply reads_literal_ignorecase in H2; [|exact Hlow|exact Hw].
  exists (sk ++ w0), (c_rest c2). rewrite Hl, E0, H2. now rewrite <- app_assoc.
Qed.

Lemma default_patterns_spell_strategy (pol : bool) (pat : regex) :
  In (pol, pat) (declared_order DEFAULT_PATTERNS) -> spells pat "strategy".
Proof.
  unfold declared_order. simpl.
  intros [H|[H|[H|[H|[H|[H|[H|[H|[H|[]]]]]]]]]]; inversion H; subst pat.
  - exists [WordB; lit "enabling"; plus_ sp; lit "ninjascript"; plus_ sp]. eexists. reflexivity.
  - exists []. eexists. reflexivity.
  - exists [WordB; lit "enabled"; WordB; lazy_any]. eexists. reflexivity.
  - exists []. eexists. reflexivity.
  - exists [WordB; lit "disabling"; plus_ sp; lit "ninjascript"; plus_ sp]. eexists. reflexivity.
  - exists []. eexists. reflexivity.
  - exists [WordB; lit "disabled"; WordB; lazy_any]. eexists. reflexivity.
  - exists [WordB; lit "disabled"; WordB; lazy_any]. eexists. reflexivity.
  - exists []. eexists. reflexivity.
Qed.

(** X22. With the default patterns a line of code points below
    U+0100, as [text] holds them, that does not contain the word
    [strategy], in whatever case, is no status line: nothing is
    extracted from it and the loop leaves table and output as they
    were, whatever the allow-list.  (Above U+00FF the long s, U+017F,
    is matched by [s] under [re.IGNORECASE]; such lines are not
    covered.) *)
Theorem default_patterns_need_the_word_strategy (subs : list text) (s : monitor)
    (raw_line : text) :
  ~ part_of (T "strategy") (lower raw_line) ->
  extract (Config subs DEFAULT_PATTERNS) raw_line = Skipped /\
  monitor_step (Config subs DEFAULT_PATTERNS) s raw_line = s.
Proof.
  intro Hn.
  assert (Hx : extract (Config subs DEFAULT_PATTERNS) raw_line = Skipped).
  { unfold extract. cbn [match_strategies patterns].
    destruct raw_line as [|a l]; [reflexivity|].
    destruct (negb (requires_any (a :: l) subs)); [reflexivity|].
    rewrite (parse_as_first _ _ default_patterns_compile).
    destruct (first_in_order (declared_order DEFAULT_PATTERNS) (lower (a :: l)))
      as [[pol m]|] eqn:E; [|reflexivity].
    exfalso. apply Hn.
    apply first_in_order_some in E as (i & pat & Hi & Hm & _).
    apply nth_error_In in Hi.
    apply (spelled_word_needed pat "strategy");
      [exact (default_patterns_spell_strategy pol pat Hi)|reflexivity|].
    rewrite Hm. discriminate. }
  split; [exact Hx|]. rewrite monitor_step_extract, Hx. reflexivity.
Qed.

Lemma default_patterns_need_the_word_strategy_witness :
  ~ part_of (T "strategy") (lower line_plain) /\
  monitor_step default_config empty_monitor line_plain = empty_monitor.
Proof.
  assert (H : ~ part_of (T "strategy") (lower line_plain)).
  { intro Hp. apply contains_spec in Hp. vm_compute in Hp. discriminate. }
  split; [exact H|].
  exact (proj2 (default_patterns_need_the_word_strategy [] empty_monitor line_plain H)).
Defined.

(** ** Every default setting is there after a merge *)

Lemma dict_wf_get (fields : list (text * json)) (k : text) (v : json) :
  dict_wf (JObj fields) -> dict_get k fields = Some v -> dict_wf v.
Proof.
  intros Hwf Hk. apply dict_wf_obj in Hwf as [_ Hall].
  apply dict_get_In in Hk. rewrite Forall_forall in Hall. exact (Hall _ Hk).
Qed.

(** X23. After a merge every path that leads somewhere in the defaults
    leads somewhere in the merged configuration: indexing it with the
    keys of a default setting raises no [KeyError]. *)
Theorem merged_config_has_every_default_path (path : list text) (default d r : json) :
  dict_wf default ->
  deep_merge d default = Merged r ->
  walk path default <> None -> walk path r <> None.
Proof.
  revert default d r. induction path as [|k path IH]; intros default d r Hwf Hm Hw.
  - discriminate.
  - cbn [walk] in Hw. destruct default as [| | | | |items]; try now destruct Hw.
    destruct (dict_get k items) as [v|] eqn:Ek; [|now destruct Hw].
    assert (Hobj : exists f, d = JObj f).
    { rewrite deep_merge_obj in Hm. apply dict_get_In in Ek.
      destruct items as [|[k0 v0] items]; [contradiction|].
      cbn [merge_each] in Hm. destruct d; try discriminate. eauto. }
    destruct Hobj as [f ->].
    assert (Hd : NoDup (map fst items)) by (now apply dict_wf_obj in Hwf).
    destruct (merged_lookups f items r Hd Hm) as (rf & -> & Hscalar & Hdict).
    cbn [walk]. destruct (is_dict v) eqn:Ev.
    + destruct (Hdict k v Ek Ev) as (c & Hc & Hr). rewrite Hr.
      apply (IH v (dict_get_or_empty k f) c); [exact (dict_wf_get _ _ _ Hwf Ek)|exact Hc|exact Hw].
    + rewrite (Hscalar k v Ek Ev).
      destruct path as [|k' path]; [discriminate|].
      cbn [walk] in Hw. destruct v; try now destruct Hw.
Qed.

Lemma merged_config_has_every_default_path_witness :
  walk [T "strategy_status_watch"; T "cooldown_min"] defaults_excerpt <> None /\
  walk [T "strategy_status_watch"; T "cooldown_min"] merged_sample <> None.
Proof.
  assert (H : walk [T "strategy_status_watch"; T "cooldown_min"] defaults_excerpt <> None)
    by (vm_compute; discriminate).
  split; [exact H|].
  refine (merged_config_has_every_default_path _ defaults_excerpt config_file_sample
            merged_sample defaults_excerpt_wf _ H).
  vm_compute. reflexivity.
Defined.

(** ** Letter case *)

Lemma lower_nil (a : text) : lower a = [] -> a = [].
Proof. destruct a; [reflexivity|discriminate]. Qed.

(** X24. Extraction does not see letter case: two lines with the same
    lower-cased form give the same outcome, record for record. *)
Theorem extraction_ignores_case (cfg : config) (a b : text) :
  lower a = lower b -> extract cfg a = extract cfg b.
Proof.
  intro H. unfold extract.
  assert (Hr : requires_any a (match_strategies cfg) = requires_any b (match_strategies cfg)).
  { unfold requires_any. now rewrite H. }
  assert (Hp : parse_with_patterns a (patterns cfg) = parse_with_patterns b (patterns cfg)).
  { unfold parse_with_patterns. now rewrite H. }
  assert (Hf : forall st, fill_missing_fields a st (patterns cfg) =
                          fill_missing_fields b st (patterns cfg)).
  { intro st. unfold fill_missing_fields. now rewrite H. }
  destruct a as [|x a], b as [|y b]; try discriminate; [reflexivity|].
  rewrite Hr, Hp. destruct (negb _); [reflexivity|].
  destruct (parse_with_patterns (y :: b) (patterns cfg)) as [[[|] st0]|e]; try reflexivity.
  now rewrite Hf.
Qed.

Lemma extraction_ignores_case_witness :
  extract default_config (T "ENABLING NINJASCRIPT STRATEGY 'FOO/12345'") =
  extract default_config line_foo.
Proof.
  apply extraction_ignores_case. reflexivity.
Defined.
